(** * Per-stream cuSPARSE handle cache of [tensorflow/core/kernels/cuda_sparse.cc]

    The development embeds the handle-lifecycle part of the file: the class
    [CudaSparseHandles] (constructor, move constructor, move assignment,
    destructor, [Initialize], [handle], [Release]), the singleton handle map
    with its mutex, the constructor of [CudaSparse], and
    [CudaSparse::Initialize] together with one of the forwarding wrappers
    ([CudaSparse::Coo2csr]).

    C++ objects live in an explicit store, so that references, moves and
    self-assignment are modelled with their aliasing.  The cuSPARSE library is
    an external component: it is represented by a scripted native layer that
    records every call made to it. *)

From stdpp Require Import gmap list.
From Stdlib Require Import ZArith Lia.

Local Open Scope N_scope.

(** ** Opaque native types *)

(** [cudaStream_t] and [cusparseHandle_t] are pointers handed out by the CUDA
    runtime; only their identity matters.  [loc] is the address of a
    [CudaSparseHandles] object. *)
Abbreviation cudaStream_t := N (only parsing).
Abbreviation cusparseHandle_t := N (only parsing).
Abbreviation loc := N (only parsing).

(** [cusparseStatus_t] is the enumeration of [cusparse.h]; the code only ever
    compares it with [CUSPARSE_STATUS_SUCCESS], which is the enumerator 0. *)
Abbreviation cusparseStatus_t := Z (only parsing).
Definition CUSPARSE_STATUS_SUCCESS : Z := 0%Z.

Definition is_success (st : Z) : bool := (st =? CUSPARSE_STATUS_SUCCESS)%Z.

(** [tensorflow::Status] as far as this file produces it: [Status::OK()], or the
    [errors::Internal] built by [TF_RETURN_IF_CUSPARSE_ERROR] from the failing
    native status. *)
Inductive Status : Type :=
| OK
| Internal (native_status : Z).

(** ** The two classes *)

Module CudaSparseHandles.
(** [cusparse_handle_] is not initialised by the constructor: [None] is the
    indeterminate value it holds until [cusparseCreate] writes it. *)
Record t : Type := mk {
  initialized_ : bool;
  stream_ : cudaStream_t;
  cusparse_handle_ : option cusparseHandle_t
}.

Definition set_initialized (b : bool) (e : t) : t :=
  {| initialized_ := b; stream_ := stream_ e;
     cusparse_handle_ := cusparse_handle_ e |}.

Definition set_handle (h : option cusparseHandle_t) (e : t) : t :=
  {| initialized_ := initialized_ e; stream_ := stream_ e;
     cusparse_handle_ := h |}.
End CudaSparseHandles.

Module CudaSparse.
(** [cusparse_handle_] is a [const cusparseHandle_t*]: it points at the
    [cusparse_handle_] member of a [CudaSparseHandles] object, which the model
    identifies by the address of that object. *)
Record t : Type := mk {
  initialized_ : bool;
  cuda_stream_ : cudaStream_t;
  cusparse_handle_ : option loc
}.
End CudaSparse.

(** ** The world: native layer, object store, handle map *)

(** One entry per call into the native library, with its arguments and the
    status it returned. *)
Inductive native_call : Type :=
| CallCreate (out : option N) (st : Z)
| CallSetStream (h : N) (stream : N) (st : Z)
| CallDestroy (h : N) (st : Z)
| CallXcoo2csr (h : N) (st : Z).

Record world : Type := World {
  (** [true] when the translation unit is compiled with [NDEBUG], which
      compiles every [DCHECK] out. *)
  ndebug : bool;
  (** statuses the native library will return to the coming calls, in order;
      once exhausted every call succeeds *)
  script : list Z;
  (** the next library context [cusparseCreate] hands out *)
  next_handle : N;
  (** every native call made so far, oldest first *)
  calls : list native_call;
  (** live [CudaSparseHandles] objects: locals, temporaries and map nodes *)
  heap : gmap N CudaSparseHandles.t;
  next_loc : N;
  (** [*GetHandleMapSingleton()]: stream to the map node holding its handles *)
  cm : gmap N N;
  (** streams announced by [LOG(INFO)] *)
  logs : list N
}.

Definition set_heap (f : gmap N CudaSparseHandles.t -> gmap N CudaSparseHandles.t)
    (w : world) : world :=
  World (ndebug w) (script w) (next_handle w) (calls w) (f (heap w))
        (next_loc w) (cm w) (logs w).

Definition set_cm (f : gmap N N -> gmap N N) (w : world) : world :=
  World (ndebug w) (script w) (next_handle w) (calls w) (heap w)
        (next_loc w) (f (cm w)) (logs w).

(** The world before the first use of the cache: no object, no map entry. *)
Definition initial_world (nd : bool) (sc : list Z) : world :=
  World nd sc 0 [] ∅ 0 ∅ [].

(** ** Outcomes and the monad of the embedding *)

Inductive outcome (A : Type) : Type :=
| Returns (a : A) (w : world)
| Fatal (w : world)       (* a failed check: LOG(FATAL) aborts the process *)
| Undefined (w : world).  (* access through an invalid pointer or of an
                             indeterminate value *)
Arguments Returns {A} a w.
Arguments Fatal {A} w.
Arguments Undefined {A} w.

Definition world_of {A} (o : outcome A) : world :=
  match o with Returns _ w | Fatal w | Undefined w => w end.

Definition M (A : Type) : Type := world -> outcome A.

Definition ret {A} (a : A) : M A := fun w => Returns a w.

Definition bind {A B} (m : M A) (k : A -> M B) : M B :=
  fun w =>
    match m w with
    | Returns a w' => k a w'
    | Fatal w' => Fatal w'
    | Undefined w' => Undefined w'
    end.

#[global] Instance M_ret : MRet M := @ret.
#[global] Instance M_bind : MBind M := fun A B k m => bind m k.

Definition undefined {A} : M A := fun w => Undefined w.

(** [DCHECK(cond)] comes from the logging header of the platform layer, not
    from [cuda_sparse.cc].  It is taken with the build as a
    parameter: where the macro is active a false [cond] aborts the process, and
    where [NDEBUG] compiles it out nothing is evaluated. *)
Definition DCHECK (cond : bool) : M unit :=
  fun w => if ndebug w then Returns tt w
           else if cond then Returns tt w else Fatal w.

Definition LOG_INFO (stream : N) : M unit :=
  fun w => Returns tt
    (World (ndebug w) (script w) (next_handle w) (calls w) (heap w)
           (next_loc w) (cm w) (logs w ++ [stream])).

(** *** Object store *)

Definition load (l : N) : M CudaSparseHandles.t :=
  fun w => match heap w !! l with
           | Some e => Returns e w
           | None => Undefined w
           end.

Definition store (l : N) (e : CudaSparseHandles.t) : M unit :=
  fun w => match heap w !! l with
           | Some _ => Returns tt (set_heap (insert l e) w)
           | None => Undefined w
           end.

Definition alloc (e : CudaSparseHandles.t) : M N :=
  fun w => Returns (next_loc w)
    (World (ndebug w) (script w) (next_handle w) (calls w)
           (<[next_loc w := e]> (heap w)) (next_loc w + 1) (cm w) (logs w)).

Definition free (l : N) : M unit :=
  fun w => match heap w !! l with
           | Some _ => Returns tt (set_heap (delete l) w)
           | None => Undefined w
           end.

(** Modelled from the spec: the macro [TF_RETURN_IF_CUSPARSE_ERROR], which
    [cuda_sparse.cc] takes from the header [cuda_sparse.h].  A native status
    other than success makes the enclosing function return the error built from
    that status; otherwise execution goes on with [k]. *)
Definition TF_RETURN_IF_CUSPARSE_ERROR (st : Z) (k : M Status) : M Status :=
  if negb (is_success st) then ret (Internal st) else k.

(** Reading a member that may still be indeterminate. *)
Definition read_handle (h : option N) : M N :=
  match h with Some v => ret v | None => undefined end.

(** *** Native layer *)

(** cuSPARSE is an external library.  What it answers is a parameter of every
    statement: the [script] of the world lists the statuses of the coming
    calls, and the theorems hold for every script.  A successful
    [cusparseCreate] hands out a library context that no earlier call handed
    out; contexts are numbered in the order of their creation. *)
Definition next_status (w : world) : Z :=
  match script w with [] => CUSPARSE_STATUS_SUCCESS | st :: _ => st end.

Definition native_step (ev : native_call) (w : world) : world :=
  World (ndebug w) (tail (script w)) (next_handle w)
        (calls w ++ [ev]) (heap w) (next_loc w) (cm w) (logs w).

Definition fresh_handle (w : world) : world :=
  World (ndebug w) (script w) (next_handle w + 1)
        (calls w) (heap w) (next_loc w) (cm w) (logs w).

(** [cusparseCreate(&h)]: on success a new library context is written to [h];
    on failure [h] is left as it was. *)
Definition cusparseCreate : M (Z * option N) :=
  fun w =>
    let st := next_status w in
    if is_success st
    then Returns (st, Some (next_handle w))
                 (fresh_handle
                    (native_step (CallCreate (Some (next_handle w)) st) w))
    else Returns (st, None) (native_step (CallCreate None st) w).

Definition cusparseSetStream (h : N) (stream : N) : M Z :=
  fun w => let st := next_status w in
           Returns st (native_step (CallSetStream h stream st) w).

Definition cusparseDestroy (h : N) : M Z :=
  fun w => let st := next_status w in
           Returns st (native_step (CallDestroy h st) w).

Definition cusparseXcoo2csr (h : N) : M Z :=
  fun w => let st := next_status w in
           Returns st (native_step (CallXcoo2csr h st) w).

(** ** Methods of [CudaSparseHandles] *)

(** [explicit CudaSparseHandles(cudaStream_t stream)] *)
Definition CudaSparseHandles_ctor (stream : N) : M N :=
  alloc (CudaSparseHandles.mk false stream None).

(** [CudaSparseHandles(CudaSparseHandles&& rhs)] *)
Definition CudaSparseHandles_move_ctor (rhs : N) : M N :=
  r ← load rhs;
  this ← alloc (CudaSparseHandles.mk (CudaSparseHandles.initialized_ r)
                   (CudaSparseHandles.stream_ r)
                   (CudaSparseHandles.cusparse_handle_ r));
  store rhs (CudaSparseHandles.set_initialized false r);;
  ret this.

(** [void Release()] *)
Definition CudaSparseHandles_Release (this : N) : M unit :=
  e ← load this;
  if CudaSparseHandles.initialized_ e then
    h ← read_handle (CudaSparseHandles.cusparse_handle_ e);
    err ← cusparseDestroy h;
    DCHECK (is_success err);;
    store this (CudaSparseHandles.set_initialized false e)
  else ret tt.

(** [CudaSparseHandles& operator=(CudaSparseHandles&& rhs)] *)
Definition CudaSparseHandles_move_assign (this rhs : N) : M unit :=
  if decide (this = rhs) then ret tt
  else
    CudaSparseHandles_Release this;;
    r ← load rhs;
    store this (CudaSparseHandles.mk (CudaSparseHandles.initialized_ r)
                  (CudaSparseHandles.stream_ r)
                  (CudaSparseHandles.cusparse_handle_ r));;
    store rhs (CudaSparseHandles.set_initialized false r).

(** [~CudaSparseHandles() { Release(); }], after which the storage is gone. *)
Definition CudaSparseHandles_dtor (this : N) : M unit :=
  CudaSparseHandles_Release this;;
  free this.

(** [Status Initialize()] *)
Definition CudaSparseHandles_Initialize (this : N) : M Status :=
  e ← load this;
  if CudaSparseHandles.initialized_ e then ret OK
  else
    '(st, out) ← cusparseCreate;
    let e1 := match out with
              | Some h => CudaSparseHandles.set_handle (Some h) e
              | None => e
              end in
    store this e1;;
    TF_RETURN_IF_CUSPARSE_ERROR st (
      h ← read_handle (CudaSparseHandles.cusparse_handle_ e1);
      st2 ← cusparseSetStream h (CudaSparseHandles.stream_ e1);
      TF_RETURN_IF_CUSPARSE_ERROR st2 (
        store this (CudaSparseHandles.set_initialized true e1);;
        ret OK)).

(** [cusparseHandle_t& handle()]: the reference returned is the address of the
    member inside [this]. *)
Definition CudaSparseHandles_handle (this : N) : M N :=
  e ← load this;
  DCHECK (CudaSparseHandles.initialized_ e);;
  ret this.

(** ** The singleton handle map *)

(** [GetHandleMapSingleton()] returns the address of a map allocated by [new]
    on the first call; [cm] of the world is that map, empty until the first
    insertion.  The result says whether the pointer is non-null. *)
Definition GetHandleMapSingleton : M bool := ret true.

(** [handle_map->find(stream)]: the node, or [None] for [end()]. *)
Definition HandleMap_find (stream : N) : M (option N) :=
  fun w => Returns (cm w !! stream) w.

(** Linking a freshly built node into the table. *)
Definition HandleMap_link (stream : N) (node : N) : M unit :=
  fun w => Returns tt (set_cm (insert stream node) w).

(** [handle_map->insert(std::move(pair)).first]: when the key is absent the
    mapped value is move-constructed into a new node.  [CudaSparse::Initialize]
    only inserts after [find] returned [end()] under the same lock; with the key
    present nothing is inserted and the existing node is returned. *)
Definition HandleMap_insert (stream : N) (value : N) : M N :=
  it ← HandleMap_find stream;
  match it with
  | Some node => ret node
  | None =>
      node ← CudaSparseHandles_move_ctor value;
      HandleMap_link stream node;;
      ret node
  end.

(** ** [CudaSparse] *)

(** The object as its constructor leaves it, for a kernel context whose GPU
    stream is [stream]. *)
Definition CudaSparse_ctor (stream : N) : CudaSparse.t :=
  CudaSparse.mk false stream None.

(** [CudaSparse::CudaSparse(OpKernelContext* context)].  The chain of accessors
    on [context] belongs to the framework, not to [cuda_sparse.cc]; what it
    returns is taken as the parameter [cuda_stream_ptr]: null, or the address
    of a stream, given by the stream stored there. *)
Definition CudaSparse_constructor (cuda_stream_ptr : option cudaStream_t)
    : M CudaSparse.t :=
  DCHECK (match cuda_stream_ptr with Some _ => true | None => false end);;
  match cuda_stream_ptr with
  | Some stream => ret (CudaSparse_ctor stream)
  | None => undefined
  end.

(** The parts of [CudaSparse::Initialize], in program order. *)

(** [HandleMap* handle_map = GetHandleMapSingleton(); DCHECK(handle_map);] *)
Definition Initialize_prologue : M unit :=
  handle_map ← GetHandleMapSingleton;
  DCHECK handle_map.

(** [auto it = handle_map->find(cuda_stream_);] *)
Definition Initialize_find (this : CudaSparse.t) : M (option N) :=
  HandleMap_find (CudaSparse.cuda_stream_ this).

(** [LOG(INFO) << ...; CudaSparseHandles new_handles(cuda_stream_);
    ... new_handles.Initialize()] *)
Definition Initialize_create (this : CudaSparse.t) : M (N * Status) :=
  LOG_INFO (CudaSparse.cuda_stream_ this);;
  new_handles ← CudaSparseHandles_ctor (CudaSparse.cuda_stream_ this);
  st ← CudaSparseHandles_Initialize new_handles;
  ret (new_handles, st).

(** [TF_RETURN_IF_ERROR] taken: the local [new_handles] is destroyed on the way
    out. *)
Definition Initialize_fail (new_handles : N) : M unit :=
  CudaSparseHandles_dtor new_handles.

(** [it = handle_map->insert(std::make_pair(cuda_stream_,
    std::move(new_handles))).first;] then the end of the block.  [make_pair]
    move-constructs a temporary pair, [insert] move-constructs the node from it,
    the temporary dies at the end of the statement and [new_handles] at the end
    of the block. *)
Definition Initialize_insert (this : CudaSparse.t) (new_handles : N) : M N :=
  tmp ← CudaSparseHandles_move_ctor new_handles;
  node ← HandleMap_insert (CudaSparse.cuda_stream_ this) tmp;
  CudaSparseHandles_dtor tmp;;
  CudaSparseHandles_dtor new_handles;;
  ret node.

(** [cusparse_handle_ = &it->second.handle(); initialized_ = true;
    return Status::OK();] *)
Definition Initialize_finish (this : CudaSparse.t) (node : N)
    : M (Status * CudaSparse.t) :=
  p ← CudaSparseHandles_handle node;
  ret (OK, CudaSparse.mk true (CudaSparse.cuda_stream_ this) (Some p)).

(** [Status CudaSparse::Initialize()], as one thread runs it.  The
    [mutex_lock] taken after the prologue and released on every return is part
    of the interleaving semantics further down.  [TF_RETURN_IF_ERROR] returns
    the status of [new_handles.Initialize()] when it is not OK. *)
Definition CudaSparse_Initialize (this : CudaSparse.t)
    : M (Status * CudaSparse.t) :=
  Initialize_prologue;;
  it ← Initialize_find this;
  match it with
  | Some node => Initialize_finish this node
  | None =>
      '(new_handles, st) ← Initialize_create this;
      match st with
      | Internal code =>
          Initialize_fail new_handles;;
          ret (Internal code, this)
      | OK =>
          node ← Initialize_insert this new_handles;
          Initialize_finish this node
      end
  end.

(** [Status CudaSparse::Coo2csr(...) const]: the device arrays are not
    modelled, only the call made through the cached handle. *)
Definition CudaSparse_Coo2csr (this : CudaSparse.t) : M Status :=
  DCHECK (CudaSparse.initialized_ this);;
  h ← match CudaSparse.cusparse_handle_ this with
      | Some p => e ← load p; read_handle (CudaSparseHandles.cusparse_handle_ e)
      | None => undefined
      end;
  st ← cusparseXcoo2csr h;
  TF_RETURN_IF_CUSPARSE_ERROR st (ret OK).

(** [acquire(stream)] of the specification: a fresh [CudaSparse] for the stream
    is initialised. *)
Definition acquire (stream : N) : M (Status * CudaSparse.t) :=
  CudaSparse_Initialize (CudaSparse_ctor stream).

(** A history of acquisitions, with the result of each. *)
Fixpoint acquires (streams : list N) : M (list (Status * CudaSparse.t)) :=
  match streams with
  | [] => ret []
  | s :: rest =>
      r ← acquire s;
      rs ← acquires rest;
      ret (r :: rs)
  end.

(** Worlds the cache can be in: those a history of acquisitions leads to from
    the initial world, whatever the native library answered. *)
Definition reachable (w : world) : Prop :=
  ∃ nd sc streams rs, acquires streams (initial_world nd sc) = Returns rs w.

(** Number of [cusparseCreate] and of [cusparseDestroy] calls in a trace. *)
Definition is_create (c : native_call) : bool :=
  match c with CallCreate _ _ => true | _ => false end.
Definition is_destroy (c : native_call) : bool :=
  match c with CallDestroy _ _ => true | _ => false end.
Definition creates (w : world) : nat := length (List.filter is_create (calls w)).
Definition destroys (w : world) : nat := length (List.filter is_destroy (calls w)).

(** ** Concurrent callers of [CudaSparse::Initialize] *)

(** Several threads run [CudaSparse::Initialize], each on its own [CudaSparse]
    object, over one shared world.  A thread advances by one part of the
    function at a time and any thread that can move may be the next to do so.
    [mutex] and [mutex_lock] belong to the platform layer, not to
    [cuda_sparse.cc], and are taken as a plain mutual-exclusion lock:
    [mutex_lock lock(handle_map_mutex)] blocks while another thread holds the
    mutex, and the lock is released when the function returns, after the locals
    of the inner block have been destroyed. *)
Inductive pc : Type :=
| AtEntry                                  (* nothing executed yet *)
| AtLock                                   (* about to construct [lock] *)
| AtFind                                   (* lock taken *)
| AtCreate                                 (* [find] returned [end()] *)
| AtInsert (new_handles : N)               (* [new_handles.Initialize()] OK *)
| AtFail (new_handles : N) (code : Z)      (* [TF_RETURN_IF_ERROR] returns *)
| AtFinish (node : N)                      (* [it] points at the node *)
| Done (st : Status).                      (* returned [st] *)

Record thread : Type := Thread { t_pc : pc; t_this : CudaSparse.t }.

Definition in_critical (p : pc) : bool :=
  match p with
  | AtFind | AtCreate | AtInsert _ | AtFail _ _ | AtFinish _ => true
  | AtEntry | AtLock | Done _ => false
  end.

Inductive step_result : Type :=
| Stepped (t : thread) (w : world) (mutex : option nat)
| Crashed (w : world).

Definition continue {A} (m : M A) (w : world) (k : A -> world -> step_result)
    : step_result :=
  match m w with
  | Returns a w' => k a w'
  | Fatal w' | Undefined w' => Crashed w'
  end.

(** One move of thread [i]; [None] when it has returned or is blocked. *)
Definition local_step (i : nat) (t : thread) (w : world) (mutex : option nat)
    : option step_result :=
  let this := t_this t in
  match t_pc t with
  | AtEntry =>
      Some (continue Initialize_prologue w
              (fun _ w' => Stepped (Thread AtLock this) w' mutex))
  | AtLock =>
      match mutex with
      | None => Some (Stepped (Thread AtFind this) w (Some i))
      | Some _ => None
      end
  | AtFind =>
      Some (continue (Initialize_find this) w
              (fun it w' =>
                 Stepped (Thread (match it with
                                  | Some node => AtFinish node
                                  | None => AtCreate
                                  end) this) w' mutex))
  | AtCreate =>
      Some (continue (Initialize_create this) w
              (fun r w' =>
                 Stepped (Thread (match snd r with
                                  | OK => AtInsert (fst r)
                                  | Internal code => AtFail (fst r) code
                                  end) this) w' mutex))
  | AtInsert new_handles =>
      Some (continue (Initialize_insert this new_handles) w
              (fun node w' => Stepped (Thread (AtFinish node) this) w' mutex))
  | AtFail new_handles code =>
      Some (continue (Initialize_fail new_handles) w
              (fun _ w' => Stepped (Thread (Done (Internal code)) this) w' None))
  | AtFinish node =>
      Some (continue (Initialize_finish this node) w
              (fun r w' => Stepped (Thread (Done (fst r)) (snd r)) w' None))
  | Done _ => None
  end.

Record config : Type := Config {
  shared : world;
  handle_map_mutex : option nat;   (* the thread holding the mutex *)
  threads : list thread;
  crashed : bool                   (* the process aborted *)
}.

Definition thread_step (i : nat) (c : config) : option config :=
  if crashed c then None
  else
    match threads c !! i with
    | None => None
    | Some t =>
        match local_step i t (shared c) (handle_map_mutex c) with
        | None => None
        | Some (Stepped t' w' m') =>
            Some (Config w' m' (<[i := t']> (threads c)) false)
        | Some (Crashed w') =>
            Some (Config w' (handle_map_mutex c) (threads c) true)
        end
    end.

(** A schedule names the thread to move next; naming one that cannot move
    changes nothing. *)
Fixpoint run (sched : list nat) (c : config) : config :=
  match sched with
  | [] => c
  | i :: rest => run rest (default c (thread_step i c))
  end.

(** All callers at the start of the function, for the given streams. *)
Definition start (w : world) (streams : list N) : config :=
  Config w None ((fun s => Thread AtEntry (CudaSparse_ctor s)) <$> streams)
         false.

(** [cusparseCreate] calls a thread has made for an entry that is not (or not
    yet) in the map. *)
Definition pending_creates (t : thread) : nat :=
  match t_pc t with
  | AtInsert _ | AtFail _ _ | Done (Internal _) => 1
  | _ => 0
  end.

Fixpoint total_pending (ts : list thread) : nat :=
  match ts with
  | [] => 0
  | t :: rest => pending_creates t + total_pending rest
  end.

(** Whether stream [s] entered the map between [w0] and [w]. *)
Definition newly_cached (s : N) (w0 w : world) : nat :=
  match cm w0 !! s, cm w !! s with
  | None, Some _ => 1
  | _, _ => 0
  end.

(** Parts of [CudaSparse::Initialize] a thread still has to run, at most. *)
Definition remaining (p : pc) : nat :=
  match p with
  | AtEntry => 6
  | AtLock => 5
  | AtFind => 4
  | AtCreate => 3
  | AtInsert _ => 2
  | AtFail _ _ | AtFinish _ => 1
  | Done _ => 0
  end.

Fixpoint total_remaining (ts : list thread) : nat :=
  match ts with
  | [] => 0
  | t :: rest => remaining (t_pc t) + total_remaining rest
  end.

(** The caller is on the failure path, or has returned an error. *)
Definition failed (p : pc) : bool :=
  match p with
  | AtFail _ _ | Done (Internal _) => true
  | _ => false
  end.

(** No thread can move: each has returned, is blocked, or the process died. *)
Definition quiescent (c : config) : Prop :=
  forall i, thread_step i c = None.

(** Two callers of stream 5 in a fresh process, interleaved. *)
Definition two_callers_schedule : list nat :=
  [0; 1; 1; 0; 0; 1; 0; 0; 1; 0; 1; 1; 0; 0; 0; 1; 1; 1; 1]%nat.

Abbreviation two_callers :=
  (run two_callers_schedule (start (initial_world false []) (replicate 2 5))).

(** * Definitions for the statements and the proofs *)

(** ** Unfolding the embedding *)

Ltac munfold :=
  unfold CudaSparseHandles_dtor, CudaSparseHandles_Release,
    CudaSparseHandles_move_assign, CudaSparseHandles_move_ctor,
    CudaSparseHandles_Initialize, CudaSparseHandles_handle,
    CudaSparseHandles_ctor, TF_RETURN_IF_CUSPARSE_ERROR, read_handle,
    undefined,
    cusparseCreate, cusparseDestroy, cusparseSetStream, cusparseXcoo2csr,
    DCHECK, LOG_INFO, load, store, alloc, free,
    mbind, mret, M_bind, M_ret, bind, ret in *.

Ltac heap_simpl :=
  repeat first
    [ rewrite lookup_insert_eq
    | rewrite lookup_insert_ne by lia
    | rewrite lookup_delete_eq
    | rewrite lookup_delete_ne by lia ].

(** An initialized entry holds a handle that [cusparseCreate] wrote. *)
Definition entry_valid (e : CudaSparseHandles.t) : Prop :=
  CudaSparseHandles.initialized_ e = true ->
  is_Some (CudaSparseHandles.cusparse_handle_ e).

(** Nothing lives at or above the allocation pointer. *)
Definition heap_fresh (w : world) : Prop :=
  forall l, next_loc w <= l -> heap w !! l = None.

(** The world once [cusparseDestroy] was called on [h], and once the entry was
    marked uninitialized after it. *)
Definition destroyed (h : N) (w : world) : world :=
  native_step (CallDestroy h (next_status w)) w.

Definition released (this : N) (e : CudaSparseHandles.t) (h : N) (w : world)
    : world :=
  set_heap (insert this (CudaSparseHandles.set_initialized false e))
           (destroyed h w).

(** ** Worlds after a move *)

Definition moved_to (rhs : N) (r : CudaSparseHandles.t) (w : world) : world :=
  World (ndebug w) (script w) (next_handle w) (calls w)
        (<[rhs := CudaSparseHandles.set_initialized false r]>
           (<[next_loc w := r]> (heap w)))
        (next_loc w + 1) (cm w) (logs w).

Definition assigned (this rhs : N) (r : CudaSparseHandles.t) (w : world)
    : world :=
  set_heap (fun hp => <[rhs := CudaSparseHandles.set_initialized false r]>
                        (<[this := r]> hp)) w.

(** ** Worlds during and after [Initialize] *)

Definition create_failed (this : N) (e : CudaSparseHandles.t) (w : world)
    : world :=
  set_heap (insert this e) (native_step (CallCreate None (next_status w)) w).

Definition created (this : N) (e : CudaSparseHandles.t) (w : world) : world :=
  set_heap
    (insert this (CudaSparseHandles.set_handle (Some (next_handle w)) e))
    (fresh_handle
       (native_step (CallCreate (Some (next_handle w)) (next_status w)) w)).

Definition bound (this : N) (e : CudaSparseHandles.t) (w : world) : world :=
  native_step
    (CallSetStream (next_handle w) (CudaSparseHandles.stream_ e)
                   (next_status (created this e w)))
    (created this e w).

Definition initialized (this : N) (e : CudaSparseHandles.t) (w : world)
    : world :=
  set_heap
    (insert this
       (CudaSparseHandles.mk true (CudaSparseHandles.stream_ e)
                             (Some (next_handle w))))
    (bound this e w).

(** A store with two entries, at addresses 0 and 1, before any native call. *)
Definition store_of (nd : bool) (sc : list Z) (a b : CudaSparseHandles.t)
    : world :=
  World nd sc 5 [] (<[0 := a]> (<[1 := b]> ∅)) 2 ∅ [].

(** An initialized entry owning handle 4 and a never-initialized one. *)
Definition two_entries (nd : bool) (sc : list Z) : world :=
  store_of nd sc (CudaSparseHandles.mk true 8 (Some 4))
                 (CudaSparseHandles.mk false 9 None).

(** The worlds a miss leads to.  [announced] is the world once the stream was
    logged and the local [new_handles] constructed. *)
Definition announced (s : N) (w : world) : world :=
  World (ndebug w) (script w) (next_handle w) (calls w)
        (<[next_loc w := CudaSparseHandles.mk false s None]> (heap w))
        (next_loc w + 1) (cm w) (logs w ++ [s]).

Definition new_entry (s : N) : CudaSparseHandles.t :=
  CudaSparseHandles.mk false s None.

(** Status of the second native call of a miss. *)
Definition second_status (w : world) : Z :=
  match tail (script w) with [] => CUSPARSE_STATUS_SUCCESS | st :: _ => st end.

(** The three ways a miss can end. *)
Definition miss_create_failed (s : N) (w : world) : world :=
  World (ndebug w) (tail (script w)) (next_handle w)
        (calls w ++ [CallCreate None (next_status w)])
        (heap w) (next_loc w + 1) (cm w) (logs w ++ [s]).

Definition miss_bind_failed (s : N) (w : world) : world :=
  World (ndebug w) (tail (tail (script w))) (next_handle w + 1)
        (calls w ++ [CallCreate (Some (next_handle w)) (next_status w);
                     CallSetStream (next_handle w) s (second_status w)])
        (heap w) (next_loc w + 1) (cm w) (logs w ++ [s]).

Definition miss_inserted (s : N) (w : world) : world :=
  World (ndebug w) (tail (tail (script w))) (next_handle w + 1)
        (calls w ++ [CallCreate (Some (next_handle w)) (next_status w);
                     CallSetStream (next_handle w) s (second_status w)])
        (<[next_loc w + 2 := CudaSparseHandles.mk true s (Some (next_handle w))]>
           (heap w))
        (next_loc w + 3) (<[s := next_loc w + 2]> (cm w)) (logs w ++ [s]).

Ltac heap_eq Hf :=
  apply map_eq; intros ?i;
  repeat (rewrite lookup_delete || rewrite lookup_insert);
  repeat case_decide; subst; try reflexivity; try lia;
  try (symmetry; apply Hf; lia); try (apply Hf; lia).

(** ** The invariant of the cache *)

(** Between two calls of [CudaSparse::Initialize] the store holds exactly the
    nodes of the map; each node is initialized, bound to the stream it is
    registered under, and owns a handle of its own; no handle was ever
    destroyed. *)
Record cache_inv (w : world) : Prop := {
  inv_fresh : heap_fresh w;
  inv_node : forall s l, cm w !! s = Some l ->
    exists h, heap w !! l = Some (CudaSparseHandles.mk true s (Some h))
              /\ h < next_handle w;
  inv_owner : forall l e, heap w !! l = Some e ->
    cm w !! CudaSparseHandles.stream_ e = Some l;
  inv_handles : forall l1 l2 e1 e2,
    heap w !! l1 = Some e1 -> heap w !! l2 = Some e2 ->
    CudaSparseHandles.cusparse_handle_ e1 = CudaSparseHandles.cusparse_handle_ e2 ->
    l1 = l2;
  inv_no_destroy : destroys w = 0%nat
}.

(** Entries are only ever added. *)
Definition grows (w w' : world) : Prop :=
  cm w ⊆ cm w' /\ heap w ⊆ heap w'.

(** What one acquisition does, in a world satisfying the invariant. *)
Inductive acquire_result (s : N) (w : world)
    : Status * CudaSparse.t -> world -> Prop :=
| acquire_cached l :
    cm w !! s = Some l ->
    acquire_result s w (OK, CudaSparse.mk true s (Some l)) w
| acquire_inserted :
    cm w !! s = None ->
    is_success (next_status w) = true ->
    is_success (second_status w) = true ->
    acquire_result s w (OK, CudaSparse.mk true s (Some (next_loc w + 2)))
                   (miss_inserted s w)
| acquire_bind_failed :
    cm w !! s = None ->
    is_success (next_status w) = true ->
    is_success (second_status w) = false ->
    acquire_result s w (Internal (second_status w), CudaSparse_ctor s)
                   (miss_bind_failed s w)
| acquire_create_failed :
    cm w !! s = None ->
    is_success (next_status w) = false ->
    acquire_result s w (Internal (next_status w), CudaSparse_ctor s)
                   (miss_create_failed s w).

(** The world after stream 5 was acquired once, all native calls succeeding. *)
Definition after_first_acquire : world :=
  world_of (acquire 5 (initial_world false [])).

Definition status_of (c : native_call) : Z :=
  match c with
  | CallCreate _ st | CallSetStream _ _ st | CallDestroy _ st
  | CallXcoo2csr _ st => st
  end.

(** What the shared world looks like at each point of a caller of stream
    [s]: outside the critical section nothing is known but, once returned with
    success, that the caller refers to the entry of [s]; inside, the world is the
    one the thread itself built from a world satisfying the cache invariant. *)
Definition pc_world (s : N) (t : thread) (w : world) : Prop :=
  match t_pc t with
  | AtEntry | AtLock | Done (Internal _) => True
  | AtFind => cache_inv w
  | AtCreate => cache_inv w /\ cm w !! s = None
  | AtInsert nh =>
      exists wb, cache_inv wb /\ cm wb !! s = None /\ nh = next_loc wb
                 /\ w = initialized nh (new_entry s) (announced s wb)
  | AtFail nh code =>
      exists wb, cache_inv wb /\ cm wb !! s = None /\ nh = next_loc wb
                 /\ (w = bound nh (new_entry s) (announced s wb)
                     \/ w = create_failed nh (new_entry s) (announced s wb))
  | AtFinish node => cache_inv w /\ cm w !! s = Some node
  | Done OK =>
      exists l, t_this t = CudaSparse.mk true s (Some l) /\ cm w !! s = Some l
  end.

Record thread_ok (s : N) (w : world) (mutex : option nat) (i : nat)
    (t : thread) : Prop := {
  tok_stream : CudaSparse.cuda_stream_ (t_this t) = s;
  tok_mutex : in_critical (t_pc t) = true <-> mutex = Some i;
  tok_world : pc_world s t w
}.

(** At most one live initialized entry is bound to any one stream. *)
Definition entries_unique (w : world) : Prop :=
  forall l1 l2 e1 e2,
    heap w !! l1 = Some e1 -> heap w !! l2 = Some e2 ->
    CudaSparseHandles.initialized_ e1 = true ->
    CudaSparseHandles.initialized_ e2 = true ->
    CudaSparseHandles.stream_ e1 = CudaSparseHandles.stream_ e2 ->
    l1 = l2.

(** The invariant of the callers of stream [s] started in world [w0]. *)
Record conc_inv (w0 : world) (s : N) (c : config) : Prop := {
  ci_alive : crashed c = false;
  ci_threads : forall i t, threads c !! i = Some t ->
    thread_ok s (shared c) (handle_map_mutex c) i t;
  ci_holder : forall i, handle_map_mutex c = Some i -> is_Some (threads c !! i);
  ci_idle : handle_map_mutex c = None -> cache_inv (shared c);
  ci_grown : cm w0 ⊆ cm (shared c);
  ci_unique : entries_unique (shared c);
  ci_creates :
    creates (shared c)
    = (creates w0 + total_pending (threads c) + newly_cached s w0 (shared c))%nat
}.

(** How a move of thread [i] may change mutex and world. *)
Definition transition (i : nat) (w : world) (m : option nat)
    (w' : world) (m' : option nat) : Prop :=
  (m' = m /\ w' = w)
  \/ (m = None /\ m' = Some i /\ w' = w)
  \/ (m = Some i /\ (m' = Some i \/ m' = None) /\ cm w ⊆ cm w').

(** One move of the only thread, by the lemma [L] on [run] and the outcome [E]
    of the part the thread runs. *)
Ltac solo_step L E :=
  erewrite L;
  [| reflexivity | reflexivity
   | unfold local_step; cbn [t_pc t_this shared handle_map_mutex];
     unfold continue; rewrite E; reflexivity].

(** ** Sessions: acquisitions interleaved with uses *)

(** What a process does with the cache, one call at a time: it initialises a
    fresh [CudaSparse] for some stream, or runs [CudaSparse::Coo2csr] on some
    [CudaSparse] object.  [later w w'] holds when calls of these two kinds, each
    of which returned, lead from [w] to [w']. *)
Inductive later (w : world) : world -> Prop :=
| later_refl : later w w
| later_acquire w1 s r w2 :
    later w w1 -> acquire s w1 = Returns r w2 -> later w w2
| later_use w1 obj st w2 :
    later w w1 -> CudaSparse_Coo2csr obj w1 = Returns st w2 -> later w w2.

(** The worlds of a process that started with an empty cache. *)
Definition session (w : world) : Prop :=
  exists nd sc, later (initial_world nd sc) w.

(** The world after one [cusparseXcoo2csr] on handle [h]. *)
Definition converted (h : N) (w : world) : world :=
  native_step (CallXcoo2csr h (next_status w)) w.

(** The status a wrapper builds from the native status. *)
Definition status_from (st : Z) : Status :=
  if is_success st then OK else Internal st.

(** Native calls by the library context they are about. *)
Definition creates_handle (h : N) (c : native_call) : bool :=
  match c with CallCreate (Some h') _ => bool_decide (h' = h) | _ => false end.
Definition binds_handle (h : N) (c : native_call) : bool :=
  match c with CallSetStream h' _ _ => bool_decide (h' = h) | _ => false end.

Definition count (f : native_call -> bool) (w : world) : nat :=
  length (List.filter f (calls w)).

(** What the trace of native calls looks like between two calls of a
    session. *)
Record trace_inv (w : world) : Prop := {
  tr_counts : forall h,
    count (creates_handle h) w
      = (if bool_decide (h < next_handle w) then 1%nat else 0%nat)
    /\ count (binds_handle h) w
      = (if bool_decide (h < next_handle w) then 1%nat else 0%nat);
  tr_create : forall h st, CallCreate (Some h) st ∈ calls w ->
    h < next_handle w /\ st = CUSPARSE_STATUS_SUCCESS;
  tr_bind : forall h s st, CallSetStream h s st ∈ calls w ->
    h < next_handle w;
  tr_once : forall h s1 st1 s2 st2,
    CallSetStream h s1 st1 ∈ calls w -> CallSetStream h s2 st2 ∈ calls w ->
    s1 = s2 /\ st1 = st2;
  tr_node : forall s l h,
    cm w !! s = Some l ->
    heap w !! l = Some (CudaSparseHandles.mk true s (Some h)) ->
    CallSetStream h s CUSPARSE_STATUS_SUCCESS ∈ calls w;
  tr_use : forall h st, CallXcoo2csr h st ∈ calls w ->
    exists s l, cm w !! s = Some l
      /\ heap w !! l = Some (CudaSparseHandles.mk true s (Some h))
}.

Definition is_ok (r : Status * CudaSparse.t) : bool :=
  match fst r with OK => true | Internal _ => false end.

(** Acquisitions of a history that returned an error. *)
Definition errors (rs : list (Status * CudaSparse.t)) : nat :=
  length (List.filter (fun r => negb (is_ok r)) rs).

(** Calls only ever extend the trace. *)
Definition extends (w w' : world) : Prop :=
  exists ext, calls w' = calls w ++ ext.

(** What a sequence of calls preserves and how it changes the world. *)
Record step_ok (w w' : world) : Prop := {
  so_inv : cache_inv w';
  so_trace : trace_inv w';
  so_grows : grows w w';
  so_extends : extends w w';
  so_build : ndebug w' = ndebug w
}.

(** Case analysis on the membership of a call in an extended trace. *)
Ltac elems :=
  repeat match goal with
  | H : _ ∈ _ ++ _ |- _ => apply elem_of_app in H; destruct H as [H | H]
  | H : _ ∈ _ :: _ |- _ => apply elem_of_cons in H; destruct H as [H | H]
  | H : _ ∈ [] |- _ => apply elem_of_nil in H; destruct H
  end;
  simplify_eq.

(** ** The class invariant of [CudaSparseHandles] *)

(** Every live object satisfies [entry_valid], and the allocator is ahead of
    all of them. *)
Definition store_ok (w : world) : Prop :=
  heap_fresh w
  /\ forall l e, heap w !! l = Some e -> entry_valid e.



(** ** Concurrent callers for arbitrary streams *)

(** A caller of stream [s] that has not taken the mutex yet. *)
Definition idle (s : N) (t : thread) : Prop :=
  (t_pc t = AtEntry \/ t_pc t = AtLock) /\ t_this t = CudaSparse_ctor s.

(** A caller of stream [s] between taking and releasing the mutex: [w] is the
    shared world, [wb] the world in which it took the mutex. *)
Definition section_state (s : N) (t : thread) (wb w : world) : Prop :=
  t_this t = CudaSparse_ctor s
  /\ match t_pc t with
     | AtFind => w = wb
     | AtCreate => w = wb /\ cm wb !! s = None
     | AtInsert nh =>
         cm wb !! s = None /\ nh = next_loc wb
         /\ is_success (next_status wb) = true
         /\ is_success (second_status wb) = true
         /\ w = initialized nh (new_entry s) (announced s wb)
     | AtFail nh code =>
         cm wb !! s = None /\ nh = next_loc wb
         /\ ((is_success (next_status wb) = true
              /\ is_success (second_status wb) = false
              /\ code = second_status wb
              /\ w = bound nh (new_entry s) (announced s wb))
             \/ (is_success (next_status wb) = false
                 /\ code = next_status wb
                 /\ w = create_failed nh (new_entry s) (announced s wb)))
     | AtFinish node =>
         acquire s wb = Returns (OK, CudaSparse.mk true s (Some node)) w
     | AtEntry | AtLock | Done _ => False
     end.

(** The callers that have returned, in the order [order] in which they took
    the mutex, did what the acquisitions [ss] do one after the other from [w0]:
    these return [rs] and lead to [wb]. *)
Record lin_inv (streams : list N) (w0 : world) (c : config)
    (order : list nat) (ss : list N) (rs : list (Status * CudaSparse.t))
    (wb : world) : Prop := {
  li_alive : crashed c = false;
  li_length : length (threads c) = length streams;
  li_base : cache_inv wb;
  li_nodup : NoDup order;
  li_streams : Forall2 (fun i s => streams !! i = Some s) order ss;
  li_history : acquires ss w0 = Returns rs wb;
  li_done : Forall2 (fun i r => threads c !! i
                                = Some (Thread (Done (fst r)) (snd r)))
                    order rs;
  li_holder : forall i, handle_map_mutex c = Some i ->
    (i ∉ order)
    /\ exists t s, threads c !! i = Some t /\ streams !! i = Some s
                   /\ section_state s t wb (shared c);
  li_idle : forall i t, threads c !! i = Some t ->
    i ∉ order -> handle_map_mutex c <> Some i ->
    exists s, streams !! i = Some s /\ idle s t;
  li_free : handle_map_mutex c = None -> shared c = wb
}.

(** * Properties *)

Lemma is_success_spec st : is_success st = true <-> st = CUSPARSE_STATUS_SUCCESS.
Proof. unfold is_success. apply Z.eqb_eq. Qed.

Lemma is_success_false st : is_success st = false <-> st <> CUSPARSE_STATUS_SUCCESS.
Proof. unfold is_success. apply Z.eqb_neq. Qed.

Lemma filter_snoc {A} (f : A -> bool) (l : list A) (x : A) :
  List.filter f (l ++ [x]) = List.filter f l ++ (if f x then [x] else []).
Proof. rewrite List.filter_app. simpl. destruct (f x); reflexivity. Qed.

(** ** Methods of [CudaSparseHandles] *)

Lemma Release_uninitialized w this e :
  heap w !! this = Some e ->
  CudaSparseHandles.initialized_ e = false ->
  CudaSparseHandles_Release this w = Returns tt w.
Proof. intros H Hi. munfold. rewrite H, Hi. reflexivity. Qed.

Lemma Release_initialized w this e h :
  heap w !! this = Some e ->
  CudaSparseHandles.initialized_ e = true ->
  CudaSparseHandles.cusparse_handle_ e = Some h ->
  CudaSparseHandles_Release this w =
    if ndebug w || is_success (next_status w)
    then Returns tt (released this e h w)
    else Fatal (destroyed h w).
Proof.
  intros H Hi Hh. munfold. rewrite H, Hi, Hh. simpl.
  destruct (ndebug w); simpl.
  - rewrite H. reflexivity.
  - destruct (is_success (next_status w)); simpl; [rewrite H|]; reflexivity.
Qed.

Lemma dtor_uninitialized w this e :
  heap w !! this = Some e ->
  CudaSparseHandles.initialized_ e = false ->
  CudaSparseHandles_dtor this w = Returns tt (set_heap (delete this) w).
Proof.
  intros H Hi. unfold CudaSparseHandles_dtor, mbind, M_bind, bind.
  rewrite (Release_uninitialized _ _ _ H Hi). unfold free. rewrite H.
  reflexivity.
Qed.

Lemma dtor_initialized w this e h :
  heap w !! this = Some e ->
  CudaSparseHandles.initialized_ e = true ->
  CudaSparseHandles.cusparse_handle_ e = Some h ->
  CudaSparseHandles_dtor this w =
    if ndebug w || is_success (next_status w)
    then Returns tt (set_heap (delete this) (released this e h w))
    else Fatal (destroyed h w).
Proof.
  intros H Hi Hh. unfold CudaSparseHandles_dtor, mbind, M_bind, bind.
  rewrite (Release_initialized _ _ _ _ H Hi Hh).
  destruct (ndebug w || is_success (next_status w)); [|reflexivity].
  unfold free, released. simpl. rewrite lookup_insert_eq. reflexivity.
Qed.

Lemma destroys_destroyed h w : destroys (destroyed h w) = S (destroys w).
Proof.
  unfold destroys, destroyed. simpl. rewrite filter_snoc. simpl.
  rewrite length_app. simpl. lia.
Qed.

Lemma entry_eta (r : CudaSparseHandles.t) :
  CudaSparseHandles.mk (CudaSparseHandles.initialized_ r)
    (CudaSparseHandles.stream_ r) (CudaSparseHandles.cusparse_handle_ r) = r.
Proof. destruct r; reflexivity. Qed.

Lemma move_ctor_spec w rhs r :
  heap w !! rhs = Some r ->
  rhs <> next_loc w ->
  CudaSparseHandles_move_ctor rhs w = Returns (next_loc w) (moved_to rhs r w).
Proof.
  intros H Hne. munfold. rewrite H. simpl. rewrite entry_eta.
  rewrite lookup_insert_ne by congruence. rewrite H. reflexivity.
Qed.

Lemma move_assign_self w this :
  CudaSparseHandles_move_assign this this w = Returns tt w.
Proof.
  unfold CudaSparseHandles_move_assign. rewrite decide_True by reflexivity.
  reflexivity.
Qed.

Lemma move_assign_uninitialized w this rhs t r :
  this <> rhs ->
  heap w !! this = Some t ->
  heap w !! rhs = Some r ->
  CudaSparseHandles.initialized_ t = false ->
  CudaSparseHandles_move_assign this rhs w = Returns tt (assigned this rhs r w).
Proof.
  intros Hne Ht Hr Hi. unfold CudaSparseHandles_move_assign.
  rewrite decide_False by assumption. unfold mbind, M_bind, bind.
  rewrite (Release_uninitialized _ _ _ Ht Hi).
  unfold load, store, ret. rewrite Hr, entry_eta. simpl. rewrite Ht. simpl.
  rewrite lookup_insert_ne by assumption. rewrite Hr. reflexivity.
Qed.

Lemma move_assign_initialized w this rhs t r h :
  this <> rhs ->
  heap w !! this = Some t ->
  heap w !! rhs = Some r ->
  CudaSparseHandles.initialized_ t = true ->
  CudaSparseHandles.cusparse_handle_ t = Some h ->
  CudaSparseHandles_move_assign this rhs w =
    if ndebug w || is_success (next_status w)
    then Returns tt (assigned this rhs r (destroyed h w))
    else Fatal (destroyed h w).
Proof.
  intros Hne Ht Hr Hi Hh. unfold CudaSparseHandles_move_assign.
  rewrite decide_False by assumption. unfold mbind, M_bind, bind.
  rewrite (Release_initialized _ _ _ _ Ht Hi Hh).
  destruct (ndebug w || is_success (next_status w)); [|reflexivity].
  unfold load, store, ret, released. simpl.
  rewrite lookup_insert_ne by assumption. rewrite Hr. simpl.
  rewrite lookup_insert_eq, entry_eta. simpl.
  rewrite lookup_insert_ne by assumption.
  rewrite lookup_insert_ne by assumption. rewrite Hr.
  unfold assigned, set_heap. simpl. rewrite insert_insert_eq. reflexivity.
Qed.

Lemma Initialize_initialized w this e :
  heap w !! this = Some e ->
  CudaSparseHandles.initialized_ e = true ->
  CudaSparseHandles_Initialize this w = Returns OK w.
Proof. intros H Hi. munfold. rewrite H, Hi. reflexivity. Qed.

Lemma Initialize_uninitialized w this e :
  heap w !! this = Some e ->
  CudaSparseHandles.initialized_ e = false ->
  CudaSparseHandles_Initialize this w =
    if is_success (next_status w) then
      if is_success (next_status (created this e w))
      then Returns OK (initialized this e w)
      else Returns (Internal (next_status (created this e w))) (bound this e w)
    else Returns (Internal (next_status w)) (create_failed this e w).
Proof.
  intros H Hi. munfold. rewrite H, Hi.
  destruct (is_success (next_status w)) eqn:E1; simpl.
  - rewrite H. simpl. rewrite E1. simpl.
    change (set_heap _ (fresh_handle (native_step (CallCreate _ _) w)))
      with (created this e w).
    destruct (is_success (next_status (created this e w))) eqn:E2; simpl.
    + rewrite lookup_insert_eq. unfold initialized, bound, created, set_heap.
      simpl. rewrite !insert_insert_eq. reflexivity.
    + reflexivity.
  - rewrite H. simpl. rewrite E1. reflexivity.
Qed.

Lemma handle_spec w this e :
  heap w !! this = Some e ->
  CudaSparseHandles_handle this w =
    if ndebug w || CudaSparseHandles.initialized_ e
    then Returns this w else Fatal w.
Proof.
  intros H. munfold. rewrite H.
  destruct (ndebug w), (CudaSparseHandles.initialized_ e); reflexivity.
Qed.

(** ** Claims about a single Handle Entry *)

(** C6. Destroying a Handle Entry calls the native destroy exactly when the
    entry is initialized, once, on the handle the entry owns; an entry that
    [Release] has gone through is marked uninitialized, so that releasing it
    again calls nothing. *)
Theorem destroy_iff_initialized_once
    (w : world) (this : N) (e : CudaSparseHandles.t) :
  heap w !! this = Some e ->
  entry_valid e ->
  let o := CudaSparseHandles_dtor this w in
  destroys (world_of o)
    = (destroys w + (if CudaSparseHandles.initialized_ e then 1 else 0))%nat
  /\ (forall h, CudaSparseHandles.initialized_ e = true ->
        CudaSparseHandles.cusparse_handle_ e = Some h ->
        calls (world_of o) = calls w ++ [CallDestroy h (next_status w)])
  /\ (CudaSparseHandles.initialized_ e = false -> calls (world_of o) = calls w)
  /\ (ndebug w || is_success (next_status w)
        || negb (CudaSparseHandles.initialized_ e) = true ->
      exists w1 w2,
        CudaSparseHandles_Release this w = Returns tt w1
        /\ heap w1 !! this = Some (CudaSparseHandles.set_initialized false e)
        /\ CudaSparseHandles_Release this w1 = Returns tt w1
        /\ o = Returns tt w2 /\ heap w2 !! this = None).
Proof.
  intros H Hv o. subst o.
  destruct (CudaSparseHandles.initialized_ e) eqn:Hi.
  - destruct (Hv Hi) as [h Hh].
    rewrite (dtor_initialized _ _ _ _ H Hi Hh).
    rewrite (Release_initialized _ _ _ _ H Hi Hh).
    assert (Hc : forall b : bool,
      calls (world_of (if b
        then Returns tt (set_heap (delete this) (released this e h w))
        else @Fatal unit (destroyed h w)))
      = calls w ++ [CallDestroy h (next_status w)])
      by (intros []; reflexivity).
    assert (Hd : forall b : bool,
      destroys (world_of (if b
        then Returns tt (set_heap (delete this) (released this e h w))
        else @Fatal unit (destroyed h w)))
      = S (destroys w))
      by (intros []; apply (destroys_destroyed h w)).
    repeat split.
    + rewrite Hd. lia.
    + intros h' _ Hh'. rewrite Hc. congruence.
    + discriminate.
    + intros Hok. rewrite orb_false_r in Hok. rewrite Hok.
      exists (released this e h w), (set_heap (delete this) (released this e h w)).
      repeat split.
      * unfold released. simpl. apply lookup_insert_eq.
      * apply Release_uninitialized with
          (e := CudaSparseHandles.set_initialized false e); [|reflexivity].
        unfold released. simpl. apply lookup_insert_eq.
      * simpl. apply lookup_delete_eq.
  - rewrite (dtor_uninitialized _ _ _ H Hi).
    rewrite (Release_uninitialized _ _ _ H Hi).
    repeat split.
    + simpl. unfold destroys. simpl. lia.
    + discriminate.
    + intros _. exists w, (set_heap (delete this) w). repeat split.
      * rewrite H. destruct e; simpl in *; subst; reflexivity.
      * apply (Release_uninitialized _ _ _ H Hi).
      * simpl. apply lookup_delete_eq.
Qed.

Lemma destroy_iff_initialized_once_witness :
  destroys (world_of (CudaSparseHandles_dtor 0 (two_entries false []))) = 1%nat
  /\ destroys (world_of (CudaSparseHandles_dtor 1 (two_entries false []))) = 0%nat.
Proof.
  split.
  - refine (proj1 (destroy_iff_initialized_once (two_entries false []) 0
             (CudaSparseHandles.mk true 8 (Some 4)) _ _)).
    + vm_compute. reflexivity.
    + intros _. exists 4. reflexivity.
  - refine (proj1 (destroy_iff_initialized_once (two_entries false []) 1
             (CudaSparseHandles.mk false 9 None) _ _)).
    + vm_compute. reflexivity.
    + intros Hf. discriminate Hf.
Defined.

(** C8, as the code has it.  When the native destroy issued by the destructor
    of an initialized entry fails, a build with [DCHECK] active aborts right
    after the call; a build with [NDEBUG] has no check, ignores the status, marks
    the entry uninitialized and completes the destruction.  In neither build does
    the destructor hand a status back: it returns nothing. *)
Theorem destroy_failure_fatal_only_when_checked
    (w : world) (this : N) (e : CudaSparseHandles.t) (h : N) :
  heap w !! this = Some e ->
  CudaSparseHandles.initialized_ e = true ->
  CudaSparseHandles.cusparse_handle_ e = Some h ->
  next_status w <> CUSPARSE_STATUS_SUCCESS ->
  CudaSparseHandles_dtor this w =
    (if ndebug w
     then Returns tt (set_heap (delete this) (released this e h w))
     else Fatal (destroyed h w))
  /\ calls (destroyed h w) = calls w ++ [CallDestroy h (next_status w)].
Proof.
  intros H Hi Hh Hst. split; [|reflexivity].
  rewrite (dtor_initialized _ _ _ _ H Hi Hh).
  apply is_success_false in Hst. rewrite Hst, orb_false_r. reflexivity.
Qed.

Lemma destroy_failure_fatal_only_when_checked_witness :
  CudaSparseHandles_dtor 0 (two_entries false [7%Z])
    = Fatal (destroyed 4 (two_entries false [7%Z])).
Proof.
  refine (proj1 (destroy_failure_fatal_only_when_checked
                   (two_entries false [7%Z]) 0
                   (CudaSparseHandles.mk true 8 (Some 4)) 4 _ _ _ _)).
  - vm_compute. reflexivity.
  - reflexivity.
  - reflexivity.
  - vm_compute. discriminate.
Defined.

(** C8 as stated fails: with [NDEBUG] a failing native destroy (status 7) is
    not fatal, the destructor returns normally. *)
Lemma destroy_failure_ignored_under_NDEBUG :
  next_status (two_entries true [7%Z]) = 7%Z
  /\ CudaSparseHandles_dtor 0 (two_entries true [7%Z])
     = Returns tt
         (World true [] 5 [CallDestroy 4 7]
            (<[1 := CudaSparseHandles.mk false 9 None]> ∅) 2 ∅ []).
Proof. split; vm_compute; reflexivity. Qed.

(** C7, as the code has it.  [handle()] and the wrapped native operations
    start with [DCHECK(initialized_)].  In a build with [DCHECK] active, use of
    an uninitialized entry or of an uninitialized [CudaSparse] aborts before
    any native call, and no error status is produced; with [NDEBUG] the check
    is absent, [handle()] returns the reference all the same and the wrapper goes
    on to read through its pointer.  On an initialized object the operations
    run. *)
Theorem uninitialized_use_checked_by_DCHECK
    (w : world) (this : N) (e : CudaSparseHandles.t) (obj : CudaSparse.t) :
  heap w !! this = Some e ->
  CudaSparseHandles_handle this w =
    (if ndebug w || CudaSparseHandles.initialized_ e
     then Returns this w else Fatal w)
  /\ (CudaSparse.initialized_ obj = false -> ndebug w = false ->
      CudaSparse_Coo2csr obj w = Fatal w)
  /\ (CudaSparse.cusparse_handle_ obj = None -> ndebug w = true ->
      CudaSparse_Coo2csr obj w = Undefined w)
  /\ (forall h,
        CudaSparse.initialized_ obj = true ->
        CudaSparse.cusparse_handle_ obj = Some this ->
        CudaSparseHandles.cusparse_handle_ e = Some h ->
        CudaSparse_Coo2csr obj w =
          Returns (if is_success (next_status w) then OK
                   else Internal (next_status w))
                  (native_step (CallXcoo2csr h (next_status w)) w)).
Proof.
  intros H. split; [apply (handle_spec _ _ _ H)|].
  unfold CudaSparse_Coo2csr. munfold. repeat split.
  - intros Hi Hn. rewrite Hn, Hi. reflexivity.
  - intros Hp Hn. rewrite Hn, Hp. reflexivity.
  - intros h Hi Hp Hh. rewrite Hi, Hp. simpl.
    destruct (ndebug w); rewrite H, Hh; simpl;
      destruct (is_success (next_status w)); reflexivity.
Qed.

Lemma uninitialized_use_checked_by_DCHECK_witness :
  CudaSparseHandles_handle 1 (two_entries false [])
    = Fatal (two_entries false [])
  /\ CudaSparse_Coo2csr (CudaSparse_ctor 8) (two_entries false [])
    = Fatal (two_entries false []).
Proof.
  pose proof (uninitialized_use_checked_by_DCHECK (two_entries false []) 1
                (CudaSparseHandles.mk false 9 None) (CudaSparse_ctor 8)
                eq_refl) as [Hh [Hc _]].
  split; [exact Hh | exact (Hc eq_refl eq_refl)].
Defined.

(** C7 as stated fails: with [NDEBUG], [handle()] on a never-initialized
    entry is not stopped by any check and returns its reference. *)
Lemma uninitialized_handle_unchecked_under_NDEBUG :
  heap (two_entries true []) !! 1 = Some (CudaSparseHandles.mk false 9 None)
  /\ CudaSparseHandles_handle 1 (two_entries true [])
     = Returns 1 (two_entries true []).
Proof. split; vm_compute; reflexivity. Qed.

Lemma fresh_ne w l (e : CudaSparseHandles.t) :
  heap_fresh w -> heap w !! l = Some e -> l <> next_loc w.
Proof.
  intros Hf H Heq. subst l. rewrite Hf in H by lia. discriminate.
Qed.

(** C5, as the code has it.  Move construction makes no native call: the new
    entry takes over the state of the source and the source is left
    uninitialized, so that its destructor calls nothing.  Move assignment from
    another entry first releases what the destination owns (one native destroy,
    of the destination's own handle, exactly when the destination was
    initialized); it makes no creation call and no call on the handle that
    changes owner; afterwards the destination holds the state of the source and
    the source is uninitialized, its destructor calling nothing.  Assigning an
    entry to itself changes nothing at all. *)
Theorem move_transfers_ownership
    (w : world) (this rhs : N) (t r : CudaSparseHandles.t) :
  heap_fresh w ->
  heap w !! this = Some t ->
  heap w !! rhs = Some r ->
  this <> rhs ->
  entry_valid t ->
  (exists w1,
      CudaSparseHandles_move_ctor rhs w = Returns (next_loc w) w1
      /\ calls w1 = calls w
      /\ heap w1 !! next_loc w = Some r
      /\ heap w1 !! rhs = Some (CudaSparseHandles.set_initialized false r)
      /\ calls (world_of (CudaSparseHandles_dtor rhs w1)) = calls w1)
  /\ (let o := CudaSparseHandles_move_assign this rhs w in
      creates (world_of o) = creates w
      /\ destroys (world_of o)
         = (destroys w
            + (if CudaSparseHandles.initialized_ t then 1 else 0))%nat
      /\ (CudaSparseHandles.initialized_ t = false ->
          calls (world_of o) = calls w)
      /\ (forall h, CudaSparseHandles.initialized_ t = true ->
            CudaSparseHandles.cusparse_handle_ t = Some h ->
            calls (world_of o) = calls w ++ [CallDestroy h (next_status w)])
      /\ (ndebug w || is_success (next_status w)
            || negb (CudaSparseHandles.initialized_ t) = true ->
          exists w2,
            o = Returns tt w2
            /\ heap w2 !! this = Some r
            /\ heap w2 !! rhs = Some (CudaSparseHandles.set_initialized false r)
            /\ calls (world_of (CudaSparseHandles_dtor rhs w2)) = calls w2))
  /\ CudaSparseHandles_move_assign this this w = Returns tt w.
Proof.
  intros Hf Ht Hr Hne Hv. split; [|split; [|apply move_assign_self]].
  - exists (moved_to rhs r w).
    rewrite (move_ctor_spec _ _ _ Hr (fresh_ne _ _ _ Hf Hr)).
    assert (Hrhs : heap (moved_to rhs r w) !! rhs
                   = Some (CudaSparseHandles.set_initialized false r))
      by (simpl; apply lookup_insert_eq).
    repeat split; try assumption.
    + simpl. rewrite lookup_insert_ne by (apply (fresh_ne _ _ _ Hf Hr)).
      apply lookup_insert_eq.
    + rewrite (dtor_uninitialized _ _ _ Hrhs eq_refl). reflexivity.
  - intros o. subst o.
    assert (Hsrc : forall w0, heap (assigned this rhs r w0) !! rhs
                   = Some (CudaSparseHandles.set_initialized false r))
      by (intros; simpl; apply lookup_insert_eq).
    assert (Hdst : forall w0, heap (assigned this rhs r w0) !! this = Some r).
    { intros. simpl. rewrite lookup_insert_ne by congruence.
      apply lookup_insert_eq. }
    destruct (CudaSparseHandles.initialized_ t) eqn:Hi.
    + destruct (Hv Hi) as [h Hh].
      rewrite (move_assign_initialized _ _ _ _ _ _ Hne Ht Hr Hi Hh).
      assert (Hc : forall b : bool,
        calls (world_of (if b
          then Returns tt (assigned this rhs r (destroyed h w))
          else @Fatal unit (destroyed h w)))
        = calls w ++ [CallDestroy h (next_status w)])
        by (intros []; reflexivity).
      repeat split.
      * unfold creates. rewrite Hc, filter_snoc. simpl.
        rewrite app_nil_r. reflexivity.
      * unfold destroys. rewrite Hc, filter_snoc. simpl.
        rewrite length_app. simpl. reflexivity.
      * discriminate.
      * intros h' _ Hh'. rewrite Hc. congruence.
      * intros Hok. rewrite orb_false_r in Hok. rewrite Hok.
        exists (assigned this rhs r (destroyed h w)).
        repeat split; auto.
        rewrite (dtor_uninitialized _ _ _ (Hsrc _) eq_refl). reflexivity.
    + rewrite (move_assign_uninitialized _ _ _ _ _ Hne Ht Hr Hi).
      repeat split.
      * unfold destroys. simpl. lia.
      * discriminate.
      * intros _. exists (assigned this rhs r w). repeat split; auto.
        rewrite (dtor_uninitialized _ _ _ (Hsrc _) eq_refl). reflexivity.
Qed.

Lemma store_of_fresh nd sc a b : heap_fresh (store_of nd sc a b).
Proof.
  intros l Hl. simpl in *. rewrite !lookup_insert_ne by lia.
  apply lookup_empty.
Qed.

Lemma move_transfers_ownership_witness :
  creates (world_of (CudaSparseHandles_move_assign 1 0 (two_entries false [])))
    = creates (two_entries false [])
  /\ CudaSparseHandles_move_assign 1 1 (two_entries false [])
     = Returns tt (two_entries false []).
Proof.
  pose proof (move_transfers_ownership (two_entries false []) 1 0
                (CudaSparseHandles.mk false 9 None)
                (CudaSparseHandles.mk true 8 (Some 4))
                (store_of_fresh _ _ _ _) eq_refl eq_refl) as H.
  destruct H as [_ [[Hc _] Hs]].
  - lia.
  - intros Hf. discriminate Hf.
  - split; [exact Hc | exact Hs].
Defined.

(** C5 as stated fails: move assignment onto an initialized entry makes a
    native teardown call, the destroy of the handle the destination owned. *)
Lemma move_assign_destroys_destination_handle :
  calls (store_of false []
           (CudaSparseHandles.mk true 8 (Some 4))
           (CudaSparseHandles.mk true 9 (Some 3))) = []
  /\ CudaSparseHandles_move_assign 0 1
       (store_of false []
          (CudaSparseHandles.mk true 8 (Some 4))
          (CudaSparseHandles.mk true 9 (Some 3)))
     = Returns tt
         (World false [] 5 [CallDestroy 4 0]
            (<[0 := CudaSparseHandles.mk true 9 (Some 3)]>
               (<[1 := CudaSparseHandles.mk false 9 (Some 3)]> ∅))
            2 ∅ []).
Proof. split; vm_compute; reflexivity. Qed.

(** C10. When [cusparseCreate] succeeds and [cusparseSetStream] then fails,
    [Initialize] reports the failure, the entry holds the created handle but
    stays uninitialized, and destroying the entry makes no native call: the
    created handle is not passed to [cusparseDestroy]. *)
Theorem bind_failure_releases_nothing
    (w : world) (this : N) (e : CudaSparseHandles.t) (st2 : Z) (rest : list Z) :
  heap w !! this = Some e ->
  CudaSparseHandles.initialized_ e = false ->
  script w = CUSPARSE_STATUS_SUCCESS :: st2 :: rest ->
  st2 <> CUSPARSE_STATUS_SUCCESS ->
  let w1 := bound this e w in
  CudaSparseHandles_Initialize this w = Returns (Internal st2) w1
  /\ calls w1 = calls w ++
       [CallCreate (Some (next_handle w)) CUSPARSE_STATUS_SUCCESS;
        CallSetStream (next_handle w) (CudaSparseHandles.stream_ e) st2]
  /\ heap w1 !! this
     = Some (CudaSparseHandles.mk false (CudaSparseHandles.stream_ e)
                                  (Some (next_handle w)))
  /\ CudaSparseHandles_Release this w1 = Returns tt w1
  /\ CudaSparseHandles_dtor this w1 = Returns tt (set_heap (delete this) w1)
  /\ destroys (set_heap (delete this) w1) = destroys w.
Proof.
  intros H Hi Hs Hst w1.
  assert (E1 : next_status w = CUSPARSE_STATUS_SUCCESS)
    by (unfold next_status; rewrite Hs; reflexivity).
  assert (E2 : next_status (created this e w) = st2)
    by (unfold next_status; simpl; rewrite Hs; reflexivity).
  assert (Hh : heap w1 !! this
     = Some (CudaSparseHandles.mk false (CudaSparseHandles.stream_ e)
                                  (Some (next_handle w)))).
  { subst w1. simpl. rewrite lookup_insert_eq.
    unfold CudaSparseHandles.set_handle. rewrite Hi. reflexivity. }
  repeat split.
  - rewrite (Initialize_uninitialized _ _ _ H Hi), E1. simpl.
    rewrite E2. apply is_success_false in Hst. rewrite Hst. reflexivity.
  - subst w1. unfold bound. rewrite E2. simpl. rewrite E1, <- app_assoc.
    reflexivity.
  - exact Hh.
  - apply (Release_uninitialized _ _ _ Hh eq_refl).
  - apply (dtor_uninitialized _ _ _ Hh eq_refl).
  - subst w1. unfold destroys. simpl. rewrite !filter_snoc. simpl.
    rewrite !app_nil_r. reflexivity.
Qed.

Lemma bind_failure_releases_nothing_witness :
  CudaSparseHandles_Initialize 1 (two_entries false [0%Z; 3%Z])
    = Returns (Internal 3)
        (bound 1 (CudaSparseHandles.mk false 9 None)
           (two_entries false [0%Z; 3%Z])).
Proof.
  refine (proj1 (bind_failure_releases_nothing (two_entries false [0%Z; 3%Z]) 1
                   (CudaSparseHandles.mk false 9 None) 3 [] _ _ _ _)).
  - vm_compute. reflexivity.
  - reflexivity.
  - reflexivity.
  - discriminate.
Defined.

(** ** The cache: [CudaSparse::Initialize] *)

Lemma bind_Returns {A B} (m : M A) (k : A -> M B) w a w' :
  m w = Returns a w' -> (m ≫= k) w = k a w'.
Proof. intros H. unfold mbind, M_bind, bind. rewrite H. reflexivity. Qed.

Lemma prologue_spec w : Initialize_prologue w = Returns tt w.
Proof.
  unfold Initialize_prologue, GetHandleMapSingleton. munfold.
  destruct (ndebug w); reflexivity.
Qed.

Lemma finish_spec w this node e :
  heap w !! node = Some e ->
  CudaSparseHandles.initialized_ e = true ->
  Initialize_finish this node w
    = Returns (OK, CudaSparse.mk true (CudaSparse.cuda_stream_ this) (Some node))
              w.
Proof.
  intros H Hi. unfold Initialize_finish.
  erewrite bind_Returns; [reflexivity|].
  rewrite (handle_spec _ _ _ H), Hi, orb_true_r. reflexivity.
Qed.

(** A cached stream: nothing but the lookup happens. *)
Lemma Initialize_hit w this l e :
  cm w !! CudaSparse.cuda_stream_ this = Some l ->
  heap w !! l = Some e ->
  CudaSparseHandles.initialized_ e = true ->
  CudaSparse_Initialize this w
    = Returns (OK, CudaSparse.mk true (CudaSparse.cuda_stream_ this) (Some l)) w.
Proof.
  intros Hc Hl Hi. unfold CudaSparse_Initialize.
  rewrite (bind_Returns _ _ _ _ _ (prologue_spec w)).
  erewrite bind_Returns
    by (unfold Initialize_find, HandleMap_find; rewrite Hc; reflexivity).
  apply (finish_spec _ _ _ _ Hl Hi).
Qed.

Lemma create_spec w this :
  Initialize_create this w =
    (st ← CudaSparseHandles_Initialize (next_loc w); ret (next_loc w, st))
      (announced (CudaSparse.cuda_stream_ this) w).
Proof. reflexivity. Qed.

Lemma announced_lookup s w :
  heap (announced s w) !! next_loc w = Some (new_entry s).
Proof. simpl. apply lookup_insert_eq. Qed.

Lemma next_status_created this e w :
  next_status (created this e w) = second_status w.
Proof. reflexivity. Qed.

Lemma world_eq nd sc nh cl hp hp' nl nl' c lg :
  hp = hp' -> nl = nl' ->
  World nd sc nh cl hp nl c lg = World nd sc nh cl hp' nl' c lg.
Proof. intros -> ->. reflexivity. Qed.

Lemma insert_spec w this :
  let s := CudaSparse.cuda_stream_ this in
  cm w !! s = None ->
  heap_fresh w ->
  Initialize_insert this (next_loc w)
      (initialized (next_loc w) (new_entry s) (announced s w))
    = Returns (next_loc w + 2) (miss_inserted s w).
Proof.
  intros s Hc Hf.
  set (wa := announced s w).
  set (wi := initialized (next_loc w) (new_entry s) wa).
  set (ei := CudaSparseHandles.mk true s (Some (next_handle w))).
  assert (Hi0 : heap wi !! next_loc w = Some ei)
    by (subst wi; simpl; apply lookup_insert_eq).
  unfold Initialize_insert. fold s.
  assert (Hnl : next_loc wi = next_loc w + 1) by reflexivity.
  erewrite bind_Returns
    by (apply (move_ctor_spec _ _ _ Hi0); rewrite Hnl; lia).
  rewrite Hnl.
  set (w1 := moved_to (next_loc w) ei wi).
  assert (Htmp : heap w1 !! (next_loc w + 1) = Some ei).
  { subst w1. simpl. rewrite lookup_insert_ne by lia.
    apply lookup_insert_eq. }
  assert (Hnl1 : next_loc w1 = next_loc w + 1 + 1) by reflexivity.
  assert (Hins : HandleMap_insert s (next_loc w + 1) w1
            = Returns (next_loc w + 1 + 1)
                (set_cm (insert s (next_loc w + 1 + 1))
                        (moved_to (next_loc w + 1) ei w1))).
  { unfold HandleMap_insert.
    erewrite bind_Returns
      by (unfold HandleMap_find; change (cm w1) with (cm w);
          rewrite Hc; reflexivity).
    cbv beta iota.
    erewrite bind_Returns
      by (apply (move_ctor_spec _ _ _ Htmp); rewrite Hnl1; lia).
    rewrite Hnl1. reflexivity. }
  erewrite bind_Returns by exact Hins.
  set (w2 := set_cm _ _).
  assert (Htmp2 : heap w2 !! (next_loc w + 1)
                  = Some (CudaSparseHandles.set_initialized false ei))
    by (subst w2; simpl; apply lookup_insert_eq).
  erewrite bind_Returns by (apply (dtor_uninitialized _ _ _ Htmp2 eq_refl)).
  set (w3 := set_heap _ w2).
  assert (Hloc3 : heap w3 !! next_loc w
                  = Some (CudaSparseHandles.set_initialized false ei)).
  { subst w3 w2 w1. simpl. rewrite lookup_delete_ne by lia.
    rewrite lookup_insert_ne by lia. rewrite lookup_insert_ne by lia.
    apply lookup_insert_eq. }
  erewrite bind_Returns by (apply (dtor_uninitialized _ _ _ Hloc3 eq_refl)).
  unfold mret, M_ret, ret.
  replace (next_loc w + 1 + 1) with (next_loc w + 2) by lia.
  f_equal.
  subst w3 w2 w1 wi wa ei. unfold miss_inserted, set_heap, set_cm. simpl.
  rewrite <- app_assoc. simpl.
  replace (next_loc w + 1 + 1) with (next_loc w + 2) by lia.
  apply world_eq; [|lia].
  heap_eq Hf.
Qed.

Lemma miss_inserted_node s w :
  heap (miss_inserted s w) !! (next_loc w + 2)
    = Some (CudaSparseHandles.mk true s (Some (next_handle w))).
Proof. simpl. apply lookup_insert_eq. Qed.

(** The three outcomes of the block that builds [new_handles]. *)
Lemma create_phase w this :
  Initialize_create this w =
    let s := CudaSparse.cuda_stream_ this in
    let wa := announced s w in
    if is_success (next_status w) then
      if is_success (second_status w)
      then Returns (next_loc w, OK) (initialized (next_loc w) (new_entry s) wa)
      else Returns (next_loc w, Internal (second_status w))
                   (bound (next_loc w) (new_entry s) wa)
    else Returns (next_loc w, Internal (next_status w))
                 (create_failed (next_loc w) (new_entry s) wa).
Proof.
  cbv zeta. rewrite create_spec.
  set (s := CudaSparse.cuda_stream_ this).
  unfold mbind, M_bind, bind.
  rewrite (Initialize_uninitialized _ _ _ (announced_lookup s w) eq_refl).
  change (next_status (announced s w)) with (next_status w).
  rewrite next_status_created.
  change (second_status (announced s w)) with (second_status w).
  destruct (is_success (next_status w));
    [destruct (is_success (second_status w))|]; reflexivity.
Qed.

Lemma fail_phase_bind w s :
  heap_fresh w ->
  Initialize_fail (next_loc w)
      (bound (next_loc w) (new_entry s) (announced s w))
    = Returns tt (miss_bind_failed s w).
Proof.
  intros Hf.
  set (wb := bound (next_loc w) (new_entry s) (announced s w)).
  assert (Hb : heap wb !! next_loc w
               = Some (CudaSparseHandles.mk false s (Some (next_handle w))))
    by (subst wb; simpl; apply lookup_insert_eq).
  unfold Initialize_fail. rewrite (dtor_uninitialized _ _ _ Hb eq_refl).
  f_equal. subst wb. unfold miss_bind_failed, set_heap. simpl.
  rewrite <- app_assoc. simpl. apply world_eq; [|reflexivity].
  heap_eq Hf.
Qed.

Lemma fail_phase_create w s :
  heap_fresh w ->
  Initialize_fail (next_loc w)
      (create_failed (next_loc w) (new_entry s) (announced s w))
    = Returns tt (miss_create_failed s w).
Proof.
  intros Hf.
  set (wc := create_failed (next_loc w) (new_entry s) (announced s w)).
  assert (Hb : heap wc !! next_loc w = Some (new_entry s))
    by (subst wc; simpl; apply lookup_insert_eq).
  unfold Initialize_fail. rewrite (dtor_uninitialized _ _ _ Hb eq_refl).
  f_equal. subst wc. unfold miss_create_failed, set_heap. simpl.
  apply world_eq; [|reflexivity].
  heap_eq Hf.
Qed.

Lemma Initialize_miss w this :
  cm w !! CudaSparse.cuda_stream_ this = None ->
  heap_fresh w ->
  CudaSparse_Initialize this w =
    let s := CudaSparse.cuda_stream_ this in
    if is_success (next_status w) then
      if is_success (second_status w)
      then Returns (OK, CudaSparse.mk true s (Some (next_loc w + 2)))
                   (miss_inserted s w)
      else Returns (Internal (second_status w), this) (miss_bind_failed s w)
    else Returns (Internal (next_status w), this) (miss_create_failed s w).
Proof.
  intros Hc Hf. cbv zeta. unfold CudaSparse_Initialize.
  set (s := CudaSparse.cuda_stream_ this) in *.
  rewrite (bind_Returns _ _ _ _ _ (prologue_spec w)).
  erewrite bind_Returns
    by (unfold Initialize_find, HandleMap_find; fold s; rewrite Hc; reflexivity).
  unfold mbind at 1. unfold M_bind, bind. rewrite create_phase.
  cbv zeta. fold s.
  destruct (is_success (next_status w)) eqn:E1;
    [destruct (is_success (second_status w)) eqn:E2|].
  - erewrite bind_Returns by (apply (insert_spec w this Hc Hf)).
    apply (finish_spec _ _ _ _ (miss_inserted_node s w) eq_refl).
  - erewrite bind_Returns by (apply (fail_phase_bind w s Hf)). reflexivity.
  - erewrite bind_Returns by (apply (fail_phase_create w s Hf)). reflexivity.
Qed.

Lemma grows_refl w : grows w w.
Proof. split; reflexivity. Qed.

Lemma grows_trans w1 w2 w3 : grows w1 w2 -> grows w2 w3 -> grows w1 w3.
Proof. intros [? ?] [? ?]. split; etrans; eassumption. Qed.

Lemma initial_inv nd sc : cache_inv (initial_world nd sc).
Proof.
  split; simpl.
  - intros l _. apply lookup_empty.
  - intros s l H. rewrite lookup_empty in H. discriminate.
  - intros l e H. rewrite lookup_empty in H. discriminate.
  - intros l1 l2 e1 e2 H. rewrite lookup_empty in H. discriminate.
  - reflexivity.
Qed.

Lemma live_below w l (e : CudaSparseHandles.t) :
  heap_fresh w -> heap w !! l = Some e -> l < next_loc w.
Proof.
  intros Hf H. destruct (N.lt_ge_cases l (next_loc w)) as [|Hge]; [assumption|].
  rewrite (Hf _ Hge) in H. discriminate.
Qed.

Lemma entry_handle_below w l e :
  cache_inv w -> heap w !! l = Some e ->
  exists h, e = CudaSparseHandles.mk true (CudaSparseHandles.stream_ e) (Some h)
            /\ h < next_handle w.
Proof.
  intros I H. destruct (inv_node _ I _ _ (inv_owner _ I _ _ H)) as [h [Hh Hlt]].
  exists h. split; [congruence | assumption].
Qed.

Lemma miss_create_failed_inv s w :
  cache_inv w -> cache_inv (miss_create_failed s w).
Proof.
  intros I. split; unfold heap_fresh; simpl.
  - intros l Hl. apply (inv_fresh _ I). lia.
  - apply (inv_node _ I).
  - apply (inv_owner _ I).
  - apply (inv_handles _ I).
  - unfold destroys. simpl. rewrite filter_snoc. simpl. rewrite app_nil_r.
    apply (inv_no_destroy _ I).
Qed.

Lemma miss_bind_failed_inv s w :
  cache_inv w -> cache_inv (miss_bind_failed s w).
Proof.
  intros I. split; unfold heap_fresh; simpl.
  - intros l Hl. apply (inv_fresh _ I). lia.
  - intros s' l H. destruct (inv_node _ I _ _ H) as [h [Hh Hlt]].
    exists h. split; [assumption | lia].
  - apply (inv_owner _ I).
  - apply (inv_handles _ I).
  - unfold destroys. simpl.
    change (calls w ++ [?a; ?b]) with (calls w ++ [a] ++ [b]).
    rewrite app_assoc, !filter_snoc. simpl. rewrite !app_nil_r.
    apply (inv_no_destroy _ I).
Qed.

Lemma miss_inserted_inv s w :
  cache_inv w -> cm w !! s = None -> cache_inv (miss_inserted s w).
Proof.
  intros I Hc. pose proof (inv_fresh _ I) as Hf. split; unfold heap_fresh; simpl.
  - intros l Hl. rewrite lookup_insert_ne by lia. apply Hf. lia.
  - intros s' l H. destruct (decide (s = s')) as [->|Hne].
    + rewrite lookup_insert_eq in H. injection H as <-.
      exists (next_handle w). rewrite lookup_insert_eq. split; [reflexivity|lia].
    + rewrite lookup_insert_ne in H by assumption.
      destruct (inv_node _ I _ _ H) as [h [Hh Hlt]].
      pose proof (live_below _ _ _ Hf Hh).
      exists h. rewrite lookup_insert_ne by lia. split; [assumption | lia].
  - intros l e H. destruct (decide (next_loc w + 2 = l)) as [<-|Hne].
    + rewrite lookup_insert_eq in H. injection H as <-. simpl.
      apply lookup_insert_eq.
    + rewrite lookup_insert_ne in H by assumption.
      pose proof (inv_owner _ I _ _ H) as Ho.
      rewrite lookup_insert_ne by congruence. assumption.
  - intros l1 l2 e1 e2 H1 H2 Heq.
    destruct (decide (next_loc w + 2 = l1)) as [<-|N1];
      destruct (decide (next_loc w + 2 = l2)) as [<-|N2]; try reflexivity.
    + rewrite lookup_insert_eq in H1. injection H1 as <-.
      rewrite lookup_insert_ne in H2 by assumption.
      destruct (entry_handle_below _ _ _ I H2) as [h [He Hlt]].
      rewrite He in Heq. simpl in Heq. injection Heq as Heq. lia.
    + rewrite lookup_insert_eq in H2. injection H2 as <-.
      rewrite lookup_insert_ne in H1 by assumption.
      destruct (entry_handle_below _ _ _ I H1) as [h [He Hlt]].
      rewrite He in Heq. simpl in Heq. injection Heq as Heq. lia.
    + rewrite lookup_insert_ne in H1, H2 by assumption.
      apply (inv_handles _ I _ _ _ _ H1 H2 Heq).
  - unfold destroys. simpl.
    change (calls w ++ [?a; ?b]) with (calls w ++ [a] ++ [b]).
    rewrite app_assoc, !filter_snoc. simpl. rewrite !app_nil_r.
    apply (inv_no_destroy _ I).
Qed.

Lemma miss_inserted_grows s w :
  cache_inv w -> cm w !! s = None -> grows w (miss_inserted s w).
Proof.
  intros I Hc. split; simpl.
  - apply insert_subseteq. assumption.
  - apply insert_subseteq. apply (inv_fresh _ I). lia.
Qed.

Lemma acquire_total w s :
  cache_inv w ->
  exists r w', acquire s w = Returns r w' /\ acquire_result s w r w'.
Proof.
  intros I. unfold acquire.
  destruct (cm w !! s) as [l|] eqn:Hc.
  - destruct (inv_node _ I _ _ Hc) as [h [Hh _]].
    eexists _, _. split.
    + apply (Initialize_hit w (CudaSparse_ctor s) l _ Hc Hh eq_refl).
    + apply acquire_cached. assumption.
  - rewrite (Initialize_miss w (CudaSparse_ctor s) Hc (inv_fresh _ I)).
    cbv zeta. simpl CudaSparse.cuda_stream_.
    destruct (is_success (next_status w)) eqn:E1;
      [destruct (is_success (second_status w)) eqn:E2|];
      eexists _, _; (split; [reflexivity|]).
    + apply acquire_inserted; assumption.
    + apply acquire_bind_failed; assumption.
    + apply acquire_create_failed; assumption.
Qed.

Lemma acquire_result_inv s w r w' :
  cache_inv w -> acquire_result s w r w' -> cache_inv w' /\ grows w w'.
Proof.
  intros I [l Hc | Hc E1 E2 | Hc E1 E2 | Hc E1].
  - split; [assumption | apply grows_refl].
  - split; [apply miss_inserted_inv | apply miss_inserted_grows]; assumption.
  - split; [apply miss_bind_failed_inv; assumption | split; reflexivity].
  - split; [apply miss_create_failed_inv; assumption | split; reflexivity].
Qed.

Lemma acquire_inv w s r w' :
  cache_inv w -> acquire s w = Returns r w' ->
  acquire_result s w r w' /\ cache_inv w' /\ grows w w'.
Proof.
  intros I H. destruct (acquire_total w s I) as [r0 [w0 [H0 R]]].
  rewrite H0 in H. injection H as <- <-.
  split; [assumption | apply (acquire_result_inv _ _ _ _ I R)].
Qed.

Lemma acquires_inv streams : forall w rs w',
  cache_inv w -> acquires streams w = Returns rs w' ->
  cache_inv w' /\ grows w w'.
Proof.
  induction streams as [|s rest IH]; intros w rs w' I H.
  - injection H as <- <-. split; [assumption | apply grows_refl].
  - simpl in H. unfold mbind, M_bind, bind in H.
    destruct (acquire_total w s I) as [r0 [w0 [H0 R]]].
    rewrite H0 in H.
    destruct (acquire_result_inv _ _ _ _ I R) as [I0 G0].
    destruct (acquires rest w0) as [rs0 w1| |] eqn:Hrest; try discriminate.
    destruct (IH _ _ _ I0 Hrest) as [I1 G1].
    injection H as <- <-.
    split; [assumption | apply (grows_trans _ _ _ G0 G1)].
Qed.

(** A history of acquisitions never aborts and never leaves the model. *)
Lemma acquires_total streams : forall w,
  cache_inv w -> exists rs w', acquires streams w = Returns rs w'.
Proof.
  induction streams as [|s rest IH]; intros w I.
  - eexists _, _. reflexivity.
  - destruct (acquire_total w s I) as [r0 [w0 [H0 R]]].
    destruct (acquire_result_inv _ _ _ _ I R) as [I0 _].
    destruct (IH w0 I0) as [rs [w' Hrest]].
    exists (r0 :: rs), w'. simpl. unfold mbind, M_bind, bind.
    rewrite H0, Hrest. reflexivity.
Qed.

Lemma reachable_inv w : reachable w -> cache_inv w.
Proof.
  intros [nd [sc [streams [rs H]]]].
  apply (acquires_inv _ _ _ _ (initial_inv nd sc) H).
Qed.

(** No acquisition ever calls [cusparseDestroy]: entries of the map live as
    long as the process, and what a failed initialization created is dropped
    without a native call. *)
Lemma reachable_never_destroys w : reachable w -> destroys w = 0%nat.
Proof. intros R. apply (inv_no_destroy _ (reachable_inv _ R)). Qed.

Lemma acquires_app s1 s2 w rs1 w1 rs2 w2 :
  acquires s1 w = Returns rs1 w1 ->
  acquires s2 w1 = Returns rs2 w2 ->
  acquires (s1 ++ s2) w = Returns (rs1 ++ rs2) w2.
Proof.
  revert w rs1 w1. induction s1 as [|s rest IH]; intros w rs1 w1 H1 H2.
  - injection H1 as <- <-. assumption.
  - simpl in *. unfold mbind, M_bind, bind in *.
    destruct (acquire s w) as [r0 w0| |]; try discriminate.
    destruct (acquires rest w0) as [rs0 w0'| |] eqn:Hrest; try discriminate.
    injection H1 as <- <-.
    rewrite (IH _ _ _ Hrest H2). reflexivity.
Qed.

Lemma reachable_acquires w streams rs w' :
  reachable w -> acquires streams w = Returns rs w' -> reachable w'.
Proof.
  intros [nd [sc [s0 [rs0 H0]]]] H.
  exists nd, sc, (s0 ++ streams), (rs0 ++ rs).
  apply (acquires_app _ _ _ _ _ _ _ H0 H).
Qed.

Lemma reachable_acquire w s r w' :
  reachable w -> acquire s w = Returns r w' -> reachable w'.
Proof.
  intros R H. apply (reachable_acquires w [s] [r] w' R).
  simpl. unfold mbind, M_bind, bind. rewrite H. reflexivity.
Qed.

Lemma acquire_cached_spec w s l :
  cache_inv w -> cm w !! s = Some l ->
  acquire s w = Returns (OK, CudaSparse.mk true s (Some l)) w.
Proof.
  intros I Hc. destruct (inv_node _ I _ _ Hc) as [h [Hh _]].
  apply (Initialize_hit w (CudaSparse_ctor s) l _ Hc Hh eq_refl).
Qed.

Lemma acquires_cached_spec w s l n :
  cache_inv w -> cm w !! s = Some l ->
  acquires (replicate n s) w
    = Returns (replicate n (OK, CudaSparse.mk true s (Some l))) w.
Proof.
  intros I Hc. induction n as [|n IH]; [reflexivity|].
  simpl. unfold mbind, M_bind, bind.
  rewrite (acquire_cached_spec _ _ _ I Hc), IH. reflexivity.
Qed.

Lemma acquire_ok_entry s w o w' :
  acquire_result s w (OK, o) w' ->
  exists l, o = CudaSparse.mk true s (Some l) /\ cm w' !! s = Some l.
Proof.
  inversion 1; subst.
  - eexists. split; [reflexivity | assumption].
  - eexists. split; [reflexivity | simpl; apply lookup_insert_eq].
Qed.

Lemma creates_miss_inserted s w : creates (miss_inserted s w) = S (creates w).
Proof.
  unfold creates. simpl.
  change (calls w ++ [?a; ?b]) with (calls w ++ [a] ++ [b]).
  rewrite app_assoc, !filter_snoc. simpl. rewrite app_nil_r, length_app.
  simpl. lia.
Qed.

(** ** Claims about the cache *)

(** C1. Once a stream is in the handle map, acquiring it returns the entry
    registered for it and leaves the whole world as it was: no native call is
    made, however often the acquisition is repeated and whatever other streams
    are acquired in between.  Counted from the acquisition that inserted the
    stream, a history of repeated acquisitions returns one and the same entry
    and contains exactly one native creation. *)
Theorem repeated_acquire_same_entry (w : world) (s l : N) :
  reachable w ->
  cm w !! s = Some l ->
  acquire s w = Returns (OK, CudaSparse.mk true s (Some l)) w
  /\ (forall n,
        acquires (replicate n s) w
          = Returns (replicate n (OK, CudaSparse.mk true s (Some l))) w)
  /\ (forall streams rs w',
        acquires streams w = Returns rs w' ->
        acquire s w' = Returns (OK, CudaSparse.mk true s (Some l)) w')
  /\ (forall w0 o n,
        reachable w0 -> cm w0 !! s = None ->
        acquire s w0 = Returns (OK, o) w ->
        acquires (s :: replicate n s) w0
          = Returns (replicate (S n) (OK, o)) w
        /\ creates w = S (creates w0)).
Proof.
  intros R Hc. pose proof (reachable_inv _ R) as I.
  split; [apply (acquire_cached_spec _ _ _ I Hc)|].
  split; [intros n; apply (acquires_cached_spec _ _ _ _ I Hc)|].
  split.
  - intros streams rs w' H.
    destruct (acquires_inv _ _ _ _ I H) as [I' [Gc _]].
    apply (acquire_cached_spec _ _ _ I').
    apply (lookup_weaken _ _ _ _ Hc Gc).
  - intros w0 o n R0 Hc0 H0.
    destruct (acquire_inv _ _ _ _ (reachable_inv _ R0) H0) as [Res _].
    destruct (acquire_ok_entry _ _ _ _ Res) as [l' [-> Hl']].
    assert (l' = l) by congruence. subst l'.
    split.
    + simpl. unfold mbind, M_bind, bind.
      rewrite H0, (acquires_cached_spec _ _ _ n I Hc). reflexivity.
    + inversion Res; subst; [congruence|]. apply creates_miss_inserted.
Qed.

Lemma initial_reachable nd sc : reachable (initial_world nd sc).
Proof. exists nd, sc, [], []. reflexivity. Qed.

Lemma after_first_acquire_reachable : reachable after_first_acquire.
Proof.
  apply (reachable_acquire (initial_world false []) 5
           (OK, CudaSparse.mk true 5 (Some 2))).
  - apply initial_reachable.
  - vm_compute. reflexivity.
Qed.

Lemma repeated_acquire_same_entry_witness :
  acquire 5 after_first_acquire
    = Returns (OK, CudaSparse.mk true 5 (Some 2)) after_first_acquire
  /\ creates after_first_acquire = 1%nat.
Proof.
  pose proof (repeated_acquire_same_entry after_first_acquire 5 2
                after_first_acquire_reachable) as H.
  destruct H as [H1 [_ [_ H4]]].
  - vm_compute. reflexivity.
  - split; [exact H1|].
    refine (proj2 (H4 (initial_world false [])
                      (CudaSparse.mk true 5 (Some 2)) 0%nat
                      (initial_reachable _ _) _ _)).
    + vm_compute. reflexivity.
    + vm_compute. reflexivity.
Defined.

(** C2. For a stream not yet in the map, when the native creation and the
    stream binding succeed, [acquire] logs the stream, creates one native
    handle, binds it to the stream, and leaves in the map, under that stream,
    a new initialized entry bound to the stream and owning the handle; it
    returns success with a reference to that entry.  No other entry changes
    and no temporary survives. *)
Theorem acquire_new_stream (w : world) (s : N) :
  reachable w ->
  cm w !! s = None ->
  next_status w = CUSPARSE_STATUS_SUCCESS ->
  second_status w = CUSPARSE_STATUS_SUCCESS ->
  let node := next_loc w + 2 in
  let h := next_handle w in
  exists w',
    acquire s w = Returns (OK, CudaSparse.mk true s (Some node)) w'
    /\ calls w' = calls w ++ [CallCreate (Some h) CUSPARSE_STATUS_SUCCESS;
                              CallSetStream h s CUSPARSE_STATUS_SUCCESS]
    /\ heap w !! node = None
    /\ heap w' = <[node := CudaSparseHandles.mk true s (Some h)]> (heap w)
    /\ cm w' = <[s := node]> (cm w)
    /\ logs w' = logs w ++ [s].
Proof.
  intros R Hc E1 E2 node h. pose proof (reachable_inv _ R) as I.
  exists (miss_inserted s w). unfold acquire.
  rewrite (Initialize_miss w (CudaSparse_ctor s) Hc (inv_fresh _ I)).
  cbv zeta. simpl CudaSparse.cuda_stream_.
  unfold is_success. rewrite E1, E2. simpl.
  repeat split.
  - rewrite E1, E2. reflexivity.
  - apply (inv_fresh _ I). subst node. lia.
Qed.

Lemma acquire_new_stream_witness :
  exists w',
    acquire 7 after_first_acquire
      = Returns (OK, CudaSparse.mk true 7 (Some 5)) w'
    /\ calls w' = calls after_first_acquire
                  ++ [CallCreate (Some 1) 0; CallSetStream 1 7 0]
    /\ heap after_first_acquire !! 5 = None
    /\ heap w' = <[5 := CudaSparseHandles.mk true 7 (Some 1)]>
                   (heap after_first_acquire)
    /\ cm w' = <[7 := 5]> (cm after_first_acquire)
    /\ logs w' = logs after_first_acquire ++ [7].
Proof.
  apply (acquire_new_stream after_first_acquire 7
           after_first_acquire_reachable).
  - vm_compute. reflexivity.
  - reflexivity.
  - reflexivity.
Defined.

Lemma creates_miss_bind_failed s w :
  creates (miss_bind_failed s w) = S (creates w).
Proof. apply (creates_miss_inserted s w). Qed.

Lemma creates_miss_create_failed s w :
  creates (miss_create_failed s w) = S (creates w).
Proof.
  unfold creates. simpl. rewrite filter_snoc. simpl. rewrite length_app.
  simpl. lia.
Qed.

(** Every miss calls [cusparseCreate] once, whatever the library answers. *)
Lemma acquire_miss_creates w s :
  cache_inv w -> cm w !! s = None ->
  creates (world_of (acquire s w)) = S (creates w).
Proof.
  intros I Hc. destruct (acquire_total w s I) as [r [w' [H Res]]].
  rewrite H. simpl. inversion Res; subst.
  - congruence.
  - apply creates_miss_inserted.
  - apply creates_miss_bind_failed.
  - apply creates_miss_create_failed.
Qed.

(** C3. When the native creation or the stream binding fails during the
    acquisition of a stream that is not in the map, [acquire] returns the
    [Internal] error built from the status of the failing native call; map
    and store are as before, so there is no entry for the stream; and the next
    acquisition of the stream calls the native creation again, succeeding when
    the library does. *)
Theorem acquire_failure_leaves_no_entry (w : world) (s : N) :
  reachable w ->
  cm w !! s = None ->
  next_status w <> CUSPARSE_STATUS_SUCCESS
  \/ second_status w <> CUSPARSE_STATUS_SUCCESS ->
  let code :=
    if is_success (next_status w) then second_status w else next_status w in
  exists w1,
    acquire s w = Returns (Internal code, CudaSparse_ctor s) w1
    /\ code <> CUSPARSE_STATUS_SUCCESS
    /\ (exists before failing,
          calls w1 = calls w ++ before ++ [failing]
          /\ status_of failing = code)
    /\ cm w1 = cm w /\ heap w1 = heap w /\ cm w1 !! s = None
    /\ reachable w1
    /\ creates (world_of (acquire s w1)) = S (creates w1)
    /\ (next_status w1 = CUSPARSE_STATUS_SUCCESS ->
        second_status w1 = CUSPARSE_STATUS_SUCCESS ->
        exists node w2,
          acquire s w1 = Returns (OK, CudaSparse.mk true s (Some node)) w2
          /\ cm w2 !! s = Some node).
Proof.
  intros R Hc Hfail code. pose proof (reachable_inv _ R) as I.
  assert (Hacq : exists w1,
    acquire s w = Returns (Internal code, CudaSparse_ctor s) w1
    /\ code <> CUSPARSE_STATUS_SUCCESS
    /\ (exists before failing,
          calls w1 = calls w ++ before ++ [failing]
          /\ status_of failing = code)
    /\ cm w1 = cm w /\ heap w1 = heap w).
  { subst code. unfold acquire.
    rewrite (Initialize_miss w (CudaSparse_ctor s) Hc (inv_fresh _ I)).
    cbv zeta. simpl CudaSparse.cuda_stream_.
    destruct (is_success (next_status w)) eqn:E1.
    - destruct (is_success (second_status w)) eqn:E2.
      + apply is_success_spec in E1, E2. destruct Hfail; contradiction.
      + exists (miss_bind_failed s w). apply is_success_false in E2.
        repeat split; try assumption.
        exists [CallCreate (Some (next_handle w)) (next_status w)],
               (CallSetStream (next_handle w) s (second_status w)).
        split; reflexivity.
    - exists (miss_create_failed s w). apply is_success_false in E1.
      repeat split; try assumption.
      exists [], (CallCreate None (next_status w)). split; reflexivity. }
  destruct Hacq as [w1 [H1 [Hcode [Hcalls [Hcm Hheap]]]]].
  pose proof (reachable_acquire _ _ _ _ R H1) as R1.
  pose proof (reachable_inv _ R1) as I1.
  assert (Hc1 : cm w1 !! s = None) by (rewrite Hcm; assumption).
  exists w1. repeat split; try assumption.
  - apply (acquire_miss_creates _ _ I1 Hc1).
  - intros E1 E2. exists (next_loc w1 + 2), (miss_inserted s w1).
    unfold acquire.
    rewrite (Initialize_miss w1 (CudaSparse_ctor s) Hc1 (inv_fresh _ I1)).
    cbv zeta. simpl CudaSparse.cuda_stream_. unfold is_success.
    rewrite E1, E2. simpl. split; [reflexivity | apply lookup_insert_eq].
Qed.

Lemma acquire_failure_leaves_no_entry_witness :
  exists w1,
    acquire 5 (initial_world false [3%Z])
      = Returns (Internal 3, CudaSparse_ctor 5) w1
    /\ cm w1 !! 5 = None
    /\ creates (world_of (acquire 5 w1)) = S (creates w1).
Proof.
  destruct (acquire_failure_leaves_no_entry (initial_world false [3%Z]) 5
              (initial_reachable _ _))
    as [w1 [H1 [_ [_ [_ [_ [H2 [_ [H3 _]]]]]]]]].
  - reflexivity.
  - left. vm_compute. discriminate.
  - exists w1. split; [exact H1 | split; [exact H2 | exact H3]].
Defined.

(** C9. Acquisitions of two different streams return references to two
    different entries of the map, each bound to its own stream, and the two
    entries own different native handles. *)
Theorem distinct_streams_distinct_entries
    (w w1 w2 w3 : world) (s1 s2 : N) (o1 o2 : CudaSparse.t)
    (streams : list N) (rs : list (Status * CudaSparse.t)) :
  reachable w ->
  s1 <> s2 ->
  acquire s1 w = Returns (OK, o1) w1 ->
  acquires streams w1 = Returns rs w2 ->
  acquire s2 w2 = Returns (OK, o2) w3 ->
  exists l1 l2 h1 h2,
    CudaSparse.cusparse_handle_ o1 = Some l1
    /\ CudaSparse.cusparse_handle_ o2 = Some l2
    /\ l1 <> l2
    /\ heap w3 !! l1 = Some (CudaSparseHandles.mk true s1 (Some h1))
    /\ heap w3 !! l2 = Some (CudaSparseHandles.mk true s2 (Some h2))
    /\ h1 <> h2.
Proof.
  intros R Hne H1 H2 H3. pose proof (reachable_inv _ R) as I.
  destruct (acquire_inv _ _ _ _ I H1) as [Res1 [I1 _]].
  destruct (acquires_inv _ _ _ _ I1 H2) as [I2 [G2 _]].
  destruct (acquire_inv _ _ _ _ I2 H3) as [Res3 [I3 [G3 _]]].
  destruct (acquire_ok_entry _ _ _ _ Res1) as [l1 [-> Hl1]].
  destruct (acquire_ok_entry _ _ _ _ Res3) as [l2 [-> Hl2]].
  assert (Hl1' : cm w3 !! s1 = Some l1).
  { apply (lookup_weaken _ _ _ _ (lookup_weaken _ _ _ _ Hl1 G2) G3). }
  destruct (inv_node _ I3 _ _ Hl1') as [h1 [Hh1 _]].
  destruct (inv_node _ I3 _ _ Hl2) as [h2 [Hh2 _]].
  assert (Hl : l1 <> l2) by (intros ->; congruence).
  exists l1, l2, h1, h2. repeat split; try assumption.
  intros ->. apply Hl.
  apply (inv_handles _ I3 _ _ _ _ Hh1 Hh2). reflexivity.
Qed.

Lemma distinct_streams_distinct_entries_witness :
  exists l1 l2 h1 h2,
    CudaSparse.cusparse_handle_ (CudaSparse.mk true 5 (Some 2)) = Some l1
    /\ CudaSparse.cusparse_handle_ (CudaSparse.mk true 7 (Some 5)) = Some l2
    /\ l1 <> l2
    /\ heap (world_of (acquire 7 after_first_acquire)) !! l1
       = Some (CudaSparseHandles.mk true 5 (Some h1))
    /\ heap (world_of (acquire 7 after_first_acquire)) !! l2
       = Some (CudaSparseHandles.mk true 7 (Some h2))
    /\ h1 <> h2.
Proof.
  apply (distinct_streams_distinct_entries (initial_world false [])
           after_first_acquire after_first_acquire
           (world_of (acquire 7 after_first_acquire)) 5 7 _ _ [] []
           (initial_reachable _ _)).
  - lia.
  - vm_compute. reflexivity.
  - reflexivity.
  - vm_compute. reflexivity.
Defined.

(** ** Concurrent callers *)

(** *** One thread on its own *)

Lemma thread_step_stepped i c t t' w' m' :
  crashed c = false ->
  threads c !! i = Some t ->
  local_step i t (shared c) (handle_map_mutex c) = Some (Stepped t' w' m') ->
  thread_step i c = Some (Config w' m' (<[i := t']> (threads c)) false).
Proof.
  intros Hc Ht Hs. unfold thread_step. rewrite Hc, Ht, Hs. reflexivity.
Qed.

Lemma run_cons_stepped i rest c t t' w' m' :
  crashed c = false ->
  threads c !! i = Some t ->
  local_step i t (shared c) (handle_map_mutex c) = Some (Stepped t' w' m') ->
  run (i :: rest) c = run rest (Config w' m' (<[i := t']> (threads c)) false).
Proof.
  intros Hc Ht Hs. simpl.
  rewrite (thread_step_stepped _ _ _ _ _ _ Hc Ht Hs). reflexivity.
Qed.

Lemma run_done sched st this w :
  run (replicate sched 0%nat) (Config w None [Thread (Done st) this] false)
    = Config w None [Thread (Done st) this] false.
Proof. induction sched as [|n IH]; [reflexivity | exact IH]. Qed.

(** A thread that runs alone goes through [CudaSparse::Initialize] as the
    sequential embedding does, and leaves the mutex free. *)
Lemma solo_run this w st this' w' :
  CudaSparse_Initialize this w = Returns (st, this') w' ->
  run (replicate 6 0%nat) (Config w None [Thread AtEntry this] false)
    = Config w' None [Thread (Done st) this'] false.
Proof.
  unfold CudaSparse_Initialize, mbind, M_bind, bind. intros H.
  destruct (Initialize_prologue w) as [[] w1| |] eqn:E0; try discriminate.
  destruct (Initialize_find this w1) as [it w2| |] eqn:E1; try discriminate.
  change (replicate 6 0%nat) with (0 :: 0 :: 0 :: replicate 3 0)%nat.
  solo_step run_cons_stepped E0.
  erewrite run_cons_stepped; [| reflexivity | reflexivity | reflexivity].
  solo_step run_cons_stepped E1.
  simpl insert.
  destruct it as [node|].
  - (* cached *)
    destruct (Initialize_finish this node w2) as [[st0 o0] w3| |] eqn:E2;
      try discriminate.
    injection H as -> -> ->.
    change (replicate 3 0%nat) with (0 :: replicate 2 0)%nat.
    solo_step run_cons_stepped E2.
    apply run_done.
  - destruct (Initialize_create this w2) as [[nh st0] w3| |] eqn:E2;
      try discriminate.
    change (replicate 3 0%nat) with (0 :: 0 :: 0 :: [])%nat.
    solo_step run_cons_stepped E2.
    simpl insert. simpl fst. simpl snd.
    destruct st0 as [|code].
    + destruct (Initialize_insert this nh w3) as [node w4| |] eqn:E3;
        try discriminate.
      destruct (Initialize_finish this node w4) as [[st1 o1] w5| |] eqn:E4;
        try discriminate.
      injection H as -> -> ->.
      solo_step run_cons_stepped E3.
      solo_step run_cons_stepped E4.
      reflexivity.
    + destruct (Initialize_fail nh w3) as [[] w4| |] eqn:E3; try discriminate.
      injection H as <- <- <-.
      solo_step run_cons_stepped E3.
      reflexivity.
Qed.

(** *** The invariant of concurrent callers *)

Lemma cache_inv_unique w : cache_inv w -> entries_unique w.
Proof.
  intros I l1 l2 e1 e2 H1 H2 _ _ Hs.
  pose proof (inv_owner _ I _ _ H1) as O1.
  pose proof (inv_owner _ I _ _ H2) as O2.
  rewrite Hs in O1. congruence.
Qed.

Lemma unique_with_local w w' s :
  cache_inv w ->
  cm w !! s = None ->
  (forall l, l <> next_loc w -> heap w' !! l = heap w !! l) ->
  (forall e, heap w' !! next_loc w = Some e -> CudaSparseHandles.stream_ e = s) ->
  entries_unique w'.
Proof.
  intros I Hc Hold Hnew l1 l2 e1 e2 H1 H2 I1 I2 Hs.
  assert (Hno : forall l e, heap w !! l = Some e ->
                  CudaSparseHandles.stream_ e <> s).
  { intros l e H Heq. pose proof (inv_owner _ I _ _ H) as O.
    rewrite Heq in O. congruence. }
  destruct (decide (l1 = next_loc w)) as [->|N1];
    destruct (decide (l2 = next_loc w)) as [->|N2]; try reflexivity.
  - rewrite (Hold _ N2) in H2. exfalso.
    apply (Hno _ _ H2). rewrite <- Hs. apply (Hnew _ H1).
  - rewrite (Hold _ N1) in H1. exfalso.
    apply (Hno _ _ H1). rewrite Hs. apply (Hnew _ H2).
  - rewrite (Hold _ N1) in H1. rewrite (Hold _ N2) in H2.
    apply (cache_inv_unique _ I _ _ _ _ H1 H2 I1 I2 Hs).
Qed.

Lemma initialized_unique w s :
  cache_inv w -> cm w !! s = None ->
  entries_unique (initialized (next_loc w) (new_entry s) (announced s w)).
Proof.
  intros I Hc. apply (unique_with_local w _ s I Hc).
  - intros l Hl. simpl. rewrite !lookup_insert_ne by congruence. reflexivity.
  - intros e. simpl. rewrite lookup_insert_eq. intros [= <-]. reflexivity.
Qed.

Lemma bound_unique w s :
  cache_inv w -> cm w !! s = None ->
  entries_unique (bound (next_loc w) (new_entry s) (announced s w)).
Proof.
  intros I Hc. apply (unique_with_local w _ s I Hc).
  - intros l Hl. simpl. rewrite !lookup_insert_ne by congruence. reflexivity.
  - intros e. simpl. rewrite lookup_insert_eq. intros [= <-]. reflexivity.
Qed.

Lemma create_failed_unique w s :
  cache_inv w -> cm w !! s = None ->
  entries_unique (create_failed (next_loc w) (new_entry s) (announced s w)).
Proof.
  intros I Hc. apply (unique_with_local w _ s I Hc).
  - intros l Hl. simpl. rewrite !lookup_insert_ne by congruence. reflexivity.
  - intros e. simpl. rewrite lookup_insert_eq. intros [= <-]. reflexivity.
Qed.

Lemma creates_initialized w s :
  creates (initialized (next_loc w) (new_entry s) (announced s w))
  = S (creates w).
Proof.
  unfold creates. simpl. rewrite !filter_snoc. simpl.
  rewrite app_nil_r, length_app. simpl. lia.
Qed.

Lemma creates_bound w s :
  creates (bound (next_loc w) (new_entry s) (announced s w)) = S (creates w).
Proof. apply creates_initialized. Qed.

Lemma creates_create_failed w s :
  creates (create_failed (next_loc w) (new_entry s) (announced s w))
  = S (creates w).
Proof.
  unfold creates. simpl. rewrite !filter_snoc. simpl.
  rewrite length_app. simpl. lia.
Qed.

(** One move of a caller keeps what the invariant says of it, and touches
    mutex and world in one of the three ways of [transition]. *)
Lemma local_step_ok w0 s w m i t r :
  thread_ok s w m i t ->
  (m = None -> cache_inv w) ->
  entries_unique w ->
  cm w0 ⊆ cm w ->
  local_step i t w m = Some r ->
  exists t' w' m',
    r = Stepped t' w' m'
    /\ thread_ok s w' m' i t'
    /\ transition i w m w' m'
    /\ (m' = None -> cache_inv w')
    /\ entries_unique w'
    /\ (creates w' + pending_creates t + newly_cached s w0 w
        = creates w + pending_creates t' + newly_cached s w0 w')%nat.
Proof.
  intros [Hs Hm Hw] Hidle Hu Hg Hstep.
  destruct t as [p this]. unfold pc_world in Hw. simpl in *.
  unfold local_step in Hstep. simpl in Hstep.
  destruct p as [ | | | |nh|nh code|node|st].
  - (* AtEntry *)
    unfold continue in Hstep. rewrite prologue_spec in Hstep.
    injection Hstep as <-. eexists _, _, _. split; [reflexivity|].
    split; [constructor; simpl; [assumption | exact Hm | exact Logic.I]|].
    split; [left; auto|].
    split; [exact Hidle | split; [exact Hu | unfold pending_creates; simpl; lia]].
  - (* AtLock *)
    destruct m as [j|]; [discriminate|]. injection Hstep as <-.
    eexists _, _, _. split; [reflexivity|].
    split; [constructor; simpl; [assumption | split; auto | apply Hidle; reflexivity]|].
    split; [right; left; auto|].
    split; [discriminate | split; [exact Hu | unfold pending_creates; simpl; lia]].
  - (* AtFind *)
    assert (Hmi : m = Some i) by (apply Hm; reflexivity).
    unfold continue, Initialize_find, HandleMap_find in Hstep.
    rewrite Hs in Hstep. injection Hstep as <-.
    eexists _, _, _. split; [reflexivity|].
    split.
    { constructor; simpl; [assumption | |].
      - destruct (cm w !! s); simpl; split; auto.
      - unfold pc_world. simpl. destruct (cm w !! s) eqn:E; simpl; auto. }
    split; [right; right; auto|].
    split; [subst m; discriminate|].
    split; [exact Hu|].
    destruct (cm w !! s); unfold pending_creates; simpl; lia.
  - (* AtCreate *)
    assert (Hmi : m = Some i) by (apply Hm; reflexivity).
    destruct Hw as [I Hc].
    unfold continue in Hstep. rewrite create_phase in Hstep.
    cbv zeta in Hstep. rewrite Hs in Hstep.
    destruct (is_success (next_status w));
      [destruct (is_success (second_status w))|];
      injection Hstep as <-; eexists _, _, _; (split; [reflexivity|]); simpl.
    + split; [constructor; simpl; [assumption | split; auto |
             exists w; split; [exact I | split; [exact Hc | split; reflexivity]]]|].
      split; [right; right; auto|].
      split; [subst m; discriminate|].
      split; [apply (initialized_unique _ _ I Hc)|].
      rewrite creates_initialized.
      unfold newly_cached, pending_creates; simpl; lia.
    + split; [constructor; simpl; [assumption | split; auto |
             exists w; split; [exact I | split; [exact Hc |
               split; [reflexivity | left; reflexivity]]]]|].
      split; [right; right; auto|].
      split; [subst m; discriminate|].
      split; [apply (bound_unique _ _ I Hc)|].
      rewrite creates_bound.
      unfold newly_cached, pending_creates; simpl; lia.
    + split; [constructor; simpl; [assumption | split; auto |
             exists w; split; [exact I | split; [exact Hc |
               split; [reflexivity | right; reflexivity]]]]|].
      split; [right; right; auto|].
      split; [subst m; discriminate|].
      split; [apply (create_failed_unique _ _ I Hc)|].
      rewrite creates_create_failed.
      unfold newly_cached, pending_creates; simpl; lia.
  - (* AtInsert *)
    assert (Hmi : m = Some i) by (apply Hm; reflexivity).
    destruct Hw as [wb [I [Hc [-> ->]]]].
    unfold continue in Hstep.
    pose proof (insert_spec wb this) as Hins. cbv zeta in Hins.
    rewrite Hs in Hins. rewrite (Hins Hc (inv_fresh _ I)) in Hstep.
    injection Hstep as <-. eexists _, _, _. split; [reflexivity|].
    pose proof (miss_inserted_inv s wb I Hc) as I'.
    split.
    { constructor; simpl; [assumption | split; auto |].
      unfold pc_world. simpl. split; [assumption | apply lookup_insert_eq]. }
    split; [right; right; split; [|split]; auto;
            simpl; apply insert_subseteq; assumption|].
    split; [subst m; discriminate|].
    split; [apply (cache_inv_unique _ I')|].
    rewrite creates_initialized, creates_miss_inserted.
    unfold newly_cached. simpl. rewrite Hc, lookup_insert_eq.
    rewrite (lookup_weaken_None _ _ _ Hc Hg). unfold pending_creates; simpl; lia.
  - (* AtFail *)
    assert (Hmi : m = Some i) by (apply Hm; reflexivity).
    destruct Hw as [wb [I [Hc [-> Hshape]]]].
    unfold continue in Hstep.
    destruct Hshape as [-> | ->].
    + rewrite (fail_phase_bind wb s (inv_fresh _ I)) in Hstep.
      injection Hstep as <-. eexists _, _, _. split; [reflexivity|].
      pose proof (miss_bind_failed_inv s wb I) as I'.
      split; [constructor; simpl; [assumption | split; discriminate | exact Logic.I]|].
      split; [right; right; split; [|split]; auto|].
      split; [intros _; assumption|].
      split; [apply (cache_inv_unique _ I')|].
      rewrite creates_bound, creates_miss_bind_failed.
      unfold newly_cached, pending_creates; simpl; lia.
    + rewrite (fail_phase_create wb s (inv_fresh _ I)) in Hstep.
      injection Hstep as <-. eexists _, _, _. split; [reflexivity|].
      pose proof (miss_create_failed_inv s wb I) as I'.
      split; [constructor; simpl; [assumption | split; discriminate | exact Logic.I]|].
      split; [right; right; split; [|split]; auto|].
      split; [intros _; assumption|].
      split; [apply (cache_inv_unique _ I')|].
      rewrite creates_create_failed, creates_miss_create_failed.
      unfold newly_cached, pending_creates; simpl; lia.
  - (* AtFinish *)
    assert (Hmi : m = Some i) by (apply Hm; reflexivity).
    destruct Hw as [I Hc].
    destruct (inv_node _ I _ _ Hc) as [h [Hh _]].
    unfold continue in Hstep.
    rewrite (finish_spec _ this _ _ Hh eq_refl) in Hstep. rewrite Hs in Hstep.
    injection Hstep as <-. eexists _, _, _. split; [reflexivity|].
    split.
    { constructor; simpl; [reflexivity | split; discriminate |].
      unfold pc_world. simpl. exists node. auto. }
    split; [right; right; split; [|split]; auto|].
    split; [intros _; exact I|].
    split; [exact Hu | unfold pending_creates; simpl; lia].
  - discriminate.
Qed.

Lemma total_pending_insert ts i t t' :
  ts !! i = Some t ->
  (total_pending (<[i := t']> ts) + pending_creates t
   = total_pending ts + pending_creates t')%nat.
Proof.
  revert i. induction ts as [|x ts IH]; intros [|i] H; try discriminate.
  - injection H as ->. cbn [total_pending insert list_insert].
    generalize (total_pending ts), (pending_creates t), (pending_creates t').
    intros k p p'. lia.
  - specialize (IH i H). revert IH.
    change (<[S i:=t']> (x :: ts)) with (x :: <[i:=t']> ts).
    cbn [total_pending].
    generalize (total_pending (<[i:=t']> ts)), (total_pending ts),
      (pending_creates t), (pending_creates t'), (pending_creates x).
    intros k k' p p' q IH. lia.
Qed.

Lemma total_pending_zero ts :
  (forall i t, ts !! i = Some t -> pending_creates t = 0%nat) ->
  total_pending ts = 0%nat.
Proof.
  induction ts as [|x ts IH]; intros H; [reflexivity|].
  cbn [total_pending]. rewrite (H 0%nat x eq_refl).
  rewrite IH; [reflexivity|]. intros i t Hi. apply (H (S i) t Hi).
Qed.

Lemma transition_grows i w m w' m' :
  transition i w m w' m' -> cm w ⊆ cm w'.
Proof. intros [[_ ->] | [[_ [_ ->]] | [_ [_ H]]]]; [reflexivity.. | assumption]. Qed.

(** A move of thread [i] does not disturb what the invariant says of the
    other threads. *)
Lemma thread_ok_stable s w m w' m' i j t :
  j <> i ->
  thread_ok s w m j t ->
  transition i w m w' m' ->
  thread_ok s w' m' j t.
Proof.
  intros Hne [Hs Hm Hw] Htr.
  assert (Hgrow : cm w ⊆ cm w') by apply (transition_grows _ _ _ _ _ Htr).
  destruct Htr as [[-> ->] | [[-> [-> ->]] | [-> [Hm' _]]]].
  - constructor; assumption.
  - constructor; [assumption | | assumption].
    split; [intros Hc; apply Hm in Hc; discriminate | congruence].
  - assert (Hnc : in_critical (t_pc t) = false).
    { destruct (in_critical (t_pc t)) eqn:E; [|reflexivity].
      destruct Hm as [Hm _]. specialize (Hm eq_refl). congruence. }
    constructor; [assumption | |].
    + rewrite Hnc. split; [discriminate|].
      destruct Hm' as [-> | ->]; congruence.
    + unfold pc_world in *.
      destruct (t_pc t) as [ | | | |nh|nh code|node|[|code]];
        try discriminate; auto.
      destruct Hw as [l [Hl Hc]]. exists l.
      split; [assumption | apply (lookup_weaken _ _ _ _ Hc Hgrow)].
Qed.

Lemma step_inv w0 s c i c' :
  conc_inv w0 s c -> thread_step i c = Some c' -> conc_inv w0 s c'.
Proof.
  intros [Ha Ht Hh Hi Hg Hu Hc] Hstep. unfold thread_step in Hstep.
  rewrite Ha in Hstep.
  destruct (threads c !! i) as [t|] eqn:Hti; [|discriminate].
  destruct (local_step i t (shared c) (handle_map_mutex c)) as [r|] eqn:Hl;
    [|discriminate].
  destruct (local_step_ok w0 s _ _ _ _ _ (Ht _ _ Hti) Hi Hu Hg Hl)
    as [t' [w' [m' [-> [Hok [Htr [Hidle [Huniq Hcount]]]]]]]].
  injection Hstep as <-. split; simpl.
  - reflexivity.
  - intros j tj Hj. apply list_lookup_insert_Some in Hj.
    destruct Hj as [[<- [<- _]] | [Hne Hj]]; [assumption|].
    apply (thread_ok_stable s (shared c) (handle_map_mutex c) w' m' i j tj);
      auto.
  - intros k Hk. apply list_lookup_insert_is_Some.
    destruct Htr as [[-> _] | [[_ [-> _]] | [_ [[-> | ->] _]]]].
    + apply (Hh _ Hk).
    + injection Hk as <-. rewrite Hti. eauto.
    + injection Hk as <-. rewrite Hti. eauto.
    + discriminate.
  - assumption.
  - etrans; [exact Hg | apply (transition_grows _ _ _ _ _ Htr)].
  - assumption.
  - pose proof (total_pending_insert _ _ _ t' Hti) as Hins.
    revert Hins Hcount Hc.
    generalize (total_pending (<[i:=t']> (threads c))),
      (total_pending (threads c)), (pending_creates t), (pending_creates t'),
      (newly_cached s w0 (shared c)), (newly_cached s w0 w'),
      (creates w'), (creates (shared c)), (creates w0).
    intros. lia.
Qed.

Lemma run_inv w0 s sched : forall c,
  conc_inv w0 s c -> conc_inv w0 s (run sched c).
Proof.
  induction sched as [|i rest IH]; intros c I; [assumption|].
  simpl. destruct (thread_step i c) as [c'|] eqn:E; simpl.
  - apply IH. apply (step_inv _ _ _ _ _ I E).
  - apply IH. assumption.
Qed.

Lemma thread_step_length i c c' :
  thread_step i c = Some c' -> length (threads c') = length (threads c).
Proof.
  unfold thread_step. destruct (crashed c); [discriminate|].
  destruct (threads c !! i); [|discriminate].
  destruct (local_step _ _ _ _) as [[t' w' m'|w']|]; intros [= <-]; simpl;
    [apply length_insert | reflexivity].
Qed.

Lemma run_length sched : forall c,
  length (threads (run sched c)) = length (threads c).
Proof.
  induction sched as [|i rest IH]; intros c; [reflexivity|].
  simpl. destruct (thread_step i c) as [c'|] eqn:E; simpl.
  - rewrite IH. apply (thread_step_length _ _ _ E).
  - apply IH.
Qed.

Lemma start_inv w0 s n :
  cache_inv w0 -> conc_inv w0 s (start w0 (replicate n s)).
Proof.
  intros I.
  assert (Hall : forall i t,
    threads (start w0 (replicate n s)) !! i = Some t ->
    t = Thread AtEntry (CudaSparse_ctor s)).
  { intros i t H. simpl in H. apply list_lookup_fmap_Some in H.
    destruct H as [x [-> Hx]]. apply lookup_replicate_1 in Hx.
    destruct Hx as [-> _]. reflexivity. }
  split.
  - reflexivity.
  - intros i t H. rewrite (Hall _ _ H).
    constructor; simpl; [reflexivity | split; discriminate | exact Logic.I].
  - discriminate.
  - intros _. assumption.
  - reflexivity.
  - apply (cache_inv_unique _ I).
  - rewrite total_pending_zero.
    + unfold newly_cached. simpl. destruct (cm w0 !! s); lia.
    + intros i t H. rewrite (Hall _ _ H). reflexivity.
Qed.

(** *** Progress: no deadlock, and every caller returns *)

Lemma local_step_progress s w m i t r :
  thread_ok s w m i t ->
  local_step i t w m = Some r ->
  exists t' w' m',
    r = Stepped t' w' m'
    /\ (remaining (t_pc t') < remaining (t_pc t))%nat
    /\ (script w = [] -> failed (t_pc t) = false ->
        script w' = [] /\ failed (t_pc t') = false).
Proof.
  intros [Hs Hm Hw] Hstep.
  destruct t as [p this]. unfold pc_world in Hw. simpl in *.
  unfold local_step in Hstep. simpl in Hstep.
  destruct p as [ | | | |nh|nh code|node|st].
  - unfold continue in Hstep. rewrite prologue_spec in Hstep.
    injection Hstep as <-. eexists _, _, _.
    split; [reflexivity | split; [simpl; lia | auto]].
  - destruct m as [j|]; [discriminate|]. injection Hstep as <-.
    eexists _, _, _. split; [reflexivity | split; [simpl; lia | auto]].
  - unfold continue, Initialize_find, HandleMap_find in Hstep.
    injection Hstep as <-. eexists _, _, _. split; [reflexivity|].
    destruct (cm w !! _); (split; [simpl; lia | auto]).
  - unfold continue in Hstep. rewrite create_phase in Hstep.
    cbv zeta in Hstep.
    destruct (is_success (next_status w)) eqn:E1;
      [destruct (is_success (second_status w)) eqn:E2|];
      injection Hstep as <-; eexists _, _, _;
      (split; [reflexivity | split; [simpl; lia|]]); intros Hsc _; simpl.
    + rewrite Hsc. auto.
    + unfold second_status in E2. rewrite Hsc in E2. discriminate.
    + unfold next_status in E1. rewrite Hsc in E1. discriminate.
  - destruct Hw as [wb [I [Hc [-> ->]]]].
    unfold continue in Hstep.
    pose proof (insert_spec wb this) as Hins. cbv zeta in Hins.
    rewrite Hs in Hins. rewrite (Hins Hc (inv_fresh _ I)) in Hstep.
    injection Hstep as <-. eexists _, _, _.
    split; [reflexivity | split; [simpl; lia | auto]].
  - destruct Hw as [wb [I [Hc [-> Hshape]]]].
    unfold continue in Hstep.
    destruct Hshape as [-> | ->];
      [rewrite (fail_phase_bind wb s (inv_fresh _ I)) in Hstep
      |rewrite (fail_phase_create wb s (inv_fresh _ I)) in Hstep];
      injection Hstep as <-; eexists _, _, _;
      (split; [reflexivity | split; [simpl; lia | discriminate]]).
  - destruct Hw as [I Hc].
    destruct (inv_node _ I _ _ Hc) as [h [Hh _]].
    unfold continue in Hstep.
    rewrite (finish_spec _ this _ _ Hh eq_refl) in Hstep.
    injection Hstep as <-. eexists _, _, _.
    split; [reflexivity | split; [simpl; lia | auto]].
  - discriminate.
Qed.

Lemma total_remaining_insert ts i t t' :
  ts !! i = Some t ->
  (remaining (t_pc t') < remaining (t_pc t))%nat ->
  (total_remaining (<[i := t']> ts) < total_remaining ts)%nat.
Proof.
  revert i. induction ts as [|x ts IH]; intros [|i] H Hlt; try discriminate.
  - injection H as ->. cbn [total_remaining insert list_insert]. lia.
  - specialize (IH i H Hlt).
    change (<[S i:=t']> (x :: ts)) with (x :: <[i:=t']> ts).
    cbn [total_remaining]. lia.
Qed.

Lemma step_progress w0 s c i c' :
  conc_inv w0 s c ->
  thread_step i c = Some c' ->
  (total_remaining (threads c') < total_remaining (threads c))%nat
  /\ (script (shared c) = [] ->
      (forall j t, threads c !! j = Some t -> failed (t_pc t) = false) ->
      script (shared c') = []
      /\ forall j t, threads c' !! j = Some t -> failed (t_pc t) = false).
Proof.
  intros I Hstep. unfold thread_step in Hstep.
  rewrite (ci_alive _ _ _ I) in Hstep.
  destruct (threads c !! i) as [t|] eqn:Hti; [|discriminate].
  destruct (local_step i t (shared c) (handle_map_mutex c)) as [r|] eqn:Hl;
    [|discriminate].
  destruct (local_step_progress s _ _ _ _ _ (ci_threads _ _ _ I _ _ Hti) Hl)
    as [t' [w' [m' [-> [Hlt Hok]]]]].
  injection Hstep as <-. simpl. split.
  - apply (total_remaining_insert _ _ _ _ Hti Hlt).
  - intros Hsc Hall. destruct (Hok Hsc (Hall _ _ Hti)) as [Hsc' Hf'].
    split; [assumption|]. intros j tj Hj.
    apply list_lookup_insert_Some in Hj.
    destruct Hj as [[_ [<- _]] | [_ Hj]]; [assumption | apply (Hall _ _ Hj)].
Qed.

Lemma run_app s1 s2 c : run (s1 ++ s2) c = run s2 (run s1 c).
Proof. revert c. induction s1 as [|i s1 IH]; intros c; [reflexivity | apply IH]. Qed.

Lemma run_success w0 s sched : forall c,
  conc_inv w0 s c ->
  script (shared c) = [] ->
  (forall j t, threads c !! j = Some t -> failed (t_pc t) = false) ->
  script (shared (run sched c)) = []
  /\ forall j t, threads (run sched c) !! j = Some t -> failed (t_pc t) = false.
Proof.
  induction sched as [|i rest IH]; intros c I Hsc Hall; [auto|].
  simpl. destruct (thread_step i c) as [c'|] eqn:E; simpl.
  - destruct (proj2 (step_progress _ _ _ _ _ I E) Hsc Hall) as [Hsc' Hall'].
    apply (IH _ (step_inv _ _ _ _ _ I E) Hsc' Hall').
  - apply (IH _ I Hsc Hall).
Qed.

(** The thread holding the mutex can always move, and with the mutex free so
    can every thread that has not returned: nothing blocks for ever. *)
Lemma quiescent_all_done w0 s c :
  conc_inv w0 s c ->
  quiescent c ->
  forall i t, threads c !! i = Some t -> exists st, t_pc t = Done st.
Proof.
  intros I Hq i t Hti.
  assert (Hmove : forall k tk, threads c !! k = Some tk ->
            local_step k tk (shared c) (handle_map_mutex c) = None).
  { intros k tk Hk. specialize (Hq k). unfold thread_step in Hq.
    rewrite (ci_alive _ _ _ I), Hk in Hq.
    destruct (local_step _ _ _ _) as [[? ? ?|?]|]; [discriminate.. | reflexivity]. }
  destruct (handle_map_mutex c) as [k|] eqn:Hk.
  - exfalso. destruct (ci_holder _ _ _ I k Hk) as [tk Htk].
    pose proof (ci_threads _ _ _ I _ _ Htk) as [_ Hm _].
    rewrite Hk in Hm. pose proof (proj2 Hm eq_refl) as Hcrit.
    specialize (Hmove _ _ Htk). unfold local_step in Hmove.
    destruct (t_pc tk); simpl in Hcrit; discriminate.
  - pose proof (ci_threads _ _ _ I _ _ Hti) as [_ Hm _].
    rewrite Hk in Hm. specialize (Hmove _ _ Hti). unfold local_step in Hmove.
    destruct (t_pc t) as [ | | | |nh|nh code|node|st]; try discriminate.
    exists st. reflexivity.
Qed.

Lemma quiescent_or_step c :
  quiescent c \/ exists i c', thread_step i c = Some c'.
Proof.
  assert (H : forall n,
    (forall i, (i < n)%nat -> thread_step i c = None)
    \/ exists i c', thread_step i c = Some c').
  { induction n as [|n [IH | IH]]; [left; intros i Hi; lia | | right; exact IH].
    destruct (thread_step n c) as [c'|] eqn:E; [right; eauto|].
    left. intros i Hi. destruct (decide (i = n)) as [->|]; [assumption|].
    apply IH. lia. }
  destruct (H (length (threads c))) as [Hn | Hs]; [left | right; exact Hs].
  intros i. destruct (Nat.lt_ge_cases i (length (threads c))) as [Hi | Hi].
  - apply (Hn _ Hi).
  - unfold thread_step. rewrite (lookup_ge_None_2 _ _ Hi).
    destruct (crashed c); reflexivity.
Qed.

(** Whatever has happened so far, the callers can be run to completion. *)
Lemma run_to_completion w0 s : forall k c,
  conc_inv w0 s c ->
  (total_remaining (threads c) <= k)%nat ->
  exists rest, quiescent (run rest c).
Proof.
  induction k as [|k IH]; intros c I Hk;
    (destruct (quiescent_or_step c) as [Hq | [i [c' E]]];
     [exists []; exact Hq|]);
    pose proof (proj1 (step_progress _ _ _ _ _ I E)) as Hlt.
  - lia.
  - destruct (IH c' (step_inv _ _ _ _ _ I E)) as [rest Hrest]; [lia|].
    exists (i :: rest). simpl. rewrite E. exact Hrest.
Qed.

(** C4. Callers of [CudaSparse::Initialize] for one stream, interleaved in
    any order.  The process never aborts.  A thread is between taking and
    releasing the mutex exactly when it holds it, so at most one thread is in
    the lookup-or-insert part.  At every point at most one live initialized
    entry is bound to any one stream.  The native creations made so far are
    those of callers whose entry did not (or not yet) reach the map, plus one if
    the stream entered the map.  Every caller that returned success refers to
    the entry of the stream.  Nothing blocks for ever: the callers can always be
    run to completion, and when no thread can move all have returned, with
    success if the native library never fails.  Once all callers have returned
    success they all refer to the same entry, the mutex is free, and exactly
    one native creation was made if the stream was not cached before (none
    otherwise). *)
Theorem concurrent_acquire_single_entry
    (w0 : world) (s : N) (n : nat) (sched : list nat) :
  reachable w0 ->
  let c := run sched (start w0 (replicate n s)) in
  crashed c = false
  /\ (forall i t, threads c !! i = Some t ->
        in_critical (t_pc t) = true <-> handle_map_mutex c = Some i)
  /\ (forall i j ti tj,
        threads c !! i = Some ti -> threads c !! j = Some tj ->
        in_critical (t_pc ti) = true -> in_critical (t_pc tj) = true ->
        i = j)
  /\ entries_unique (shared c)
  /\ creates (shared c)
     = (creates w0 + total_pending (threads c)
        + newly_cached s w0 (shared c))%nat
  /\ (forall i t, threads c !! i = Some t -> t_pc t = Done OK ->
        exists l, cm (shared c) !! s = Some l
                  /\ t_this t = CudaSparse.mk true s (Some l))
  /\ (exists rest, quiescent (run rest c))
  /\ (quiescent c ->
      forall i t, threads c !! i = Some t -> exists st, t_pc t = Done st)
  /\ (script w0 = [] -> quiescent c ->
      forall i t, threads c !! i = Some t -> t_pc t = Done OK)
  /\ ((0 < n)%nat ->
      (forall i t, threads c !! i = Some t -> t_pc t = Done OK) ->
      exists l,
        cm (shared c) !! s = Some l
        /\ (forall i t, threads c !! i = Some t ->
              t_this t = CudaSparse.mk true s (Some l))
        /\ handle_map_mutex c = None
        /\ creates (shared c)
           = (creates w0
              + match cm w0 !! s with Some _ => 0 | None => 1 end)%nat).
Proof.
  intros R c.
  pose proof (start_inv w0 s n (reachable_inv _ R)) as I0.
  pose proof (run_inv w0 s sched _ I0) as I. fold c in I.
  pose proof I as [Ha Ht Hh Hi Hg Hu Hc].
  assert (Hdone : forall i t, threads c !! i = Some t -> t_pc t = Done OK ->
            exists l, cm (shared c) !! s = Some l
                      /\ t_this t = CudaSparse.mk true s (Some l)).
  { intros i t Hti Hpc. destruct (Ht _ _ Hti) as [_ _ Hw].
    unfold pc_world in Hw. rewrite Hpc in Hw.
    destruct Hw as [l [Hl Hcm]]. exists l. auto. }
  split; [assumption|].
  split; [intros i t Hti; apply (tok_mutex _ _ _ _ _ (Ht _ _ Hti))|].
  split.
  { intros i j ti tj Hi1 Hj1 Ci Cj.
    apply (tok_mutex _ _ _ _ _ (Ht _ _ Hi1)) in Ci.
    apply (tok_mutex _ _ _ _ _ (Ht _ _ Hj1)) in Cj. congruence. }
  split; [assumption|].
  split; [assumption|].
  split; [assumption|].
  split; [apply (run_to_completion w0 s _ c I (Nat.le_refl _))|].
  split; [apply (quiescent_all_done w0 s c I)|].
  split.
  { intros Hsc Hq i t Hti.
    destruct (quiescent_all_done w0 s c I Hq i t Hti) as [st Hst].
    assert (Hnf : failed (t_pc t) = false).
    { refine (proj2 (run_success w0 s sched _ I0 Hsc _) i t Hti).
      intros j tj Hj. simpl in Hj. apply list_lookup_fmap_Some in Hj.
      destruct Hj as [x [-> _]]. reflexivity. }
    rewrite Hst in *. destruct st; [reflexivity | discriminate]. }
  intros Hn Hall.
  assert (Hlen : length (threads c) = n).
  { subst c. rewrite run_length. simpl.
    rewrite length_fmap. apply length_replicate. }
  destruct (lookup_lt_is_Some_2 (threads c) 0%nat) as [t0 Ht0]; [lia|].
  destruct (Hdone _ _ Ht0 (Hall _ _ Ht0)) as [l [Hl _]].
  exists l. split; [assumption|].
  split.
  { intros i t Hti. destruct (Hdone _ _ Hti (Hall _ _ Hti)) as [l' [Hl' ->]].
    congruence. }
  split.
  { destruct (handle_map_mutex c) as [k|] eqn:Hk; [|reflexivity].
    destruct (Hh _ eq_refl) as [tk Htk].
    pose proof (proj2 (tok_mutex _ _ _ _ _ (Ht _ _ Htk)) eq_refl) as Ck.
    rewrite (Hall _ _ Htk) in Ck. discriminate. }
  rewrite Hc, total_pending_zero.
  - unfold newly_cached. rewrite Hl. destruct (cm w0 !! s); lia.
  - intros i t Hti. unfold pending_creates. rewrite (Hall _ _ Hti).
    reflexivity.
Qed.

Lemma two_callers_threads :
  threads two_callers
  = [Thread (Done OK) (CudaSparse.mk true 5 (Some 2));
     Thread (Done OK) (CudaSparse.mk true 5 (Some 2))].
Proof. vm_compute. reflexivity. Qed.

Lemma concurrent_acquire_single_entry_witness :
  crashed two_callers = false
  /\ creates (shared two_callers) = 1%nat
  /\ exists l,
       cm (shared two_callers) !! 5 = Some l
       /\ forall i t, threads two_callers !! i = Some t ->
            t_this t = CudaSparse.mk true 5 (Some l).
Proof.
  destruct (concurrent_acquire_single_entry (initial_world false []) 5 2
              two_callers_schedule (initial_reachable false []))
    as [Ha [_ [_ [_ [_ [_ [_ [_ [_ Hfin]]]]]]]]].
  split; [exact Ha|].
  destruct Hfin as [l [Hl [Hall [_ Hc]]]].
  - exact (Nat.lt_0_succ 1).
  - intros i t. rewrite two_callers_threads.
    destruct i as [|[|i]]; simpl; intros Hti;
      [injection Hti as <-; reflexivity
      |injection Hti as <-; reflexivity | discriminate Hti].
  - split; [exact Hc|]. exists l. split; [exact Hl | exact Hall].
Defined.

(** * Further properties *)

(** ** Sessions *)

Lemma Coo2csr_spec w obj p e h :
  ndebug w || CudaSparse.initialized_ obj = true ->
  CudaSparse.cusparse_handle_ obj = Some p ->
  heap w !! p = Some e ->
  CudaSparseHandles.cusparse_handle_ e = Some h ->
  CudaSparse_Coo2csr obj w
    = Returns (status_from (next_status w)) (converted h w).
Proof.
  intros Hc Hp He Hh. unfold CudaSparse_Coo2csr, status_from, converted.
  munfold. rewrite Hp. cbn.
  destruct (ndebug w) eqn:End; simpl in Hc.
  - rewrite He. cbn. rewrite Hh. cbn.
    destruct (is_success (next_status w)); reflexivity.
  - rewrite Hc. rewrite He. cbn. rewrite Hh. cbn.
    destruct (is_success (next_status w)); reflexivity.
Qed.

Lemma Coo2csr_Returns w obj st w' :
  CudaSparse_Coo2csr obj w = Returns st w' ->
  exists p e h,
    CudaSparse.cusparse_handle_ obj = Some p
    /\ heap w !! p = Some e
    /\ CudaSparseHandles.cusparse_handle_ e = Some h
    /\ (ndebug w || CudaSparse.initialized_ obj = true)
    /\ st = status_from (next_status w)
    /\ w' = converted h w.
Proof.
  intros H.
  assert (Hc : ndebug w || CudaSparse.initialized_ obj = true).
  { unfold CudaSparse_Coo2csr in H. munfold.
    destruct (ndebug w); [reflexivity|].
    destruct (CudaSparse.initialized_ obj); [reflexivity | discriminate]. }
  destruct (CudaSparse.cusparse_handle_ obj) as [p|] eqn:Hp.
  - destruct (heap w !! p) as [e|] eqn:He.
    + destruct (CudaSparseHandles.cusparse_handle_ e) as [h|] eqn:Hh.
      * rewrite (Coo2csr_spec w obj p e h Hc Hp He Hh) in H.
        injection H as <- <-. exists p, e, h. auto 10.
      * exfalso. unfold CudaSparse_Coo2csr in H. munfold.
        rewrite Hp in H. cbn in H.
        destruct (ndebug w); [| destruct (CudaSparse.initialized_ obj)];
          try discriminate; rewrite He in H; cbn in H; rewrite Hh in H;
          discriminate.
    + exfalso. unfold CudaSparse_Coo2csr in H. munfold.
      rewrite Hp in H. cbn in H.
      destruct (ndebug w); [| destruct (CudaSparse.initialized_ obj)];
        try discriminate; rewrite He in H; discriminate.
  - exfalso. unfold CudaSparse_Coo2csr in H. munfold.
    rewrite Hp in H. cbn in H.
    destruct (ndebug w); [| destruct (CudaSparse.initialized_ obj)];
      discriminate.
Qed.

Lemma converted_inv h w : cache_inv w -> cache_inv (converted h w).
Proof.
  intros [Hf Hn Ho Hh Hd].
  split; [exact Hf | exact Hn | exact Ho | exact Hh |].
  unfold destroys, converted. simpl. rewrite filter_snoc. simpl.
  rewrite length_app. simpl. unfold destroys in Hd. lia.
Qed.

Lemma initial_trace nd sc : trace_inv (initial_world nd sc).
Proof.
  split; simpl.
  - intros h. unfold count. simpl.
    rewrite bool_decide_eq_false_2 by lia. auto.
  - intros h st H. apply elem_of_nil in H. destruct H.
  - intros h s st H. apply elem_of_nil in H. destruct H.
  - intros h s1 st1 s2 st2 H. apply elem_of_nil in H. destruct H.
  - intros s l h H. rewrite lookup_empty in H. discriminate.
  - intros h st H. apply elem_of_nil in H. destruct H.
Qed.

(** The part of the trace invariant that speaks of creation and binding, once
    a handle was created and bound. *)
Lemma trace_created_bound w s st2 cl nh :
  trace_inv w ->
  is_success (next_status w) = true ->
  cl = calls w ++ [CallCreate (Some (next_handle w)) (next_status w);
                   CallSetStream (next_handle w) s st2] ->
  nh = next_handle w + 1 ->
  (forall h,
     length (List.filter (creates_handle h) cl)
       = (if bool_decide (h < nh) then 1%nat else 0%nat)
     /\ length (List.filter (binds_handle h) cl)
       = (if bool_decide (h < nh) then 1%nat else 0%nat))
  /\ (forall h st, CallCreate (Some h) st ∈ cl ->
        h < nh /\ st = CUSPARSE_STATUS_SUCCESS)
  /\ (forall h s' st, CallSetStream h s' st ∈ cl -> h < nh)
  /\ (forall h s1 st1 s2 st2',
        CallSetStream h s1 st1 ∈ cl -> CallSetStream h s2 st2' ∈ cl ->
        s1 = s2 /\ st1 = st2').
Proof.
  intros T S1 -> ->. apply is_success_spec in S1.
  split; [| split; [| split]].
  - intros h. destruct (tr_counts _ T h) as [C B]. unfold count in C, B.
    rewrite !List.filter_app, !length_app, C, B. simpl.
    repeat case_bool_decide; simpl; split; lia.
  - intros h st H. elems.
    + destruct (tr_create _ T _ _ H). split; [lia | assumption].
    + split; [lia | assumption].
  - intros h s' st H. elems.
    + pose proof (tr_bind _ T _ _ _ H). lia.
    + lia.
  - intros h s1 st1 s2 st2' H1 H2. elems;
      try (eapply tr_once; eassumption);
      try (match goal with
           | H : CallSetStream _ _ _ ∈ calls w |- _ =>
               pose proof (tr_bind _ T _ _ _ H); lia
           end);
      auto.
Qed.

Lemma trace_miss_inserted s w :
  cache_inv w -> trace_inv w -> cm w !! s = None ->
  is_success (next_status w) = true ->
  is_success (second_status w) = true ->
  trace_inv (miss_inserted s w).
Proof.
  intros I T Hs S1 S2.
  destruct (trace_created_bound w s (second_status w) _ _ T S1 eq_refl eq_refl)
    as (C & Cr & Bd & On).
  split; [exact C | exact Cr | exact Bd | exact On | |].
  - intros s0 l h Hc Hh. simpl in *.
    destruct (decide (s0 = s)) as [-> | Hne].
    + rewrite lookup_insert_eq in Hc. injection Hc as <-.
      rewrite lookup_insert_eq in Hh. injection Hh as <-.
      apply is_success_spec in S2. rewrite S2.
      apply elem_of_app. right. apply elem_of_cons. right.
      apply elem_of_cons. left. reflexivity.
    + rewrite lookup_insert_ne in Hc by congruence.
      destruct (inv_node _ I _ _ Hc) as (h' & Hl & _).
      pose proof (live_below _ _ _ (inv_fresh _ I) Hl).
      rewrite lookup_insert_ne in Hh by lia.
      apply elem_of_app. left. eapply tr_node; eassumption.
  - intros h st H. simpl in H. elems.
    destruct (tr_use _ T _ _ H) as (s0 & l & Hc & Hh).
    exists s0, l. simpl.
    pose proof (live_below _ _ _ (inv_fresh _ I) Hh).
    rewrite lookup_insert_ne by congruence.
    rewrite lookup_insert_ne by lia. auto.
Qed.

Lemma trace_miss_bind_failed s w :
  trace_inv w ->
  is_success (next_status w) = true ->
  trace_inv (miss_bind_failed s w).
Proof.
  intros T S1.
  destruct (trace_created_bound w s (second_status w) _ _ T S1 eq_refl eq_refl)
    as (C & Cr & Bd & On).
  split; [exact C | exact Cr | exact Bd | exact On | |].
  - intros s0 l h Hc Hh. simpl in *.
    apply elem_of_app. left. eapply tr_node; eassumption.
  - intros h st H. simpl in H. elems.
    exact (tr_use _ T _ _ H).
Qed.

Lemma trace_miss_create_failed s w :
  trace_inv w -> trace_inv (miss_create_failed s w).
Proof.
  intros T. split; simpl.
  - intros h. destruct (tr_counts _ T h) as [C B]. unfold count in *. simpl.
    rewrite !filter_snoc. simpl. rewrite !app_nil_r. auto.
  - intros h st H. elems. exact (tr_create _ T _ _ H).
  - intros h s' st H. elems. exact (tr_bind _ T _ _ _ H).
  - intros h s1 st1 s2 st2 H1 H2. elems. eapply tr_once; eassumption.
  - intros s0 l h Hc Hh. apply elem_of_app. left. eapply tr_node; eassumption.
  - intros h st H. elems. exact (tr_use _ T _ _ H).
Qed.

Lemma trace_converted h w s l :
  trace_inv w ->
  cm w !! s = Some l ->
  heap w !! l = Some (CudaSparseHandles.mk true s (Some h)) ->
  trace_inv (converted h w).
Proof.
  intros T Hc Hh. split; simpl.
  - intros h0. destruct (tr_counts _ T h0) as [C B]. unfold count in *. simpl.
    rewrite !filter_snoc. simpl. rewrite !app_nil_r. auto.
  - intros h0 st H. elems. exact (tr_create _ T _ _ H).
  - intros h0 s' st H. elems. exact (tr_bind _ T _ _ _ H).
  - intros h0 s1 st1 s2 st2 H1 H2. elems. eapply tr_once; eassumption.
  - intros s0 l0 h0 Hc0 Hh0. apply elem_of_app. left.
    eapply tr_node; eassumption.
  - intros h0 st H. elems.
    + exact (tr_use _ T _ _ H).
    + exists s, l. auto.
Qed.

Lemma acquire_result_trace s w r w' :
  cache_inv w -> trace_inv w -> acquire_result s w r w' -> trace_inv w'.
Proof.
  intros I T [l Hl | Hs S1 S2 | Hs S1 S2 | Hs S1].
  - exact T.
  - apply trace_miss_inserted; assumption.
  - apply trace_miss_bind_failed; assumption.
  - apply trace_miss_create_failed; assumption.
Qed.

(** The entry a live object is, under the invariant. *)
Lemma live_is_node w l e :
  cache_inv w -> heap w !! l = Some e ->
  exists h, e = CudaSparseHandles.mk true (CudaSparseHandles.stream_ e) (Some h)
            /\ cm w !! CudaSparseHandles.stream_ e = Some l.
Proof.
  intros I He. destruct (entry_handle_below _ _ _ I He) as (h & E & _).
  exists h. split; [exact E | exact (inv_owner _ I _ _ He)].
Qed.

Lemma extends_refl w : extends w w.
Proof. exists []. symmetry. apply app_nil_r. Qed.

Lemma extends_trans w1 w2 w3 : extends w1 w2 -> extends w2 w3 -> extends w1 w3.
Proof.
  intros [e1 H1] [e2 H2]. exists (e1 ++ e2). rewrite H2, H1.
  symmetry. apply app_assoc.
Qed.

Lemma acquire_result_extends s w r w' :
  acquire_result s w r w' -> extends w w' /\ ndebug w' = ndebug w.
Proof.
  intros [l Hl | Hs S1 S2 | Hs S1 S2 | Hs S1]; (split; [| reflexivity]).
  - apply extends_refl.
  - eexists. reflexivity.
  - eexists. reflexivity.
  - eexists. reflexivity.
Qed.

Lemma later_ok w w' :
  cache_inv w -> trace_inv w -> later w w' -> step_ok w w'.
Proof.
  intros I T L. induction L as [| w1 s r w2 L IH A | w1 obj st w2 L IH U].
  - split; [assumption | assumption | apply grows_refl | apply extends_refl
           | reflexivity].
  - destruct IH as [I1 T1 G1 E1 B1].
    destruct (acquire_inv _ _ _ _ I1 A) as (R & I2 & G2).
    destruct (acquire_result_extends _ _ _ _ R) as [E2 B2].
    split.
    + exact I2.
    + exact (acquire_result_trace _ _ _ _ I1 T1 R).
    + eapply grows_trans; eassumption.
    + eapply extends_trans; eassumption.
    + congruence.
  - destruct IH as [I1 T1 G1 E1 B1].
    destruct (Coo2csr_Returns _ _ _ _ U) as (p & e & h & Hp & He & Hh & _ & _ & ->).
    destruct (live_is_node _ _ _ I1 He) as (h' & Ee & Hc).
    assert (h' = h) as ->.
    { rewrite Ee in Hh. simpl in Hh. congruence. }
    split.
    + apply converted_inv. exact I1.
    + eapply trace_converted; [exact T1 | exact Hc |]. rewrite He, Ee at 1.
      reflexivity.
    + exact G1.
    + eapply extends_trans; [exact E1 |]. eexists. reflexivity.
    + exact B1.
Qed.

Lemma session_ok w : session w -> cache_inv w /\ trace_inv w.
Proof.
  intros (nd & sc & L).
  destruct (later_ok _ _ (initial_inv nd sc) (initial_trace nd sc) L).
  auto.
Qed.

Lemma later_trans w1 w2 w3 : later w1 w2 -> later w2 w3 -> later w1 w3.
Proof.
  intros L1 L2. induction L2.
  - exact L1.
  - eapply later_acquire; eassumption.
  - eapply later_use; eassumption.
Qed.

Lemma session_later w w' : session w -> later w w' -> session w'.
Proof.
  intros (nd & sc & L) L'. exists nd, sc. eapply later_trans; eassumption.
Qed.

Lemma later_acquires streams : forall w rs w',
  acquires streams w = Returns rs w' -> later w w'.
Proof.
  induction streams as [|s rest IH]; intros w rs w' H.
  - injection H as <- <-. apply later_refl.
  - simpl in H. unfold mbind, M_bind, bind in H.
    destruct (acquire s w) as [r w1| |] eqn:A; try discriminate.
    destruct (acquires rest w1) as [rs1 w2| |] eqn:B; try discriminate.
    injection H as <- <-.
    eapply later_trans; [| eapply IH; exact B].
    eapply later_acquire; [apply later_refl | exact A].
Qed.

Lemma initial_session nd sc : session (initial_world nd sc).
Proof. exists nd, sc. apply later_refl. Qed.

Lemma later_one_acquire w s r w' :
  acquire s w = Returns r w' -> later w (world_of (acquire s w)).
Proof.
  intros H. eapply later_acquire; [apply later_refl |]. rewrite H. reflexivity.
Qed.

Lemma after_first_acquire_session : session after_first_acquire.
Proof.
  eapply session_later; [apply (initial_session false []) |].
  eapply (later_one_acquire _ 5). vm_compute. reflexivity.
Qed.

(** What one acquisition reports and what it leaves alone. *)
Lemma acquire_result_facts s w r w' :
  cache_inv w -> acquire_result s w r w' ->
  (is_ok r = true <-> is_Some (cm w' !! s))
  /\ CudaSparse.initialized_ (snd r) = is_ok r
  /\ CudaSparse.cuda_stream_ (snd r) = s
  /\ (is_ok r = true ->
      exists l, CudaSparse.cusparse_handle_ (snd r) = Some l
                /\ cm w' !! s = Some l)
  /\ (forall s', s' <> s -> cm w' !! s' = cm w !! s')
  /\ (forall l e, heap w' !! l = Some e ->
        heap w !! l = Some e
        \/ (CudaSparseHandles.stream_ e = s /\ cm w !! s = None)).
Proof.
  intros I [l Hl | Hs S1 S2 | Hs S1 S2 | Hs S1]; unfold is_ok; simpl.
  - rewrite Hl. split; [split; eauto |]. split; [reflexivity |].
    split; [reflexivity |]. split; [eauto |]. split; auto.
  - rewrite lookup_insert_eq. split; [split; eauto |].
    split; [reflexivity |]. split; [reflexivity |]. split; [eauto |].
    split.
    + intros s' Hne. apply lookup_insert_ne. congruence.
    + intros l e He.
      destruct (decide (l = next_loc w + 2)) as [-> | Hne].
      * rewrite lookup_insert_eq in He. injection He as <-. right. auto.
      * rewrite lookup_insert_ne in He by congruence. left. exact He.
  - rewrite Hs. split; [split; [discriminate | intros [? ?]; discriminate] |].
    split; [reflexivity |]. split; [reflexivity |].
    split; [discriminate |]. split; auto.
  - rewrite Hs. split; [split; [discriminate | intros [? ?]; discriminate] |].
    split; [reflexivity |]. split; [reflexivity |].
    split; [discriminate |]. split; auto.
Qed.

Lemma acquires_cons s rest w r w1 rs w2 :
  acquire s w = Returns r w1 ->
  acquires rest w1 = Returns rs w2 ->
  acquires (s :: rest) w = Returns (r :: rs) w2.
Proof.
  intros A B. simpl. unfold mbind, M_bind, bind. rewrite A, B. reflexivity.
Qed.

Lemma acquires_cons_inv s rest w rs w2 :
  acquires (s :: rest) w = Returns rs w2 ->
  exists r w1 rs1,
    acquire s w = Returns r w1 /\ acquires rest w1 = Returns rs1 w2
    /\ rs = r :: rs1.
Proof.
  intros H. simpl in H. unfold mbind, M_bind, bind in H.
  destruct (acquire s w) as [r w1| |] eqn:A; try discriminate.
  destruct (acquires rest w1) as [rs1 w2'| |] eqn:B; try discriminate.
  injection H as <- <-. eauto 10.
Qed.

Lemma acquires_results streams : forall w rs w',
  cache_inv w -> acquires streams w = Returns rs w' ->
  Forall2 (fun s r => CudaSparse.cuda_stream_ (snd r) = s
                      /\ CudaSparse.initialized_ (snd r) = is_ok r)
          streams rs.
Proof.
  induction streams as [|s rest IH]; intros w rs w' I H.
  - injection H as <- <-. constructor.
  - destruct (acquires_cons_inv _ _ _ _ _ H) as (r & w1 & rs1 & A & B & ->).
    destruct (acquire_inv _ _ _ _ I A) as (R & I1 & _).
    destruct (acquire_result_facts _ _ _ _ I R) as (_ & Hi & Hs & _).
    constructor; [auto | eapply IH; eassumption].
Qed.

(** X1. In a process that started with an empty cache and has since only
    called [CudaSparse::Initialize] on fresh objects and [CudaSparse::Coo2csr],
    any further sequence of [CudaSparse::Initialize] calls returns: no [DCHECK]
    fails and no invalid pointer is followed, in either build and whatever the
    native library answers.  Each call yields an object for the stream asked
    for, which is marked initialized exactly when the status is OK. *)
Theorem session_acquisitions_return (w : world) (streams : list N) :
  session w ->
  exists rs w',
    acquires streams w = Returns rs w'
    /\ session w'
    /\ Forall2 (fun s r => CudaSparse.cuda_stream_ (snd r) = s
                           /\ CudaSparse.initialized_ (snd r) = is_ok r)
               streams rs.
Proof.
  intros S. destruct (session_ok _ S) as [I _].
  destruct (acquires_total streams w I) as (rs & w' & A).
  exists rs, w'. split; [exact A |]. split.
  - eapply session_later; [exact S | eapply later_acquires; exact A].
  - eapply acquires_results; eassumption.
Qed.

Lemma session_acquisitions_return_witness :
  exists rs w',
    acquires [5; 7; 5] (initial_world false [0%Z; 3%Z]) = Returns rs w'
    /\ session w'
    /\ Forall2 (fun s r => CudaSparse.cuda_stream_ (snd r) = s
                           /\ CudaSparse.initialized_ (snd r) = is_ok r)
               [5; 7; 5] rs.
Proof.
  apply (session_acquisitions_return (initial_world false [0%Z; 3%Z]) [5; 7; 5]).
  apply initial_session.
Defined.

Lemma no_destroy_elem (l : list native_call) :
  length (List.filter is_destroy l) = 0%nat ->
  forall h st, CallDestroy h st ∉ l.
Proof.
  induction l as [|c l IH]; intros H h st Hin.
  - apply elem_of_nil in Hin. exact Hin.
  - apply elem_of_cons in Hin. destruct Hin as [<- | Hin].
    + simpl in H. discriminate.
    + simpl in H. destruct (is_destroy c); [discriminate |].
      exact (IH H h st Hin).
Qed.

Lemma filter_elem {A} (f : A -> bool) (l : list A) :
  length (List.filter f l) <> 0%nat -> exists x, x ∈ l /\ f x = true.
Proof.
  induction l as [|c l IH]; intros H.
  - simpl in H. congruence.
  - simpl in H. destruct (f c) eqn:E.
    + exists c. split; [apply elem_of_cons; auto | exact E].
    + destruct (IH H) as (x & Hx & Fx). exists x.
      split; [apply elem_of_cons; auto | exact Fx].
Qed.

(** X2. Every library context that [cusparseCreate] handed out in a session
    was created once and passed to [cusparseSetStream] once, with one stream,
    whether or not that call succeeded; contexts not handed out yet occur in
    no such call; and no context is ever passed to [cusparseDestroy], not even
    the one whose [cusparseSetStream] failed. *)
Theorem session_handle_lifecycle (w : world) (h : N) :
  session w ->
  count (creates_handle h) w
    = (if bool_decide (h < next_handle w) then 1%nat else 0%nat)
  /\ count (binds_handle h) w = count (creates_handle h) w
  /\ (forall st, CallCreate (Some h) st ∈ calls w ->
        st = CUSPARSE_STATUS_SUCCESS)
  /\ (forall s1 st1 s2 st2,
        CallSetStream h s1 st1 ∈ calls w -> CallSetStream h s2 st2 ∈ calls w ->
        s1 = s2 /\ st1 = st2)
  /\ (forall st, CallDestroy h st ∉ calls w).
Proof.
  intros S. destruct (session_ok _ S) as [I T].
  destruct (tr_counts _ T h) as [C B].
  split; [exact C |]. split; [congruence |]. split.
  - intros st H. exact (proj2 (tr_create _ T _ _ H)).
  - split; [exact (tr_once _ T h) |].
    intros st. apply no_destroy_elem. exact (inv_no_destroy _ I).
Qed.

Lemma session_handle_lifecycle_witness :
  count (creates_handle 0) (world_of (acquire 5 (initial_world false [0%Z; 3%Z])))
    = 1%nat
  /\ count (binds_handle 0) (world_of (acquire 5 (initial_world false [0%Z; 3%Z])))
    = 1%nat
  /\ cm (world_of (acquire 5 (initial_world false [0%Z; 3%Z]))) = ∅.
Proof.
  assert (S : session (world_of (acquire 5 (initial_world false [0%Z; 3%Z])))).
  { eapply session_later; [apply (initial_session false [0%Z; 3%Z]) |].
    eapply (later_one_acquire _ 5). vm_compute. reflexivity. }
  destruct (session_handle_lifecycle _ 0 S) as (C & B & _).
  split; [| split].
  - rewrite C. vm_compute. reflexivity.
  - rewrite B, C. vm_compute. reflexivity.
  - vm_compute. reflexivity.
Defined.

Lemma created_elem w h :
  trace_inv w -> h < next_handle w ->
  CallCreate (Some h) CUSPARSE_STATUS_SUCCESS ∈ calls w.
Proof.
  intros T Hlt. destruct (tr_counts _ T h) as [C _].
  rewrite bool_decide_eq_true_2 in C by exact Hlt.
  destruct (filter_elem (creates_handle h) (calls w)) as (c & Hc & Fc).
  { unfold count in C. rewrite C. discriminate. }
  destruct c as [[h'|] st | | |]; simpl in Fc; try discriminate.
  apply bool_decide_eq_true in Fc. subst h'.
  destruct (tr_create _ T _ _ Hc) as [_ ->]. exact Hc.
Qed.

(** X3. An entry of the handle map is an initialized object bound to the
    stream it is registered under, and its library context is one that
    [cusparseCreate] returned with success and that [cusparseSetStream] bound,
    with success, to that stream and to no other; no other entry of the map
    holds the same context. *)
Theorem cached_handle_provenance (w : world) (s l : N) :
  session w ->
  cm w !! s = Some l ->
  exists h,
    heap w !! l = Some (CudaSparseHandles.mk true s (Some h))
    /\ CallCreate (Some h) CUSPARSE_STATUS_SUCCESS ∈ calls w
    /\ CallSetStream h s CUSPARSE_STATUS_SUCCESS ∈ calls w
    /\ (forall s' st', CallSetStream h s' st' ∈ calls w ->
          s' = s /\ st' = CUSPARSE_STATUS_SUCCESS)
    /\ (forall s' l',
          cm w !! s' = Some l' ->
          heap w !! l' = Some (CudaSparseHandles.mk true s' (Some h)) ->
          s' = s /\ l' = l).
Proof.
  intros S Hc. destruct (session_ok _ S) as [I T].
  destruct (inv_node _ I _ _ Hc) as (h & Hh & Hlt).
  pose proof (tr_node _ T _ _ _ Hc Hh) as Hb.
  exists h. split; [exact Hh |]. split; [exact (created_elem _ _ T Hlt) |].
  split; [exact Hb |]. split.
  - intros s' st' H. destruct (tr_once _ T _ _ _ _ _ H Hb). auto.
  - intros s' l' Hc' Hh'.
    assert (l' = l) as -> by (eapply (inv_handles _ I); eauto).
    split; [| reflexivity]. rewrite Hh in Hh'. congruence.
Qed.

Lemma cached_handle_provenance_witness :
  exists h,
    heap after_first_acquire !! 2 = Some (CudaSparseHandles.mk true 5 (Some h))
    /\ CallCreate (Some h) CUSPARSE_STATUS_SUCCESS ∈ calls after_first_acquire
    /\ CallSetStream h 5 CUSPARSE_STATUS_SUCCESS ∈ calls after_first_acquire.
Proof.
  assert (C : cm after_first_acquire !! 5 = Some 2) by (vm_compute; reflexivity).
  destruct (cached_handle_provenance _ 5 2 after_first_acquire_session C)
    as (h & H1 & H2 & H3 & _).
  exists h. auto.
Defined.

(** X4. Every [cusparseXcoo2csr] call a session made went through the library
    context of an entry that is in the handle map, bound with success to the
    stream the entry is registered under. *)
Theorem conversions_use_cached_handles (w : world) (h : N) (st : Z) :
  session w ->
  CallXcoo2csr h st ∈ calls w ->
  exists s l,
    cm w !! s = Some l
    /\ heap w !! l = Some (CudaSparseHandles.mk true s (Some h))
    /\ CallSetStream h s CUSPARSE_STATUS_SUCCESS ∈ calls w.
Proof.
  intros S H. destruct (session_ok _ S) as [I T].
  destruct (tr_use _ T _ _ H) as (s & l & Hc & Hh).
  exists s, l. split; [exact Hc |]. split; [exact Hh |].
  eapply tr_node; eassumption.
Qed.

Lemma conversions_use_cached_handles_witness :
  exists s l,
    cm (converted 0 after_first_acquire) !! s = Some l
    /\ heap (converted 0 after_first_acquire) !! l
       = Some (CudaSparseHandles.mk true s (Some 0)).
Proof.
  destruct (conversions_use_cached_handles (converted 0 after_first_acquire)
              0 0%Z) as (s & l & H1 & H2 & _).
  - eapply session_later; [apply after_first_acquire_session |].
    eapply (later_use _ _ (CudaSparse.mk true 5 (Some 2)) OK);
      [apply later_refl |].
    vm_compute. reflexivity.
  - unfold converted, native_step. cbn [calls].
    apply elem_of_app. right. apply list_elem_of_singleton. reflexivity.
  - exists s, l. auto.
Defined.

(** X5. An object that [CudaSparse::Initialize] returned with OK stays usable:
    after any further acquisitions and conversions, [CudaSparse::Coo2csr] on it
    returns in either build, makes exactly one native call, on the context that
    was bound to the object's stream, returns OK exactly when that call
    succeeds, leaves map and store unchanged, and a new acquisition of the
    stream afterwards still yields the same object. *)
Theorem use_after_acquire
    (w0 w1 w2 : world) (s : N) (obj : CudaSparse.t) :
  session w0 ->
  acquire s w0 = Returns (OK, obj) w1 ->
  later w1 w2 ->
  exists l h,
    obj = CudaSparse.mk true s (Some l)
    /\ cm w2 !! s = Some l
    /\ heap w2 !! l = Some (CudaSparseHandles.mk true s (Some h))
    /\ CallSetStream h s CUSPARSE_STATUS_SUCCESS ∈ calls w2
    /\ CudaSparse_Coo2csr obj w2
       = Returns (status_from (next_status w2)) (converted h w2)
    /\ calls (converted h w2) = calls w2 ++ [CallXcoo2csr h (next_status w2)]
    /\ cm (converted h w2) = cm w2
    /\ heap (converted h w2) = heap w2
    /\ acquire s (converted h w2) = Returns (OK, obj) (converted h w2).
Proof.
  intros S A L. destruct (session_ok _ S) as [I0 T0].
  destruct (acquire_inv _ _ _ _ I0 A) as (R & I1 & _).
  pose proof (acquire_result_trace _ _ _ _ I0 T0 R) as T1.
  destruct (acquire_ok_entry _ _ _ _ R) as (l & -> & Hc1).
  destruct (later_ok _ _ I1 T1 L) as [I2 T2 [Gc Gh] _ _].
  assert (Hc2 : cm w2 !! s = Some l).
  { eapply lookup_weaken; eassumption. }
  destruct (inv_node _ I2 _ _ Hc2) as (h & Hh & _).
  exists l, h. split; [reflexivity |]. split; [exact Hc2 |].
  split; [exact Hh |]. split; [eapply tr_node; eassumption |].
  split.
  - eapply Coo2csr_spec; [apply orb_true_r | reflexivity | exact Hh | reflexivity].
  - split; [reflexivity |]. split; [reflexivity |]. split; [reflexivity |].
    apply acquire_cached_spec; [apply converted_inv; exact I2 | exact Hc2].
Qed.

Lemma use_after_acquire_witness :
  exists l h,
    CudaSparse.mk true 5 (Some 2) = CudaSparse.mk true 5 (Some l)
    /\ heap (world_of (acquire 7 after_first_acquire)) !! l
       = Some (CudaSparseHandles.mk true 5 (Some h))
    /\ CudaSparse_Coo2csr (CudaSparse.mk true 5 (Some 2))
         (world_of (acquire 7 after_first_acquire))
       = Returns (status_from (next_status (world_of (acquire 7 after_first_acquire))))
           (converted h (world_of (acquire 7 after_first_acquire))).
Proof.
  destruct (use_after_acquire (initial_world false []) after_first_acquire
              (world_of (acquire 7 after_first_acquire)) 5
              (CudaSparse.mk true 5 (Some 2)))
    as (l & h & E & _ & Hh & _ & U & _).
  - apply initial_session.
  - vm_compute. reflexivity.
  - eapply (later_one_acquire _ 7). vm_compute. reflexivity.
  - exists l, h. auto.
Defined.

(** X6. Whatever a session does later, the handle map and the store only
    grow, entries keep their content, the trace of native calls is only
    extended, and a stream that was cached is still served from the same
    entry. *)
Theorem session_only_grows (w w' : world) :
  session w ->
  later w w' ->
  session w'
  /\ cm w ⊆ cm w'
  /\ heap w ⊆ heap w'
  /\ (exists ext, calls w' = calls w ++ ext)
  /\ ndebug w' = ndebug w
  /\ (forall s l, cm w !! s = Some l ->
        acquire s w' = Returns (OK, CudaSparse.mk true s (Some l)) w').
Proof.
  intros S L. destruct (session_ok _ S) as [I T].
  destruct (later_ok _ _ I T L) as [I' T' [Gc Gh] E B].
  split; [eapply session_later; eassumption |].
  split; [exact Gc |]. split; [exact Gh |]. split; [exact E |].
  split; [exact B |].
  intros s l Hc. apply acquire_cached_spec; [exact I' |].
  eapply lookup_weaken; eassumption.
Qed.

Lemma session_only_grows_witness :
  session (world_of (acquire 7 after_first_acquire))
  /\ cm after_first_acquire ⊆ cm (world_of (acquire 7 after_first_acquire))
  /\ heap after_first_acquire ⊆ heap (world_of (acquire 7 after_first_acquire)).
Proof.
  destruct (session_only_grows after_first_acquire
              (world_of (acquire 7 after_first_acquire)))
    as (H1 & H2 & H3 & _).
  - apply after_first_acquire_session.
  - eapply (later_one_acquire _ 7). vm_compute. reflexivity.
  - auto.
Defined.

(** X7. [CudaSparse::Initialize] reports OK exactly when the stream is in the
    map afterwards; the object is marked initialized exactly then, and then
    refers to the entry of its stream.  The entries of all other streams and
    all live objects are left as they were, and any object that is new belongs
    to the stream asked for, which was not cached before. *)
Theorem acquire_status_and_frame
    (w w' : world) (s : N) (r : Status * CudaSparse.t) :
  session w ->
  acquire s w = Returns r w' ->
  (is_ok r = true <-> is_Some (cm w' !! s))
  /\ CudaSparse.initialized_ (snd r) = is_ok r
  /\ CudaSparse.cuda_stream_ (snd r) = s
  /\ (is_ok r = true ->
      exists l, CudaSparse.cusparse_handle_ (snd r) = Some l
                /\ cm w' !! s = Some l)
  /\ (forall s', s' <> s -> cm w' !! s' = cm w !! s')
  /\ (forall l e, heap w !! l = Some e -> heap w' !! l = Some e)
  /\ (forall l e, heap w' !! l = Some e ->
        heap w !! l = Some e
        \/ (CudaSparseHandles.stream_ e = s /\ cm w !! s = None)).
Proof.
  intros S A. destruct (session_ok _ S) as [I _].
  destruct (acquire_inv _ _ _ _ I A) as (R & _ & [_ Gh]).
  destruct (acquire_result_facts _ _ _ _ I R) as (F1 & F2 & F3 & F4 & F5 & F6).
  split; [exact F1 |]. split; [exact F2 |]. split; [exact F3 |].
  split; [exact F4 |]. split; [exact F5 |]. split; [| exact F6].
  intros l e He. eapply lookup_weaken; eassumption.
Qed.

Lemma acquire_status_and_frame_witness :
  (is_ok (Internal 3, CudaSparse_ctor 7) = true
   <-> is_Some (cm (world_of (acquire 7 (initial_world false [0%Z; 3%Z]))) !! 7))
  /\ forall s', s' <> 7 ->
       cm (world_of (acquire 7 (initial_world false [0%Z; 3%Z]))) !! s'
       = cm (initial_world false [0%Z; 3%Z]) !! s'.
Proof.
  destruct (acquire_status_and_frame (initial_world false [0%Z; 3%Z])
              (world_of (acquire 7 (initial_world false [0%Z; 3%Z]))) 7
              (Internal 3, CudaSparse_ctor 7))
    as (H1 & _ & _ & _ & H5 & _).
  - apply initial_session.
  - vm_compute. reflexivity.
  - auto.
Defined.

Lemma errors_cons r rs :
  errors (r :: rs) = ((if is_ok r then 0 else 1) + errors rs)%nat.
Proof. unfold errors. simpl. destruct (is_ok r); reflexivity. Qed.

Lemma acquire_result_account s w r w' :
  cache_inv w -> acquire_result s w r w' ->
  (creates w' + size (cm w)
   = creates w + size (cm w') + (if is_ok r then 0 else 1))%nat
  /\ (length (logs w') + creates w = length (logs w) + creates w')%nat
  /\ (size (heap w') + size (cm w) = size (heap w) + size (cm w'))%nat.
Proof.
  intros I [l Hl | Hs S1 S2 | Hs S1 S2 | Hs S1]; unfold is_ok; cbn [fst].
  - lia.
  - rewrite creates_miss_inserted. unfold miss_inserted. cbn [cm heap logs].
    rewrite length_app. cbn [length].
    rewrite (map_size_insert_None s _ (cm w) Hs).
    rewrite map_size_insert_None by (apply (inv_fresh _ I); lia).
    lia.
  - rewrite creates_miss_bind_failed. unfold miss_bind_failed.
    cbn [cm heap logs]. rewrite length_app. cbn [length]. lia.
  - rewrite creates_miss_create_failed. unfold miss_create_failed.
    cbn [cm heap logs]. rewrite length_app. cbn [length]. lia.
Qed.

Lemma acquires_account streams : forall w rs w',
  cache_inv w -> acquires streams w = Returns rs w' ->
  (creates w' + size (cm w) = creates w + size (cm w') + errors rs)%nat
  /\ (length (logs w') + creates w = length (logs w) + creates w')%nat
  /\ (size (heap w') + size (cm w) = size (heap w) + size (cm w'))%nat.
Proof.
  induction streams as [|s rest IH]; intros w rs w' I H.
  - injection H as <- <-. unfold errors. simpl. lia.
  - destruct (acquires_cons_inv _ _ _ _ _ H) as (r & w1 & rs1 & A & B & ->).
    destruct (acquire_inv _ _ _ _ I A) as (R & I1 & _).
    destruct (acquire_result_account _ _ _ _ I R) as (C1 & L1 & S1).
    destruct (IH _ _ _ I1 B) as (C2 & L2 & S2).
    rewrite errors_cons. lia.
Qed.

(** X8. From the start of the process, the number of [cusparseCreate] calls
    is the number of cached streams plus the number of acquisitions that
    returned an error; one line was logged per creation; the store holds as
    many objects as the map has entries, so no local or temporary object
    survives a call; and every acquisition returned a result. *)
Theorem history_accounting
    (nd : bool) (sc : list Z) (streams : list N)
    (rs : list (Status * CudaSparse.t)) (w : world) :
  acquires streams (initial_world nd sc) = Returns rs w ->
  creates w = (size (cm w) + errors rs)%nat
  /\ length (logs w) = creates w
  /\ size (heap w) = size (cm w)
  /\ length rs = length streams.
Proof.
  intros H.
  destruct (acquires_account _ _ _ _ (initial_inv nd sc) H) as (C & L & S).
  pose proof (Forall2_length _ _ _ (acquires_results _ _ _ _ (initial_inv nd sc) H)).
  assert (E1 : size (cm (initial_world nd sc)) = 0%nat) by apply map_size_empty.
  assert (E2 : size (heap (initial_world nd sc)) = 0%nat) by apply map_size_empty.
  assert (E3 : creates (initial_world nd sc) = 0%nat) by reflexivity.
  assert (E4 : length (logs (initial_world nd sc)) = 0%nat) by reflexivity.
  rewrite E1, E3 in C. rewrite E3, E4 in L. rewrite E1, E2 in S.
  repeat split; lia.
Qed.

Lemma history_accounting_witness :
  creates (world_of (acquires [5; 7; 5; 7] (initial_world false [0%Z; 0%Z; 3%Z])))
  = Nat.add (size (cm (world_of (acquires [5; 7; 5; 7]
                                  (initial_world false [0%Z; 0%Z; 3%Z])))))
            1.
Proof.
  destruct (history_accounting false [0%Z; 0%Z; 3%Z] [5; 7; 5; 7]
              [(OK, CudaSparse.mk true 5 (Some 2));
               (Internal 3, CudaSparse_ctor 7);
               (OK, CudaSparse.mk true 5 (Some 2));
               (OK, CudaSparse.mk true 7 (Some 6))]
              (world_of (acquires [5; 7; 5; 7]
                           (initial_world false [0%Z; 0%Z; 3%Z]))))
    as (C & _).
  - vm_compute. reflexivity.
  - exact C.
Defined.

Lemma acquire_result_domain s0 w r w' s :
  acquire_result s0 w r w' ->
  is_Some (cm w' !! s) <-> is_Some (cm w !! s) \/ (s = s0 /\ is_ok r = true).
Proof.
  intros [l Hl | Hs S1 S2 | Hs S1 S2 | Hs S1]; unfold is_ok; simpl.
  - split; [auto |]. intros [H | [-> _]]; [exact H | eauto].
  - destruct (decide (s = s0)) as [-> | Hne].
    + rewrite lookup_insert_eq. split; [auto | eauto].
    + rewrite lookup_insert_ne by congruence.
      split; [auto |]. intros [H | [E _]]; [exact H | contradiction].
  - split; [auto |]. intros [H | [_ E]]; [exact H | discriminate].
  - split; [auto |]. intros [H | [_ E]]; [exact H | discriminate].
Qed.

Lemma acquires_domain streams : forall w rs w' s,
  cache_inv w -> acquires streams w = Returns rs w' ->
  is_Some (cm w' !! s) <->
  is_Some (cm w !! s)
  \/ exists i r, streams !! i = Some s /\ rs !! i = Some r /\ is_ok r = true.
Proof.
  induction streams as [|s0 rest IH]; intros w rs w' s I H.
  - injection H as <- <-. split; [auto |].
    intros [H | (i & r & Hi & _)]; [exact H |].
    rewrite lookup_nil in Hi. discriminate.
  - destruct (acquires_cons_inv _ _ _ _ _ H) as (r & w1 & rs1 & A & B & ->).
    destruct (acquire_inv _ _ _ _ I A) as (R & I1 & _).
    rewrite (IH _ _ _ s I1 B), (acquire_result_domain _ _ _ _ s R).
    split.
    + intros [[Hc | [-> Hok]] | (i & r' & Hi & Hr & Hok)].
      * left. exact Hc.
      * right. exists 0%nat, r. auto.
      * right. exists (S i), r'. auto.
    + intros [Hc | (i & r' & Hi & Hr & Hok)].
      * left. left. exact Hc.
      * destruct i as [|i]; simpl in Hi, Hr.
        -- injection Hi as ->. injection Hr as ->. left. right. auto.
        -- right. exists i, r'. auto.
Qed.

(** X9. From the start of the process, a stream is in the handle map exactly
    when some acquisition of that stream returned OK. *)
Theorem cached_iff_acquired
    (nd : bool) (sc : list Z) (streams : list N)
    (rs : list (Status * CudaSparse.t)) (w : world) (s : N) :
  acquires streams (initial_world nd sc) = Returns rs w ->
  is_Some (cm w !! s) <->
  exists i r, streams !! i = Some s /\ rs !! i = Some r /\ is_ok r = true.
Proof.
  intros H. rewrite (acquires_domain _ _ _ _ s (initial_inv nd sc) H).
  split; [| auto]. intros [[x Hx] | Hr]; [| exact Hr].
  simpl in Hx. rewrite lookup_empty in Hx. discriminate.
Qed.

Lemma cached_iff_acquired_witness :
  is_Some (cm (world_of (acquires [5; 7] (initial_world false [0%Z; 0%Z; 3%Z])))
             !! 7)
  <-> exists i r,
        [5; 7] !! i = Some 7
        /\ [(OK, CudaSparse.mk true 5 (Some 2)); (Internal 3, CudaSparse_ctor 7)]
             !! i = Some r
        /\ is_ok r = true.
Proof.
  apply (cached_iff_acquired false [0%Z; 0%Z; 3%Z] [5; 7]
           [(OK, CudaSparse.mk true 5 (Some 2)); (Internal 3, CudaSparse_ctor 7)]
           (world_of (acquires [5; 7] (initial_world false [0%Z; 0%Z; 3%Z]))) 7).
  vm_compute. reflexivity.
Defined.

(** ** The class invariant of [CudaSparseHandles] *)



Lemma store_ok_native ev w : store_ok w -> store_ok (native_step ev w).
Proof. intros H. exact H. Qed.

Lemma store_ok_fresh_handle w : store_ok w -> store_ok (fresh_handle w).
Proof. intros H. exact H. Qed.














Lemma creates_native ev w :
  creates (native_step ev w)
  = (creates w + if is_create ev then 1 else 0)%nat.
Proof.
  unfold creates. simpl. rewrite filter_snoc, length_app.
  destruct (is_create ev); reflexivity.
Qed.

Lemma Initialize_creates w this e :
  heap w !! this = Some e ->
  CudaSparseHandles.initialized_ e = false ->
  creates (world_of (CudaSparseHandles_Initialize this w)) = S (creates w).
Proof.
  intros He Ei. rewrite (Initialize_uninitialized _ _ _ He Ei).
  assert (Hc : forall a, creates (native_step (CallCreate a (next_status w)) w)
                         = S (creates w)).
  { intros a. rewrite creates_native. simpl. lia. }
  destruct (is_success (next_status w)).
  - destruct (is_success (next_status (created this e w))); simpl;
      unfold creates in *; simpl; rewrite filter_snoc, length_app; simpl;
      rewrite Nat.add_0_r; apply (Hc (Some (next_handle w))).
  - simpl. apply (Hc None).
Qed.

(** X11. [CudaSparseHandles::Initialize] returns OK exactly when it leaves the
    object marked initialized; it never changes the stream of the object nor
    any other object.  After OK a second call is a no-op that returns OK, and
    [handle] passes its check.  After an error the object is still
    uninitialized, so a second call starts over with another [cusparseCreate]:
    the two calls together have made two. *)
Theorem Initialize_postcondition
    (w w1 : world) (this : N) (e : CudaSparseHandles.t) (st : Status) :
  heap w !! this = Some e ->
  entry_valid e ->
  CudaSparseHandles_Initialize this w = Returns st w1 ->
  exists e1,
    heap w1 !! this = Some e1
    /\ entry_valid e1
    /\ CudaSparseHandles.stream_ e1 = CudaSparseHandles.stream_ e
    /\ (st = OK <-> CudaSparseHandles.initialized_ e1 = true)
    /\ (forall l, l <> this -> heap w1 !! l = heap w !! l)
    /\ (st = OK ->
        CudaSparseHandles_Initialize this w1 = Returns OK w1
        /\ CudaSparseHandles_handle this w1 = Returns this w1)
    /\ (st <> OK ->
        CudaSparseHandles.initialized_ e = false
        /\ creates (world_of (CudaSparseHandles_Initialize this w1))
           = S (S (creates w))).
Proof.
  intros He Hv H.
  destruct (CudaSparseHandles.initialized_ e) eqn:Ei.
  - rewrite (Initialize_initialized _ _ _ He Ei) in H. injection H as <- <-.
    exists e. split; [exact He |]. split; [exact Hv |].
    split; [reflexivity |]. split; [split; auto |]. split; [reflexivity |].
    split.
    + intros _. split; [apply (Initialize_initialized _ _ _ He Ei) |].
      rewrite (handle_spec _ _ _ He), Ei, orb_true_r. reflexivity.
    + intros Hne. congruence.
  - pose proof (Initialize_creates _ _ _ He Ei) as Hcr.
    rewrite (Initialize_uninitialized _ _ _ He Ei) in H, Hcr.
    revert H Hcr. destruct (is_success (next_status w)).
    + destruct (is_success (next_status (created this e w)));
        intros H Hcr; injection H as <- <-; simpl in Hcr.
      * eexists. split; [simpl; apply lookup_insert_eq |].
        split; [intros _; simpl; eauto |]. split; [reflexivity |].
        split; [split; auto |].
        split; [intros l Hl; simpl; rewrite !lookup_insert_ne by congruence;
                reflexivity |].
        split; [| congruence]. intros _.
        assert (Hl : heap (initialized this e w) !! this
                     = Some (CudaSparseHandles.mk true (CudaSparseHandles.stream_ e)
                               (Some (next_handle w))))
          by (simpl; apply lookup_insert_eq).
        split; [apply (Initialize_initialized _ _ _ Hl eq_refl) |].
        rewrite (handle_spec _ _ _ Hl). simpl. rewrite orb_true_r. reflexivity.
      * eexists. split; [simpl; apply lookup_insert_eq |].
        split; [intros _; simpl; eauto |]. split; [reflexivity |].
        split; [split; intros E; [discriminate | simpl in E; congruence] |].
        split; [intros l Hl; simpl; rewrite lookup_insert_ne by congruence;
                reflexivity |].
        split; [discriminate |]. intros _. split; [reflexivity |].
        rewrite (Initialize_creates (bound this e w) this
                   (CudaSparseHandles.set_handle (Some (next_handle w)) e));
          [congruence | simpl; apply lookup_insert_eq | exact Ei].
    + intros H Hcr. injection H as <- <-. simpl in Hcr.
      exists e. split; [simpl; apply lookup_insert_eq |].
      split; [exact Hv |]. split; [reflexivity |].
      split; [split; intros E; [discriminate | congruence] |].
      split; [intros l Hl; simpl; rewrite lookup_insert_ne by congruence;
              reflexivity |].
      split; [discriminate |]. intros _. split; [reflexivity |].
      rewrite (Initialize_creates (create_failed this e w) this e);
        [congruence | simpl; apply lookup_insert_eq | exact Ei].
Qed.

Lemma Initialize_postcondition_witness :
  exists e1,
    heap (bound 1 (CudaSparseHandles.mk false 9 None)
            (two_entries false [0%Z; 3%Z])) !! 1 = Some e1
    /\ (Internal 3 = OK <-> CudaSparseHandles.initialized_ e1 = true).
Proof.
  destruct (Initialize_postcondition (two_entries false [0%Z; 3%Z])
              (bound 1 (CudaSparseHandles.mk false 9 None)
                 (two_entries false [0%Z; 3%Z]))
              1 (CudaSparseHandles.mk false 9 None) (Internal 3))
    as (e1 & H1 & _ & _ & H4 & _).
  - vm_compute. reflexivity.
  - intros E. discriminate.
  - vm_compute. reflexivity.
  - exists e1. auto.
Defined.

(** ** Concurrent callers for arbitrary streams *)

Lemma idle_step s i t w m r :
  idle s t ->
  local_step i t w m = Some r ->
  exists t',
    (remaining (t_pc t') < remaining (t_pc t))%nat
    /\ ((r = Stepped t' w m /\ idle s t')
        \/ (m = None /\ r = Stepped t' w (Some i) /\ section_state s t' w w)).
Proof.
  intros [Hpc Hthis] Hstep. destruct t as [p this]. simpl in *.
  unfold local_step in Hstep. simpl in Hstep.
  destruct Hpc as [-> | ->].
  - unfold continue in Hstep. rewrite prologue_spec in Hstep.
    injection Hstep as <-. eexists. split; [| left; split; [reflexivity |]].
    + simpl. lia.
    + split; [right; reflexivity | exact Hthis].
  - destruct m as [j|]; [discriminate |]. injection Hstep as <-.
    eexists. split; [| right; split; [reflexivity | split; [reflexivity |]]].
    + simpl. lia.
    + split; [exact Hthis | reflexivity].
Qed.

Lemma acquire_miss_spec s w :
  cache_inv w -> cm w !! s = None ->
  acquire s w =
    if is_success (next_status w) then
      if is_success (second_status w)
      then Returns (OK, CudaSparse.mk true s (Some (next_loc w + 2)))
                   (miss_inserted s w)
      else Returns (Internal (second_status w), CudaSparse_ctor s)
                   (miss_bind_failed s w)
    else Returns (Internal (next_status w), CudaSparse_ctor s)
                 (miss_create_failed s w).
Proof.
  intros I Hc. unfold acquire.
  rewrite (Initialize_miss w (CudaSparse_ctor s) Hc (inv_fresh _ I)).
  reflexivity.
Qed.

Lemma section_step s i t wb w r :
  cache_inv wb ->
  section_state s t wb w ->
  local_step i t w (Some i) = Some r ->
  exists t' w',
    (remaining (t_pc t') < remaining (t_pc t))%nat
    /\ ((r = Stepped t' w' (Some i) /\ section_state s t' wb w')
        \/ (exists r0, r = Stepped t' w' None
                       /\ acquire s wb = Returns r0 w'
                       /\ t' = Thread (Done (fst r0)) (snd r0))).
Proof.
  intros I [Hthis Hpc] Hstep. destruct t as [p this]. simpl in *. subst this.
  unfold local_step in Hstep. simpl in Hstep.
  destruct p as [ | | | |nh|nh code|node|st]; try contradiction.
  - (* AtFind *)
    subst w. unfold continue, Initialize_find, HandleMap_find in Hstep.
    simpl in Hstep. injection Hstep as <-.
    destruct (cm wb !! s) as [node|] eqn:Hc.
    + eexists _, _. split; [| left; split; [reflexivity |]]; [simpl; lia |].
      split; [reflexivity |]. simpl. apply acquire_cached_spec; assumption.
    + eexists _, _. split; [| left; split; [reflexivity |]]; [simpl; lia |].
      split; [reflexivity |]. simpl. auto.
  - (* AtCreate *)
    destruct Hpc as [-> Hc]. unfold continue in Hstep.
    rewrite create_phase in Hstep. cbv zeta in Hstep. simpl in Hstep.
    destruct (is_success (next_status wb)) eqn:E1;
      [destruct (is_success (second_status wb)) eqn:E2 |];
      injection Hstep as <-; eexists _, _;
      (split; [| left; split; [reflexivity |]]; [simpl; lia |]);
      (split; [reflexivity |]); simpl.
    + auto 10.
    + split; [exact Hc |]. split; [reflexivity |]. left. auto.
    + split; [exact Hc |]. split; [reflexivity |]. right. auto.
  - (* AtInsert *)
    destruct Hpc as (Hc & -> & E1 & E2 & ->). unfold continue in Hstep.
    pose proof (insert_spec wb (CudaSparse_ctor s)) as Hins. cbv zeta in Hins.
    simpl in Hins. rewrite (Hins Hc (inv_fresh _ I)) in Hstep.
    injection Hstep as <-.
    eexists _, _. split; [| left; split; [reflexivity |]]; [simpl; lia |].
    split; [reflexivity |]. simpl.
    rewrite (acquire_miss_spec _ _ I Hc), E1, E2. reflexivity.
  - (* AtFail *)
    destruct Hpc as (Hc & -> & Hshape). unfold continue in Hstep.
    destruct Hshape as [(E1 & E2 & -> & ->) | (E1 & -> & ->)].
    + rewrite (fail_phase_bind wb s (inv_fresh _ I)) in Hstep.
      injection Hstep as <-.
      eexists _, _. split; [| right; eexists; split; [reflexivity |]];
        [simpl; lia |].
      split; [rewrite (acquire_miss_spec _ _ I Hc), E1, E2 |]; reflexivity.
    + rewrite (fail_phase_create wb s (inv_fresh _ I)) in Hstep.
      injection Hstep as <-.
      eexists _, _. split; [| right; eexists; split; [reflexivity |]];
        [simpl; lia |].
      split; [rewrite (acquire_miss_spec _ _ I Hc), E1 |]; reflexivity.
  - (* AtFinish *)
    destruct (acquire_inv _ _ _ _ I Hpc) as (R & I' & _).
    destruct (acquire_ok_entry _ _ _ _ R) as (l & El & Hl).
    injection El as <-.
    destruct (inv_node _ I' _ _ Hl) as (h & Hh & _).
    unfold continue in Hstep.
    rewrite (finish_spec _ (CudaSparse_ctor s) _ _ Hh eq_refl) in Hstep.
    injection Hstep as <-.
    eexists _, _. split; [| right; eexists; split; [reflexivity |]];
      [simpl; lia |].
    split; [exact Hpc | reflexivity].
Qed.

Lemma done_insert (ts : list thread) i t' order
    (rs : list (Status * CudaSparse.t)) :
  i ∉ order ->
  Forall2 (fun j r => ts !! j = Some (Thread (Done (fst r)) (snd r))) order rs ->
  Forall2 (fun j r => <[i := t']> ts !! j
                      = Some (Thread (Done (fst r)) (snd r))) order rs.
Proof.
  intros Hni H. induction H as [|j r order rs Hj H IH]; constructor.
  - apply not_elem_of_cons in Hni. destruct Hni as [Hne _].
    rewrite list_lookup_insert_ne by congruence. exact Hj.
  - apply IH. apply not_elem_of_cons in Hni. tauto.
Qed.

Lemma done_of_order (ts : list thread) order
    (rs : list (Status * CudaSparse.t)) i :
  Forall2 (fun j r => ts !! j = Some (Thread (Done (fst r)) (snd r))) order rs ->
  i ∈ order ->
  exists r, ts !! i = Some (Thread (Done (fst r)) (snd r)).
Proof.
  intros H Hi. induction H as [|j r order rs Hj H IH].
  - apply elem_of_nil in Hi. destruct Hi.
  - apply elem_of_cons in Hi. destruct Hi as [-> | Hi]; eauto.
Qed.

Lemma acquires_snoc ss s w0 rs wb r w' :
  acquires ss w0 = Returns rs wb ->
  acquire s wb = Returns r w' ->
  acquires (ss ++ [s]) w0 = Returns (rs ++ [r]) w'.
Proof.
  intros H A. eapply acquires_app; [exact H |].
  eapply acquires_cons; [exact A | reflexivity].
Qed.

Lemma lin_step streams w0 c i c' order ss rs wb :
  lin_inv streams w0 c order ss rs wb ->
  thread_step i c = Some c' ->
  (total_remaining (threads c') < total_remaining (threads c))%nat
  /\ exists order' ss' rs' wb', lin_inv streams w0 c' order' ss' rs' wb'.
Proof.
  intros [Ha Hlen Hb Hnd Hss Hh Hd Hhold Hidle Hfree] Hstep.
  unfold thread_step in Hstep. rewrite Ha in Hstep.
  destruct (threads c !! i) as [t|] eqn:Hti; [| discriminate].
  destruct (local_step i t (shared c) (handle_map_mutex c)) as [r|] eqn:Hl;
    [| discriminate].
  assert (Hilt : (i < length (threads c))%nat)
    by (apply lookup_lt_is_Some; eauto).
  assert (Hni : i ∉ order).
  { intros Hin. destruct (done_of_order _ _ _ _ Hd Hin) as (r0 & Hr0).
    rewrite Hti in Hr0. injection Hr0 as ->.
    unfold local_step in Hl. simpl in Hl. discriminate. }
  destruct (decide (handle_map_mutex c = Some i)) as [Hm | Hm].
  - (* the holder moves *)
    destruct (Hhold _ Hm) as (_ & t0 & s & Ht0 & Hs & Hsec).
    rewrite Hti in Ht0. injection Ht0 as <-.
    rewrite Hm in Hl.
    destruct (section_step _ _ _ _ _ _ Hb Hsec Hl)
      as (t' & w' & Hlt & [[-> Hsec'] | (r0 & -> & Hacq & ->)]);
      injection Hstep as <-; cbn [threads];
      (split; [apply (total_remaining_insert _ _ _ _ Hti Hlt) |]).
    + exists order, ss, rs, wb.
      split; cbn [crashed threads shared handle_map_mutex];
        try assumption; try reflexivity.
      * rewrite length_insert. exact Hlen.
      * apply done_insert; assumption.
      * intros j Hj. injection Hj as <-. split; [exact Hni |].
        exists t', s. rewrite list_lookup_insert_eq by exact Hilt. auto.
      * intros j tj Hj Hnj Hmj.
        assert (j <> i) by congruence.
        rewrite list_lookup_insert_ne in Hj by congruence.
        apply (Hidle _ _ Hj Hnj). congruence.
      * discriminate.
    + destruct (acquire_inv _ _ _ _ Hb Hacq) as (_ & Hb' & _).
      exists (order ++ [i]), (ss ++ [s]), (rs ++ [r0]), w'.
      split; cbn [crashed threads shared handle_map_mutex].
      * reflexivity.
      * rewrite length_insert. exact Hlen.
      * exact Hb'.
      * apply NoDup_app. split; [exact Hnd |]. split.
        -- intros x Hx Hx'. apply list_elem_of_singleton in Hx'. congruence.
        -- apply NoDup_singleton.
      * apply Forall2_app; [exact Hss |]. constructor; [exact Hs | constructor].
      * eapply acquires_snoc; eassumption.
      * apply Forall2_app; [apply done_insert; assumption |].
        constructor; [| constructor].
        apply list_lookup_insert_eq. exact Hilt.
      * discriminate.
      * intros j tj Hj Hnj _. apply not_elem_of_app in Hnj.
        destruct Hnj as [Hnj Hji]. rewrite list_elem_of_singleton in Hji.
        rewrite list_lookup_insert_ne in Hj by congruence.
        apply (Hidle _ _ Hj Hnj). congruence.
      * reflexivity.
  - (* a thread outside the section moves *)
    destruct (Hidle _ _ Hti Hni Hm) as (s & Hs & Hid).
    destruct (idle_step _ _ _ _ _ _ Hid Hl)
      as (t' & Hlt & [[-> Hid'] | (Hnone & -> & Hsec)]);
      injection Hstep as <-; cbn [threads];
      (split; [apply (total_remaining_insert _ _ _ _ Hti Hlt) |]);
      exists order, ss, rs, wb;
      split; cbn [crashed threads shared handle_map_mutex];
        try assumption; try reflexivity.
    + rewrite length_insert. exact Hlen.
    + apply done_insert; assumption.
    + intros j Hj. destruct (Hhold _ Hj) as (Hnj & tj & sj & Htj & Hsj & Hsecj).
      split; [exact Hnj |]. exists tj, sj.
      rewrite list_lookup_insert_ne by congruence. auto.
    + intros j tj Hj Hnj Hmj.
      destruct (decide (j = i)) as [-> | Hne].
      * rewrite list_lookup_insert_eq in Hj by exact Hilt.
        injection Hj as <-. eauto.
      * rewrite list_lookup_insert_ne in Hj by congruence.
        apply (Hidle _ _ Hj Hnj Hmj).
    + rewrite length_insert. exact Hlen.
    + apply done_insert; assumption.
    + intros j Hj. injection Hj as <-. split; [exact Hni |].
      exists t', s. rewrite list_lookup_insert_eq by exact Hilt.
      rewrite <- (Hfree Hnone). auto.
    + intros j tj Hj Hnj Hmj.
      assert (j <> i) by congruence.
      rewrite list_lookup_insert_ne in Hj by congruence.
      apply (Hidle _ _ Hj Hnj). rewrite Hnone. discriminate.
    + discriminate.
Qed.

Lemma lin_start streams w0 :
  cache_inv w0 -> lin_inv streams w0 (start w0 streams) [] [] [] w0.
Proof.
  intros I. split; simpl.
  - reflexivity.
  - apply length_fmap.
  - exact I.
  - apply NoDup_nil_2.
  - constructor.
  - reflexivity.
  - constructor.
  - discriminate.
  - intros i t Hi _ _. apply list_lookup_fmap_Some in Hi.
    destruct Hi as (s & -> & Hs). exists s. split; [exact Hs |].
    split; [left; reflexivity | reflexivity].
  - reflexivity.
Qed.

Lemma lin_run streams w0 sched : forall c order ss rs wb,
  lin_inv streams w0 c order ss rs wb ->
  exists order' ss' rs' wb',
    lin_inv streams w0 (run sched c) order' ss' rs' wb'.
Proof.
  induction sched as [|i rest IH]; intros c order ss rs wb I; [eauto 10 |].
  simpl. destruct (thread_step i c) as [c'|] eqn:E; simpl.
  - destruct (proj2 (lin_step _ _ _ _ _ _ _ _ _ I E))
      as (order' & ss' & rs' & wb' & I').
    eapply IH. exact I'.
  - eapply IH. exact I.
Qed.

Lemma lin_completion streams w0 : forall k c order ss rs wb,
  lin_inv streams w0 c order ss rs wb ->
  (total_remaining (threads c) <= k)%nat ->
  exists rest, quiescent (run rest c).
Proof.
  induction k as [|k IH]; intros c order ss rs wb I Hk;
    (destruct (quiescent_or_step c) as [Hq | [i [c' E]]];
     [exists []; exact Hq |]);
    destruct (lin_step _ _ _ _ _ _ _ _ _ I E)
      as (Hlt & order' & ss' & rs' & wb' & I').
  - lia.
  - destruct (IH c' _ _ _ _ I') as [rest Hrest]; [lia |].
    exists (i :: rest). simpl. rewrite E. exact Hrest.
Qed.

(** What the invariant says of one thread. *)
Lemma lin_thread streams w0 c order ss rs wb i t :
  lin_inv streams w0 c order ss rs wb ->
  threads c !! i = Some t ->
  ((i ∈ order) /\ exists st, t_pc t = Done st)
  \/ ((i ∉ order) /\ handle_map_mutex c = Some i
      /\ in_critical (t_pc t) = true
      /\ exists s, streams !! i = Some s /\ section_state s t wb (shared c))
  \/ ((i ∉ order) /\ handle_map_mutex c <> Some i
      /\ exists s, streams !! i = Some s /\ idle s t).
Proof.
  intros I Hti.
  destruct (decide (i ∈ order)) as [Hin | Hni].
  - left. split; [exact Hin |].
    destruct (done_of_order _ _ _ _ (li_done _ _ _ _ _ _ _ I) Hin) as (r & Hr).
    rewrite Hti in Hr. injection Hr as ->. simpl. eauto.
  - right. destruct (decide (handle_map_mutex c = Some i)) as [Hm | Hm].
    + left. destruct (li_holder _ _ _ _ _ _ _ I _ Hm)
        as (_ & t0 & s & Ht0 & Hs & Hsec).
      rewrite Hti in Ht0. injection Ht0 as <-.
      split; [exact Hni |]. split; [exact Hm |]. split; [| eauto].
      destruct Hsec as [_ Hpc]. destruct (t_pc t); try contradiction; reflexivity.
    + right. split; [exact Hni |]. split; [exact Hm |].
      apply (li_idle _ _ _ _ _ _ _ I _ _ Hti Hni Hm).
Qed.

Lemma lin_critical streams w0 c order ss rs wb i t :
  lin_inv streams w0 c order ss rs wb ->
  threads c !! i = Some t ->
  in_critical (t_pc t) = true <-> handle_map_mutex c = Some i.
Proof.
  intros I Hti.
  destruct (lin_thread _ _ _ _ _ _ _ _ _ I Hti)
    as [(_ & st & Hst) | [(_ & Hm & Hc & _) | (_ & Hm & s & _ & [Hpc _])]].
  - rewrite Hst. simpl. split; [discriminate |]. intros Hm.
    destruct (li_holder _ _ _ _ _ _ _ I _ Hm) as (_ & t0 & s & Ht0 & _ & [_ Hsec]).
    rewrite Hti in Ht0. injection Ht0 as <-. rewrite Hst in Hsec. contradiction.
  - tauto.
  - split; [| contradiction]. destruct Hpc as [-> | ->]; discriminate.
Qed.

Lemma lin_quiescent streams w0 c order ss rs wb :
  lin_inv streams w0 c order ss rs wb ->
  quiescent c ->
  handle_map_mutex c = None
  /\ forall i t, threads c !! i = Some t -> i ∈ order.
Proof.
  intros I Hq.
  assert (Hmove : forall k tk, threads c !! k = Some tk ->
            local_step k tk (shared c) (handle_map_mutex c) = None).
  { intros k tk Hk. specialize (Hq k). unfold thread_step in Hq.
    rewrite (li_alive _ _ _ _ _ _ _ I), Hk in Hq.
    destruct (local_step _ _ _ _) as [[? ? ?|?]|]; [discriminate.. | reflexivity]. }
  assert (Hfree : handle_map_mutex c = None).
  { destruct (handle_map_mutex c) as [k|] eqn:Hk; [| reflexivity]. exfalso.
    destruct (li_holder _ _ _ _ _ _ _ I _ Hk) as (_ & tk & s & Htk & _ & [_ Hsec]).
    specialize (Hmove _ _ Htk). unfold local_step in Hmove.
    destruct (t_pc tk); try discriminate; contradiction. }
  split; [exact Hfree |]. intros i t Hti.
  destruct (lin_thread _ _ _ _ _ _ _ _ _ I Hti)
    as [(Hin & _) | [(_ & Hm & _) | (_ & _ & s & _ & [Hpc _])]].
  - exact Hin.
  - congruence.
  - exfalso. specialize (Hmove _ _ Hti). unfold local_step in Hmove.
    rewrite Hfree in Hmove. destruct Hpc as [E | E]; rewrite E in Hmove;
      discriminate.
Qed.

Lemma acquire_all_ok s w r w' :
  cache_inv w -> script w = [] -> acquire s w = Returns r w' ->
  fst r = OK /\ script w' = [].
Proof.
  intros I Hsc A. destruct (acquire_inv _ _ _ _ I A) as (R & _ & _).
  assert (E1 : is_success (next_status w) = true)
    by (unfold next_status; rewrite Hsc; reflexivity).
  assert (E2 : is_success (second_status w) = true)
    by (unfold second_status; rewrite Hsc; reflexivity).
  destruct R as [l Hl | Hs S1 S2 | Hs S1 S2 | Hs S1]; try congruence.
  - auto.
  - simpl. rewrite Hsc. auto.
Qed.

Lemma acquires_all_ok ss : forall w rs w',
  cache_inv w -> script w = [] -> acquires ss w = Returns rs w' ->
  Forall (fun r => fst r = OK) rs /\ script w' = [].
Proof.
  induction ss as [|s rest IH]; intros w rs w' I Hsc H.
  - injection H as <- <-. split; [constructor | exact Hsc].
  - destruct (acquires_cons_inv _ _ _ _ _ H) as (r & w1 & rs1 & A & B & ->).
    destruct (acquire_inv _ _ _ _ I A) as (_ & I1 & _).
    destruct (acquire_all_ok _ _ _ _ I Hsc A) as [Hok Hsc1].
    destruct (IH _ _ _ I1 Hsc1 B) as [Hall Hsc2].
    split; [constructor; assumption | exact Hsc2].
Qed.

Lemma lin_reached streams w0 sched :
  session w0 ->
  exists order ss rs wb,
    lin_inv streams w0 (run sched (start w0 streams)) order ss rs wb.
Proof.
  intros S. destruct (session_ok _ S) as [I _].
  eapply lin_run. apply lin_start. exact I.
Qed.

(** X12. Threads calling [CudaSparse::Initialize] for arbitrary streams,
    interleaved in any order: the process never aborts; a thread is between
    taking and releasing [handle_map_mutex] exactly when it holds it, so at
    most one thread is in the lookup-or-insert part; the callers can always be
    run to completion; and when no thread can move the mutex is free, the cache
    satisfies its invariant, and every caller has returned, with OK if the
    native library never fails. *)
Theorem concurrent_streams_safe
    (w0 : world) (streams : list N) (sched : list nat) :
  session w0 ->
  let c := run sched (start w0 streams) in
  crashed c = false
  /\ length (threads c) = length streams
  /\ (forall i t, threads c !! i = Some t ->
        in_critical (t_pc t) = true <-> handle_map_mutex c = Some i)
  /\ (forall i j ti tj,
        threads c !! i = Some ti -> threads c !! j = Some tj ->
        in_critical (t_pc ti) = true -> in_critical (t_pc tj) = true ->
        i = j)
  /\ (exists rest, quiescent (run rest c))
  /\ (quiescent c ->
      handle_map_mutex c = None
      /\ cache_inv (shared c)
      /\ (forall i t, threads c !! i = Some t -> exists st, t_pc t = Done st)
      /\ (script w0 = [] ->
          forall i t, threads c !! i = Some t -> t_pc t = Done OK)).
Proof.
  intros S c. destruct (session_ok _ S) as [I0 _].
  destruct (lin_reached streams w0 sched S) as (order & ss & rs & wb & I).
  fold c in I.
  split; [exact (li_alive _ _ _ _ _ _ _ I) |].
  split; [exact (li_length _ _ _ _ _ _ _ I) |].
  split; [intros i t Hti; exact (lin_critical _ _ _ _ _ _ _ _ _ I Hti) |].
  split.
  { intros i j ti tj Hi Hj Ci Cj.
    apply (lin_critical _ _ _ _ _ _ _ _ _ I Hi) in Ci.
    apply (lin_critical _ _ _ _ _ _ _ _ _ I Hj) in Cj. congruence. }
  split; [exact (lin_completion _ _ _ _ _ _ _ _ I (Nat.le_refl _)) |].
  intros Hq. destruct (lin_quiescent _ _ _ _ _ _ _ I Hq) as [Hfree Hall].
  split; [exact Hfree |]. split.
  - rewrite (li_free _ _ _ _ _ _ _ I Hfree). exact (li_base _ _ _ _ _ _ _ I).
  - split.
    + intros i t Hti.
      destruct (done_of_order _ _ _ _ (li_done _ _ _ _ _ _ _ I) (Hall _ _ Hti))
        as (r & Hr).
      rewrite Hti in Hr. injection Hr as ->. simpl. eauto.
    + intros Hsc i t Hti.
      pose proof (Hall _ _ Hti) as Hin.
      apply list_elem_of_lookup_1 in Hin. destruct Hin as [k Hk].
      destruct (Forall2_lookup_l _ _ _ _ _ (li_done _ _ _ _ _ _ _ I) Hk)
        as (r & Hr & Hd).
      rewrite Hti in Hd. injection Hd as ->. simpl.
      destruct (acquires_all_ok _ _ _ _ I0 Hsc (li_history _ _ _ _ _ _ _ I))
        as [Hok _].
      rewrite Forall_lookup in Hok. rewrite (Hok _ _ Hr). reflexivity.
Qed.

Lemma concurrent_streams_safe_witness :
  crashed (run [0; 1; 1; 0; 1; 0]%nat (start (initial_world false [3%Z]) [5; 7]))
  = false.
Proof.
  pose proof (concurrent_streams_safe (initial_world false [3%Z]) [5; 7]
                [0; 1; 1; 0; 1; 0]%nat (initial_session false [3%Z])) as H.
  cbv zeta in H. destruct H as [H _]. exact H.
Defined.





Lemma acquires_ok_entries ss : forall w rs w',
  cache_inv w -> acquires ss w = Returns rs w' ->
  forall k s r, ss !! k = Some s -> rs !! k = Some r -> fst r = OK ->
  exists l, snd r = CudaSparse.mk true s (Some l) /\ cm w' !! s = Some l.
Proof.
  induction ss as [|s0 rest IH]; intros w rs w' I H k s r Hs Hr Hok.
  - rewrite lookup_nil in Hs. discriminate.
  - destruct (acquires_cons_inv _ _ _ _ _ H) as (r0 & w1 & rs1 & A & B & ->).
    destruct (acquire_inv _ _ _ _ I A) as (R & I1 & _).
    destruct k as [|k]; simpl in Hs, Hr.
    + injection Hs as ->. injection Hr as ->.
      destruct r as [st o]. simpl in Hok. subst st.
      destruct (acquire_ok_entry _ _ _ _ R) as (l & -> & Hl).
      exists l. split; [reflexivity |].
      destruct (acquires_inv _ _ _ _ I1 B) as (_ & [Gc _]).
      eapply lookup_weaken; eassumption.
    + eapply IH; eassumption.
Qed.

Lemma lin_done_entry streams w0 c order ss rs wb i t s :
  cache_inv w0 ->
  lin_inv streams w0 c order ss rs wb ->
  threads c !! i = Some t ->
  streams !! i = Some s ->
  t_pc t = Done OK ->
  exists l, t_this t = CudaSparse.mk true s (Some l) /\ cm wb !! s = Some l.
Proof.
  intros I0 I Hti Hs Hpc.
  destruct (lin_thread _ _ _ _ _ _ _ _ _ I Hti)
    as [(Hin & _) | [(_ & _ & Hc & _) | (_ & _ & s' & _ & [Hp _])]].
  - apply list_elem_of_lookup_1 in Hin. destruct Hin as [k Hk].
    destruct (Forall2_lookup_l _ _ _ _ _ (li_streams _ _ _ _ _ _ _ I) Hk)
      as (s' & Hs' & Hss).
    destruct (Forall2_lookup_l _ _ _ _ _ (li_done _ _ _ _ _ _ _ I) Hk)
      as (r & Hr & Hd).
    rewrite Hs in Hss. injection Hss as <-.
    rewrite Hti in Hd. injection Hd as ->. simpl in Hpc.
    injection Hpc as Hok. simpl.
    exact (acquires_ok_entries _ _ _ _ I0 (li_history _ _ _ _ _ _ _ I)
             _ _ _ Hs' Hr Hok).
  - rewrite Hpc in Hc. discriminate.
  - destruct Hp as [E | E]; congruence.
Qed.

(** X14. At any point of any interleaving, two callers that have returned OK
    hold objects bound to the streams they asked for, and the two objects refer
    to the same entry of the map exactly when the two streams are the same. *)
Theorem concurrent_results_by_stream
    (w0 : world) (streams : list N) (sched : list nat)
    (i j : nat) (ti tj : thread) (si sj : N) :
  session w0 ->
  let c := run sched (start w0 streams) in
  threads c !! i = Some ti -> threads c !! j = Some tj ->
  streams !! i = Some si -> streams !! j = Some sj ->
  t_pc ti = Done OK -> t_pc tj = Done OK ->
  exists li lj,
    t_this ti = CudaSparse.mk true si (Some li)
    /\ t_this tj = CudaSparse.mk true sj (Some lj)
    /\ (li = lj <-> si = sj).
Proof.
  intros S c Hi Hj Hsi Hsj Pi Pj.
  destruct (session_ok _ S) as [I0 _].
  destruct (lin_reached streams w0 sched S) as (order & ss & rs & wb & I).
  fold c in I.
  destruct (lin_done_entry _ _ _ _ _ _ _ _ _ _ I0 I Hi Hsi Pi) as (li & Ei & Ci).
  destruct (lin_done_entry _ _ _ _ _ _ _ _ _ _ I0 I Hj Hsj Pj) as (lj & Ej & Cj).
  exists li, lj. split; [exact Ei |]. split; [exact Ej |].
  pose proof (li_base _ _ _ _ _ _ _ I) as Ib.
  split.
  - intros ->. destruct (inv_node _ Ib _ _ Ci) as (h1 & H1 & _).
    destruct (inv_node _ Ib _ _ Cj) as (h2 & H2 & _).
    rewrite H1 in H2. congruence.
  - intros ->. congruence.
Qed.

Lemma schedule_5_7_threads :
  threads (run [0; 1; 1; 0; 1; 1; 1; 1; 0; 0; 0; 0; 0]%nat
             (start (initial_world false []) [5; 7]))
  = [Thread (Done OK) (CudaSparse.mk true 5 (Some 5));
     Thread (Done OK) (CudaSparse.mk true 7 (Some 2))].
Proof. vm_compute. reflexivity. Qed.

Lemma concurrent_results_by_stream_witness :
  exists li lj,
    CudaSparse.mk true 5 (Some 5) = CudaSparse.mk true 5 (Some li)
    /\ CudaSparse.mk true 7 (Some 2) = CudaSparse.mk true 7 (Some lj)
    /\ (li = lj <-> 5 = 7).
Proof.
  apply (concurrent_results_by_stream (initial_world false []) [5; 7]
           [0; 1; 1; 0; 1; 1; 1; 1; 0; 0; 0; 0; 0]%nat 0%nat 1%nat
           (Thread (Done OK) (CudaSparse.mk true 5 (Some 5)))
           (Thread (Done OK) (CudaSparse.mk true 7 (Some 2))) 5 7
           (initial_session false [])).
  - rewrite schedule_5_7_threads. reflexivity.
  - rewrite schedule_5_7_threads. reflexivity.
  - reflexivity.
  - reflexivity.
  - reflexivity.
  - reflexivity.
Defined.

(** ** The constructor of [CudaSparse] *)

Lemma constructor_spec w s :
  CudaSparse_constructor (Some s) w = Returns (CudaSparse_ctor s) w.
Proof.
  unfold CudaSparse_constructor. munfold. destruct (ndebug w); reflexivity.
Qed.

(** X15. The constructor of [CudaSparse] given a null stream pointer aborts
    where [DCHECK] is active and dereferences the null pointer where it is
    compiled out.  Given a stream it returns an uninitialized object without
    touching the world; using that object before [Initialize] aborts or is
    undefined in the same way.  [Initialize] on it returns in any session, and
    then [Coo2csr] returns, through the context bound to the stream, if the
    status was OK, whereas after an error the object is as the constructor left
    it and still must not be used. *)
Theorem CudaSparse_lifecycle (w : world) (s : N) :
  session w ->
  CudaSparse_constructor None w = (if ndebug w then Undefined w else Fatal w)
  /\ exists obj r w1,
       CudaSparse_constructor (Some s) w = Returns obj w
       /\ CudaSparse_Coo2csr obj w
          = (if ndebug w then Undefined w else Fatal w)
       /\ CudaSparse_Initialize obj w = Returns r w1
       /\ session w1
       /\ (is_ok r = true ->
           exists h,
             CudaSparse_Coo2csr (snd r) w1
               = Returns (status_from (next_status w1)) (converted h w1)
             /\ CallSetStream h s CUSPARSE_STATUS_SUCCESS ∈ calls w1
             /\ session (converted h w1))
       /\ (is_ok r = false ->
           snd r = obj
           /\ CudaSparse_Coo2csr (snd r) w1
              = (if ndebug w then Undefined w1 else Fatal w1)).
Proof.
  intros S. destruct (session_ok _ S) as [I T].
  assert (Hun : forall w', CudaSparse_Coo2csr (CudaSparse_ctor s) w'
                = (if ndebug w' then Undefined w' else Fatal w')).
  { intros w'. unfold CudaSparse_Coo2csr. munfold. simpl.
    destruct (ndebug w'); reflexivity. }
  split.
  { unfold CudaSparse_constructor. munfold. destruct (ndebug w); reflexivity. }
  destruct (acquire_total w s I) as (r & w1 & A & R).
  assert (S1 : session w1).
  { eapply session_later; [exact S |].
    eapply later_acquire; [apply later_refl | exact A]. }
  destruct (session_ok _ S1) as [I1 T1].
  exists (CudaSparse_ctor s), r, w1.
  split; [apply constructor_spec |]. split; [apply Hun |].
  split; [exact A |]. split; [exact S1 |]. split.
  - intros Hok. destruct r as [st o]. unfold is_ok in Hok. simpl in Hok.
    destruct st; [| discriminate].
    destruct (acquire_ok_entry _ _ _ _ R) as (l & -> & Hl).
    destruct (inv_node _ I1 _ _ Hl) as (h & Hh & _).
    assert (U : CudaSparse_Coo2csr (CudaSparse.mk true s (Some l)) w1
                = Returns (status_from (next_status w1)) (converted h w1)).
    { eapply Coo2csr_spec;
        [apply orb_true_r | reflexivity | exact Hh | reflexivity]. }
    exists h. split; [exact U |].
    split; [eapply tr_node; eassumption |].
    eapply session_later; [exact S1 |].
    eapply later_use; [apply later_refl | exact U].
  - intros Hok.
    assert (Hb : ndebug w1 = ndebug w).
    { destruct (later_ok w w1 I T) as [_ _ _ _ B]; [| exact B].
      eapply later_acquire; [apply later_refl | exact A]. }
    rewrite <- Hb.
    destruct R as [l Hl | Hs S1' S2 | Hs S1' S2 | Hs S1']; try discriminate;
      (split; [reflexivity | apply Hun]).
Qed.

Lemma CudaSparse_lifecycle_witness :
  CudaSparse_constructor None (initial_world true [])
  = Undefined (initial_world true []).
Proof.
  destruct (CudaSparse_lifecycle (initial_world true []) 5
              (initial_session true [])) as [H _].
  exact H.
Defined.
